(** * serospace/editor: the raster edit engine and the image merge planner

    A shallow embedding of
      - [PhotoEditor] (src/components/LinkPreviewDialog.tsx): the canvas
        photo editor with its undo/redo history, crop and mosaic,
      - [mergeImages] (src/CustomImageExtension.tsx): the drag-and-drop
        merge of two inline image nodes of a ProseMirror document,
      - the thumbnail registry of src/CustomImageExtension.tsx and the way
        the image node views subscribe to it,
      - [extractVideoInfo] and the embed URLs of
        src/components/VideoEmbedExtension.tsx, with the video dialog
        (src/unnamed/part_002),
      - the link dialog (src/components/LinkPreviewDialog.tsx) and
        [handleLinkInsert] of src/components/RichTextEditor.tsx, and
      - the upload names and the character and word counter of
        src/components/ImageUploadDialog.tsx and
        src/components/RichTextEditor.tsx.

    JavaScript numbers that the code only uses as integers (history cursor,
    pixel coordinates, colour channels, document positions) are [Z]; the
    numbers it really computes in binary64 (aspect ratios, the canvas
    scaling factor, the circle radius) are Rocq's primitive floats, which
    are IEEE 754 binary64 like JavaScript's.

    What the embedding takes from the platform:
      - pointer positions are whole pixels (the canvas sits at an integer
        client offset), so every rectangle the code reads or fills lies on
        the pixel grid; the theorems on pixel values (C6, X7, X9) are
        about such positions only;
      - the browser's rasterisers (scaled image drawing, stroked rectangle,
        circle and polyline) and its colour parser are parameters
        ([Raster.Browser]); [getImageData], [putImageData], [clearRect] and
        [fillRect] on the pixel grid are defined;
      - React: a handler's state updates are applied together, and the two
        canvas effects run afterwards when [image], [history] or
        [historyStep] has changed;
      - ProseMirror: positions, [nodeAt], [descendants] and the replace
        steps are defined on the document tree for the ranges [mergeImages]
        edits (a range within one parent); the schema's content checks are
        not modelled;
      - strings that the code takes apart (URLs, file names, the text that
        is counted) are lists of UTF-16 code units, and each regular
        expression of the source is the matcher it denotes; strings that
        are only stored and compared (attribute values, registry keys) are
        [string]s;
      - a dialog handler returns the new component state together with the
        calls it makes on its props; a listener of the thumbnail registry
        does not call back into the registry, and a node view reads the
        global thumbnail and subscribes in one step when it mounts. *)

From Stdlib Require Import ZArith Uint63.
From Stdlib Require Import Floats.PrimFloat Floats.FloatOps Floats.SpecFloat.
From stdpp Require Import gmap strings list.

Local Open Scope Z_scope.

(** ** JavaScript number helpers *)

Module JS.

(** An integer as a Number (exact below 2^53, which covers every pixel
    coordinate and image dimension). *)
Definition ofZ (z : Z) : float :=
  match z with
  | Z0 => PrimFloat.zero
  | Zpos _ => PrimFloat.of_uint63 (Uint63.of_Z z)
  | Zneg p => PrimFloat.opp (PrimFloat.of_uint63 (Uint63.of_Z (Zpos p)))
  end.

(** [Math.round]: the nearest integer, ties towards +Infinity; NaN and the
    infinities are returned as they are, and a result of zero keeps the
    sign of the argument. *)
Definition Math_round (v : float) : float :=
  match Prim2SF v with
  | S754_finite s m e =>
      if 0 <=? e then v
      else
        let k := 2 ^ (- e) in
        let n := if s then (- (2 * Z.pos m) + k) `div` (2 * k)
                 else (2 * Z.pos m + k) `div` (2 * k) in
        if n =? 0 then (if s then PrimFloat.neg_zero else PrimFloat.zero)
        else ofZ n
  | _ => v
  end.

(** [Math.min] of two numbers. *)
Definition Math_min (a b : float) : float :=
  if PrimFloat.is_nan a || PrimFloat.is_nan b then PrimFloat.nan
  else if PrimFloat.ltb b a then b
  else if PrimFloat.ltb a b then a
  else if PrimFloat.get_sign b then b else a.

Definition Math_sqrt (a : float) : float := PrimFloat.sqrt a.

(** Truncation of a finite Number to an integer; NaN and the infinities
    give 0 (the conversion applied when a Number is stored in an integer
    attribute such as [canvas.width]). *)
Definition truncate (v : float) : Z :=
  match Prim2SF v with
  | S754_finite s m e =>
      let a := if 0 <=? e then Z.pos m * 2 ^ e else Z.pos m `div` 2 ^ (- e) in
      if s then - a else a
  | _ => 0
  end.

(** WebIDL [unsigned long]: truncate, then reduce modulo 2^32. *)
Definition toUnsignedLong (v : float) : Z := truncate v `mod` 2 ^ 32.

(** [Array.prototype.slice(0, e)]: a negative end counts from the back. *)
Definition slice0 {A} (l : list A) (e : Z) : list A :=
  let len := Z.of_nat (length l) in
  let k := if e <? 0 then Z.max (len + e) 0 else Z.min e len in
  take (Z.to_nat k) l.

(** Decimal digits of a natural number (a number has no more decimal
    digits than bits, which bounds the loop). *)
Fixpoint digits (fuel : nat) (n : N) (acc : string) : string :=
  let d := String (Ascii.ascii_of_N (48 + n `mod` 10)%N) acc in
  match fuel with
  | O => d
  | S f => if (n <? 10)%N then d else digits f (n `div` 10)%N d
  end.

Definition decimal (z : Z) : string :=
  let n := Z.to_N (Z.abs z) in
  let body := digits (N.size_nat n) n EmptyString in
  if z <? 0 then String (Ascii.ascii_of_N 45) body else body.

(** [Number::toString] in radix 10 for the values [mergeImages] can
    produce after [Math.round]: NaN, the infinities and integers, which
    print as their decimal digits (exactly so below 2^53; the width
    percentages of images lie between 0 and 98). *)
Definition toString (v : float) : string :=
  if PrimFloat.is_nan v then "NaN"
  else if PrimFloat.is_infinity v then
    (if PrimFloat.get_sign v then "-Infinity" else "Infinity")
  else decimal (truncate v).

End JS.


(** ** The raster edit engine ([PhotoEditor]) *)

Module Raster.

Inductive Tool :=
| ToolNone | ToolCrop | ToolMosaic | ToolRectangle | ToolCircle | ToolPen
| ToolEraser.

(** A pointer position on the pixel grid, in canvas coordinates.
    [getMousePos] returns [clientX - rect.left] and [clientY - rect.top],
    which are whole numbers when the canvas sits at a whole client offset;
    only such positions are embedded. At a fractional position
    [getImageData] truncates its arguments, [canvas.width] truncates and
    [fillRect] anti-aliases: what is proved about pixel values (the mosaic
    blocks, the crop region) is proved for positions on the grid and says
    nothing about the others. *)
Record Point := mkPoint { pt_x : Z; pt_y : Z }.

Inductive ActionType := Mosaic | Rectangle | Circle | Pen.

(** [interface DrawAction]; [lineWidth] is optional in the source. *)
Record DrawAction := mkAction {
  act_type : ActionType;
  act_points : list Point;
  act_color : string;
  act_lineWidth : option Z
}.

(** One RGBA pixel, channels in 0..255. *)
Record Pixel := mkPixel { red : Z; green : Z; blue : Z; alpha : Z }.

Definition transparentBlack : Pixel := mkPixel 0 0 0 0.
Definition opaqueBlack : Pixel := mkPixel 0 0 0 255.
Definition opaqueRed : Pixel := mkPixel 255 0 0 255.

(** A pixel store, addressed by column and row. *)
Definition Pixels : Type := Z -> Z -> Pixel.

(** A decoded image ([HTMLImageElement]). *)
Record Bitmap := mkBitmap {
  bm_width : Z;
  bm_height : Z;
  bm_pixels : Pixels
}.

(** [ImageData]: the pixels of a rectangle, row by row. *)
Record ImageData := mkImageData {
  id_width : Z;
  id_height : Z;
  id_data : list Pixel
}.

(** The canvas element with the drawing state of its 2D context. Styles
    are kept as the colours they parse to. *)
Record Canvas := mkCanvas {
  cv_width : Z;
  cv_height : Z;
  cv_pixels : Pixels;
  cv_strokeStyle : Pixel;
  cv_fillStyle : Pixel;
  cv_lineWidth : Z;
  cv_lineDash : list Z;
  cv_round : bool
}.

(** Assigning [canvas.width] or [canvas.height] clears the bitmap to
    transparent black and resets the context to its defaults. *)
Definition resetCanvas (w h : Z) : Canvas :=
  mkCanvas w h (fun _ _ => transparentBlack) opaqueBlack opaqueBlack 1 [] false.

Definition withPixels (cv : Canvas) (p : Pixels) : Canvas :=
  mkCanvas (cv_width cv) (cv_height cv) p (cv_strokeStyle cv)
    (cv_fillStyle cv) (cv_lineWidth cv) (cv_lineDash cv) (cv_round cv).

Definition withStroke (cv : Canvas) (c : Pixel) : Canvas :=
  mkCanvas (cv_width cv) (cv_height cv) (cv_pixels cv) c
    (cv_fillStyle cv) (cv_lineWidth cv) (cv_lineDash cv) (cv_round cv).

Definition withFill (cv : Canvas) (c : Pixel) : Canvas :=
  mkCanvas (cv_width cv) (cv_height cv) (cv_pixels cv) (cv_strokeStyle cv)
    c (cv_lineWidth cv) (cv_lineDash cv) (cv_round cv).

(** The [lineWidth] setter ignores zero and negative values. *)
Definition setLineWidth (cv : Canvas) (w : Z) : Canvas :=
  if 0 <? w then
    mkCanvas (cv_width cv) (cv_height cv) (cv_pixels cv) (cv_strokeStyle cv)
      (cv_fillStyle cv) w (cv_lineDash cv) (cv_round cv)
  else cv.

Definition setLineDash (cv : Canvas) (d : list Z) : Canvas :=
  mkCanvas (cv_width cv) (cv_height cv) (cv_pixels cv) (cv_strokeStyle cv)
    (cv_fillStyle cv) (cv_lineWidth cv) d (cv_round cv).

(** [lineCap = 'round'; lineJoin = 'round']. *)
Definition setRound (cv : Canvas) : Canvas :=
  mkCanvas (cv_width cv) (cv_height cv) (cv_pixels cv) (cv_strokeStyle cv)
    (cv_fillStyle cv) (cv_lineWidth cv) (cv_lineDash cv) true.

Definition inCanvas (cv : Canvas) (px py : Z) : bool :=
  (0 <=? px) && (px <? cv_width cv) && (0 <=? py) && (py <? cv_height cv).

(** What [getImageData] reads at one position: positions outside the
    canvas read as transparent black. *)
Definition readPixel (cv : Canvas) (px py : Z) : Pixel :=
  if inCanvas cv px py then cv_pixels cv px py else transparentBlack.

Definition zrange (a : Z) (n : nat) : list Z :=
  map (fun i => a + Z.of_nat i) (seq 0 n).

(** [ctx.getImageData(sx, sy, sw, sh)]: an IndexSizeError ([None]) when
    [sw] or [sh] is zero; a negative extent mirrors the rectangle. *)
Definition getImageData (cv : Canvas) (sx sy sw sh : Z) : option ImageData :=
  if (sw =? 0) || (sh =? 0) then None
  else
    let x0 := Z.min sx (sx + sw) in
    let y0 := Z.min sy (sy + sh) in
    let w := Z.abs sw in
    let h := Z.abs sh in
    Some (mkImageData w h
            (flat_map (fun py => map (fun px => readPixel cv px py)
                                     (zrange x0 (Z.to_nat w)))
                      (zrange y0 (Z.to_nat h)))).

(** [ctx.putImageData(d, 0, 0)]: the data replaces the pixels it covers. *)
Definition putImageData (cv : Canvas) (d : ImageData) : Canvas :=
  withPixels cv (fun px py =>
    if (0 <=? px) && (px <? id_width d) && (0 <=? py) && (py <? id_height d)
    then nth (Z.to_nat (py * id_width d + px)) (id_data d) transparentBlack
    else cv_pixels cv px py).

(** [ctx.clearRect(0, 0, canvas.width, canvas.height)]. *)
Definition clearCanvas (cv : Canvas) : Canvas :=
  withPixels cv (fun _ _ => transparentBlack).

(** The image a canvas encodes to ([canvas.toDataURL()] decoded again):
    lossless, with the canvas's dimensions. *)
Definition canvasImage (cv : Canvas) : Bitmap :=
  mkBitmap (cv_width cv) (cv_height cv) (readPixel cv).

(** Component state of [PhotoEditor] together with its canvas. *)
Record State := mkState {
  image : option Bitmap;
  canvas : Canvas;
  tool : Tool;
  color : string;
  lineWidth : Z;
  isDrawing : bool;
  startPoint : option Point;
  currentPath : list Point;
  history : list DrawAction;
  historyStep : Z
}.

(** [useState] initial values; the canvas starts as a default 300x150. *)
Definition initialState : State :=
  mkState None (resetCanvas 300 150) ToolNone "#ff0000" 3 false None [] [] (-1).

Definition setImage (st : State) (i : Bitmap) : State :=
  mkState (Some i) (canvas st) (tool st) (color st) (lineWidth st)
    (isDrawing st) (startPoint st) (currentPath st) (history st) (historyStep st).

Definition setCanvas (st : State) (cv : Canvas) : State :=
  mkState (image st) cv (tool st) (color st) (lineWidth st)
    (isDrawing st) (startPoint st) (currentPath st) (history st) (historyStep st).

Definition setTool (st : State) (t : Tool) : State :=
  mkState (image st) (canvas st) t (color st) (lineWidth st)
    (isDrawing st) (startPoint st) (currentPath st) (history st) (historyStep st).

Definition setIsDrawing (st : State) (b : bool) : State :=
  mkState (image st) (canvas st) (tool st) (color st) (lineWidth st)
    b (startPoint st) (currentPath st) (history st) (historyStep st).

Definition setStartPoint (st : State) (p : option Point) : State :=
  mkState (image st) (canvas st) (tool st) (color st) (lineWidth st)
    (isDrawing st) p (currentPath st) (history st) (historyStep st).

Definition setCurrentPath (st : State) (p : list Point) : State :=
  mkState (image st) (canvas st) (tool st) (color st) (lineWidth st)
    (isDrawing st) (startPoint st) p (history st) (historyStep st).

Definition setHistory (st : State) (h : list DrawAction) : State :=
  mkState (image st) (canvas st) (tool st) (color st) (lineWidth st)
    (isDrawing st) (startPoint st) (currentPath st) h (historyStep st).

Definition setHistoryStep (st : State) (s : Z) : State :=
  mkState (image st) (canvas st) (tool st) (color st) (lineWidth st)
    (isDrawing st) (startPoint st) (currentPath st) (history st) s.

(** *** Rendering and event handlers *)

(** What the browser supplies: CSS colour parsing, source-over blending
    of a translucent colour, and the rasterisers of [drawImage] (the image
    scaled to the canvas), [strokeRect], a stroked full circle ([arc]
    from 0 to 2 pi) and a stroked polyline. A rasteriser sees the canvas
    with its context state and returns the new pixel store. *)
Class Browser := {
  parseColor : string -> option Pixel;
  blend : Pixel -> Pixel -> Pixel;
  rasterImage : Bitmap -> Canvas -> Pixels;
  rasterStrokeRect : Canvas -> Z -> Z -> Z -> Z -> Pixels;
  rasterStrokeArc : Canvas -> Z -> Z -> float -> Pixels;
  rasterStrokePath : Canvas -> list Point -> Pixels
}.

Section Engine.

Context `{Browser}.

(** A style setter ignores a string that is not a colour. *)
Definition setStrokeStyle (cv : Canvas) (c : string) : Canvas :=
  match parseColor c with Some p => withStroke cv p | None => cv end.

Definition setFillStyle (cv : Canvas) (c : string) : Canvas :=
  match parseColor c with Some p => withFill cv p | None => cv end.

Definition composite (src dst : Pixel) : Pixel :=
  if alpha src =? 255 then src else blend src dst.

(** [ctx.fillRect(fx, fy, fw, fh)] with the current fill style. *)
Definition fillRect (cv : Canvas) (fx fy fw fh : Z) : Canvas :=
  withPixels cv (fun px py =>
    if inCanvas cv px py
       && (Z.min fx (fx + fw) <=? px) && (px <? Z.max fx (fx + fw))
       && (Z.min fy (fy + fh) <=? py) && (py <? Z.max fy (fy + fh))
    then composite (cv_fillStyle cv) (cv_pixels cv px py)
    else cv_pixels cv px py).

Definition strokeRect (cv : Canvas) (sx sy sw sh : Z) : Canvas :=
  withPixels cv (rasterStrokeRect cv sx sy sw sh).

Definition strokeCircle (cv : Canvas) (cx cy : Z) (radius : float) : Canvas :=
  withPixels cv (rasterStrokeArc cv cx cy radius).

Definition strokePath (cv : Canvas) (path : list Point) : Canvas :=
  withPixels cv (rasterStrokePath cv path).

Definition drawImage (cv : Canvas) (img : Bitmap) : Canvas :=
  withPixels cv (rasterImage img cv).

(** [Math.sqrt(Math.pow(b.x - a.x, 2) + Math.pow(b.y - a.y, 2))]. *)
Definition distance (a b : Point) : float :=
  let dx := JS.ofZ (pt_x b - pt_x a) in
  let dy := JS.ofZ (pt_y b - pt_y a) in
  JS.Math_sqrt (PrimFloat.add (PrimFloat.mul dx dx) (PrimFloat.mul dy dy)).

Definition mosaicSize : Z := 10.

(** The colour [rgb(r, g, b)] parses to (channels clamp to 0..255). *)
Definition cssRgb (r g b : Z) : Pixel :=
  let clamp v := Z.max 0 (Z.min 255 v) in
  mkPixel (clamp r) (clamp g) (clamp b) 255.

(** The accumulation loop of [applyMosaic] over the pixel data:
    the three channel sums and the pixel count. *)
Definition sumPixels (data : list Pixel) : Z * Z * Z * Z :=
  fold_left (fun acc p =>
               let '(r, g, b, count) := acc in
               (r + red p, g + green p, b + blue p, count + 1))
            data (0, 0, 0, 0).

(** The body of the two loops of [applyMosaic]: one block. *)
Definition mosaicBlock (cv : Canvas) (mX mY : Z) : Canvas :=
  match getImageData cv mX mY mosaicSize mosaicSize with
  | None => cv
  | Some d =>
      let '(r, g, b, count) := sumPixels (id_data d) in
      if 0 <? count then
        fillRect (withFill cv (cssRgb (r `div` count) (g `div` count) (b `div` count)))
                 mX mY mosaicSize mosaicSize
      else cv
  end.

(** [for (let mX = ...; mX < xEnd; mX += mosaicSize)]. The counter grows
    by 10 each round, so [xEnd - mX] rounds are always enough. *)
Fixpoint mosaicRow (fuel : nat) (cv : Canvas) (mX mY xEnd : Z) : Canvas :=
  match fuel with
  | O => cv
  | S fuel' =>
      if mX <? xEnd then
        mosaicRow fuel' (mosaicBlock cv mX mY) (mX + mosaicSize) mY xEnd
      else cv
  end.

(** [for (let mY = ...; mY < yEnd; mY += mosaicSize)]. *)
Fixpoint mosaicRows (fuel : nat) (cv : Canvas) (mY x0 xEnd yEnd : Z) : Canvas :=
  match fuel with
  | O => cv
  | S fuel' =>
      if mY <? yEnd then
        mosaicRows fuel'
          (mosaicRow (Z.to_nat (xEnd - x0)) cv x0 mY xEnd)
          (mY + mosaicSize) x0 xEnd yEnd
      else cv
  end.

Definition applyMosaic (cv : Canvas) (points : list Point) : Canvas :=
  match points with
  | pstart :: pend :: _ =>
      let x0 := Z.min (pt_x pstart) (pt_x pend) in
      let y0 := Z.min (pt_y pstart) (pt_y pend) in
      let width := Z.abs (pt_x pend - pt_x pstart) in
      let height := Z.abs (pt_y pend - pt_y pstart) in
      mosaicRows (Z.to_nat height) cv y0 x0 (x0 + width) (y0 + height)
  | _ => cv
  end.

(** [action.lineWidth || 3]. *)
Definition lineWidthOr3 (w : option Z) : Z :=
  match w with
  | Some v => if v =? 0 then 3 else v
  | None => 3
  end.

Definition applyAction (cv : Canvas) (action : DrawAction) : Canvas :=
  let cv := setStrokeStyle cv (act_color action) in
  let cv := setFillStyle cv (act_color action) in
  let cv := setLineWidth cv (lineWidthOr3 (act_lineWidth action)) in
  let cv := setRound cv in
  match act_type action with
  | Mosaic => applyMosaic cv (act_points action)
  | Rectangle =>
      match act_points action with
      | pstart :: pend :: _ =>
          strokeRect cv (pt_x pstart) (pt_y pstart)
            (pt_x pend - pt_x pstart) (pt_y pend - pt_y pstart)
      | _ => cv
      end
  | Circle =>
      match act_points action with
      | pstart :: pend :: _ =>
          strokeCircle cv (pt_x pstart) (pt_y pstart) (distance pstart pend)
      | _ => cv
      end
  | Pen =>
      match act_points action with
      | p0 :: _ :: _ => strokePath cv (p0 :: act_points action)
      | _ => cv
      end
  end.

(** [redrawCanvas]: nothing without an image; otherwise clear, draw the
    image over the whole canvas and replay [history.slice(0, step + 1)]. *)
Definition redrawCanvas (st : State) : State :=
  match image st with
  | None => st
  | Some img =>
      setCanvas st
        (fold_left applyAction
           (JS.slice0 (history st) (historyStep st + 1))
           (drawImage (clearCanvas (canvas st)) img))
  end.

(** The canvas size chosen by the set-up effect: the image's own size, or
    scaled by [Math.min(800 / width, 600 / height)] when it exceeds
    800 x 600. *)
Definition fitDims (w h : Z) : Z * Z :=
  if (800 <? w) || (600 <? h) then
    let ratio := JS.Math_min (PrimFloat.div 800 (JS.ofZ w))
                             (PrimFloat.div 600 (JS.ofZ h)) in
    (JS.toUnsignedLong (PrimFloat.mul (JS.ofZ w) ratio),
     JS.toUnsignedLong (PrimFloat.mul (JS.ofZ h) ratio))
  else (w, h).

(** The effect "Setup canvas when image is loaded". *)
Definition setupCanvas (st : State) : State :=
  match image st with
  | None => st
  | Some img =>
      let '(w, h) := fitDims (bm_width img) (bm_height img) in
      redrawCanvas (setCanvas st (resetCanvas w h))
  end.

(** Both effects depend on [redrawCanvas], which changes whenever
    [image], [history] or [historyStep] is set to a new value; React
    then runs the set-up effect and the redraw effect in this order.
    The embedding runs them where a handler sets one of the three. *)
Definition runEffects (st : State) : State :=
  redrawCanvas (setupCanvas st).

Definition handleMouseDown (st : State) (point : Point) : State :=
  match tool st with
  | ToolNone => st
  | t =>
      let st := setStartPoint (setIsDrawing st true) (Some point) in
      match t with
      | ToolPen => setCurrentPath st [point]
      | _ => st
      end
  end.

(** The style set before every preview. *)
Definition previewStyle (st : State) (cv : Canvas) : Canvas :=
  setRound (setLineWidth (setFillStyle (setStrokeStyle cv (color st)) (color st))
                         (lineWidth st)).

Definition dashedRect (cv : Canvas) (c : Pixel) (a b : Point) : Canvas :=
  let cv := setLineDash (setLineWidth (withStroke cv c) 2) [5; 5] in
  let cv := strokeRect cv (pt_x a) (pt_y a) (pt_x b - pt_x a) (pt_y b - pt_y a) in
  setLineDash cv [].

Definition handleMouseMove (st : State) (point : Point) : State :=
  match isDrawing st, startPoint st with
  | true, Some sp =>
      let st := redrawCanvas st in
      let cv := previewStyle st (canvas st) in
      match tool st with
      | ToolCrop => setCanvas st (dashedRect cv opaqueBlack sp point)
      | ToolMosaic => setCanvas st (dashedRect cv opaqueRed sp point)
      | ToolRectangle =>
          setCanvas st
            (strokeRect cv (pt_x sp) (pt_y sp)
               (pt_x point - pt_x sp) (pt_y point - pt_y sp))
      | ToolCircle =>
          setCanvas st (strokeCircle cv (pt_x sp) (pt_y sp) (distance sp point))
      | ToolPen =>
          let newPath := currentPath st ++ [point] in
          let st' := setCurrentPath st newPath in
          match currentPath st with
          | p0 :: _ => setCanvas st' (strokePath cv (p0 :: newPath))
          | [] => setCanvas st' cv   (* currentPath[0] is undefined: TypeError *)
          end
      | _ => setCanvas st cv
      end
  | _, _ => st
  end.

Definition addToHistory (st : State) (action : DrawAction) : State :=
  let newHistory := JS.slice0 (history st) (historyStep st + 1) ++ [action] in
  runEffects
    (setHistoryStep (setHistory st newHistory)
                    (Z.of_nat (length newHistory) - 1)).

Definition handleUndo (st : State) : State :=
  if -1 <? historyStep st then
    runEffects (setHistoryStep st (historyStep st - 1))
  else st.

Definition handleRedo (st : State) : State :=
  if historyStep st <? Z.of_nat (length (history st)) - 1 then
    runEffects (setHistoryStep st (historyStep st + 1))
  else st.

(** The synchronous part of [applyCrop]: [None] when there is no image;
    [Some None] when [getImageData] throws; otherwise the canvas, resized
    to the region and holding its pixels, and the image whose load is
    then pending ([croppedImage.src = canvas.toDataURL()]). *)
Definition applyCrop (st : State) (pstart pend : Point)
  : option (option (Canvas * Bitmap)) :=
  match image st with
  | None => None
  | Some _ =>
      let x0 := Z.min (pt_x pstart) (pt_x pend) in
      let y0 := Z.min (pt_y pstart) (pt_y pend) in
      let width := Z.abs (pt_x pend - pt_x pstart) in
      let height := Z.abs (pt_y pend - pt_y pstart) in
      match getImageData (canvas st) x0 y0 width height with
      | None => Some None
      | Some imageData =>
          let cv := putImageData (resetCanvas width height) imageData in
          Some (Some (cv, canvasImage cv))
      end
  end.

(** [handleMouseUp]; the second component is the cropped image whose
    load has been started, if any. When [applyCrop] throws, the handler
    stops there: [isDrawing] has been cleared, the rest is not reached. *)
Definition handleMouseUp (st : State) (point : Point) : State * option Bitmap :=
  match isDrawing st, startPoint st with
  | true, Some sp =>
      let st := setIsDrawing st false in
      let finish s := setCurrentPath (setStartPoint s None) [] in
      match tool st with
      | ToolCrop =>
          match applyCrop st sp point with
          | None => (finish st, None)
          | Some None => (st, None)
          | Some (Some (cv, cropped)) => (finish (setCanvas st cv), Some cropped)
          end
      | ToolMosaic =>
          (finish (addToHistory st (mkAction Mosaic [sp; point] (color st) None)), None)
      | ToolRectangle =>
          (finish (addToHistory st
             (mkAction Rectangle [sp; point] (color st) (Some (lineWidth st)))), None)
      | ToolCircle =>
          (finish (addToHistory st
             (mkAction Circle [sp; point] (color st) (Some (lineWidth st)))), None)
      | ToolPen =>
          if 1 <? Z.of_nat (length (currentPath st)) then
            (finish (addToHistory st
               (mkAction Pen (currentPath st) (color st) (Some (lineWidth st)))), None)
          else (finish st, None)
      | _ => (finish st, None)
      end
  | _, _ => (st, None)
  end.

(** [croppedImage.onload] of [applyCrop]: the crop completes. *)
Definition croppedImage_onload (st : State) (cropped : Bitmap) : State :=
  runEffects (setHistoryStep (setHistory (setImage st cropped) []) (-1)).

(** [img.onload = () => setImage(img)], the completion of both the
    image-load effect (file or URL prop) and [handleFileChange]. *)
Definition img_onload (st : State) (img : Bitmap) : State :=
  runEffects (setImage st img).

(** [handleFileChange]: nothing without a file (or when it does not
    decode); otherwise the decoded image is loaded. *)
Definition handleFileChange (st : State) (file : option Bitmap) : State :=
  match file with
  | Some img => img_onload st img
  | None => st
  end.

(** A complete gesture: pointer-down, any moves, pointer-up. *)
Definition gesture (st : State) (down : Point) (moves : list Point) (up : Point)
  : State * option Bitmap :=
  handleMouseUp (fold_left handleMouseMove moves (handleMouseDown st down)) up.

End Engine.

End Raster.

(** ** The image merge planner ([mergeImages]) *)

Module Merge.

(** *** The document, as ProseMirror holds it *)

(** An attribute value: [null] or a string. *)
Inductive Value := VNull | VStr (s : string).

#[global] Instance Value_eq_dec : EqDecision Value.
Proof. solve_decision. Defined.

Record Mark := mkMark { mark_type : string; mark_attrs : gmap string Value }.

#[global] Instance Mark_eq_dec : EqDecision Mark.
Proof. solve_decision. Defined.

(** A node is a text node (its text is never empty: the first code unit
    and the rest), a leaf such as an inline image, or a node with content.
    A fragment is the sequence of children of a node; the document is the
    content of its top node. *)
Inductive Node :=
| Text (c : Ascii.ascii) (s : list Ascii.ascii) (marks : list Mark)
| Leaf (type : string) (attrs : gmap string Value) (marks : list Mark)
| Branch (type : string) (attrs : gmap string Value) (content : Fragment)
         (marks : list Mark)
with Fragment :=
| Empty
| Cons (n : Node) (rest : Fragment).

Infix ":::" := Cons (at level 60, right associativity).

Fixpoint fragment (l : list Node) : Fragment :=
  match l with
  | [] => Empty
  | n :: l' => n ::: fragment l'
  end.

Definition node_attrs (n : Node) : gmap string Value :=
  match n with
  | Text _ _ _ => ∅
  | Leaf _ a _ | Branch _ a _ _ => a
  end.

Definition node_marks (n : Node) : list Mark :=
  match n with
  | Text _ _ m | Leaf _ _ m | Branch _ _ _ m => m
  end.

Definition node_content (n : Node) : Fragment :=
  match n with
  | Branch _ _ c _ => c
  | _ => Empty
  end.

Definition node_type (n : Node) : string :=
  match n with
  | Text _ _ _ => "text"
  | Leaf t _ _ | Branch t _ _ _ => t
  end.

(** [node.nodeSize]: the text length, 1 for a leaf, and the content size
    plus the opening and closing token otherwise; [fragment.size]. *)
Fixpoint nodeSize (n : Node) : Z :=
  match n with
  | Text _ s _ => 1 + Z.of_nat (length s)
  | Leaf _ _ _ => 1
  | Branch _ _ c _ => 2 + fragmentSize c
  end
with fragmentSize (f : Fragment) : Z :=
  match f with
  | Empty => 0
  | n ::: rest => nodeSize n + fragmentSize rest
  end.

(** The result of [doc.nodeAt(pos)]: a node, [null], or a RangeError for a
    position outside the document. *)
Inductive Lookup := Found (n : Node) | Null | OutOfRange.

(** [doc.nodeAt(pos)]: the node that starts at [pos], or the text node
    [pos] points into. *)
Fixpoint nodeAt (f : Fragment) (pos : Z) {struct f} : Lookup :=
  match f with
  | Empty => if pos =? 0 then Null else OutOfRange
  | n ::: rest =>
      if pos <? 0 then OutOfRange
      else if pos =? 0 then Found n
      else if pos <? nodeSize n then
        match n with
        | Branch _ _ c _ => nodeAt c (pos - 1)
        | _ => Found n
        end
      else nodeAt rest (pos - nodeSize n)
  end.

(** The callback [mergeImages] passes to [doc.descendants]. *)
Definition isDragged (imageType draggedId : string) (n : Node) : bool :=
  match n with
  | Text _ _ _ => false
  | Leaf t a _ | Branch t a _ _ =>
      bool_decide (t = imageType)
      && bool_decide (a !! "id" = Some (VStr draggedId))
  end.

(** [state.doc.descendants(callback)] with that callback: every node is
    visited in document order with its position, a match overwrites
    [draggedPos]/[draggedNode] and is not descended into. *)
Fixpoint descendants (imageType draggedId : string) (f : Fragment) (start : Z)
         (found : option (Z * Node)) {struct f} : option (Z * Node) :=
  match f with
  | Empty => found
  | n ::: rest =>
      let found' :=
        if isDragged imageType draggedId n then Some (start, n)
        else match n with
             | Branch _ _ c _ => descendants imageType draggedId c (start + 1) found
             | _ => found
             end in
      descendants imageType draggedId rest (start + nodeSize n) found'
  end.

(** *** Document edits (a transaction's steps)

    Every edit [mergeImages] makes replaces a range that lies in one
    parent node. [None] stands for the exception the step throws
    (a position outside the document, no node at the position); a range
    that is not within one parent is outside this embedding and is [None]
    as well. *)

Definition mkText (s : list Ascii.ascii) (m : list Mark) : Fragment :=
  match s with
  | [] => Empty
  | c :: s' => Text c s' m ::: Empty
  end.

Fixpoint concat (a b : Fragment) : Fragment :=
  match a with
  | Empty => b
  | n ::: a' => n ::: concat a' b
  end.

(** [content.cut(0, p)] for [p] at a node boundary or inside a text. *)
Fixpoint cutBefore (f : Fragment) (p : Z) {struct f} : option Fragment :=
  if p =? 0 then Some Empty
  else match f with
       | Empty => None
       | n ::: rest =>
           if p <? 0 then None
           else if nodeSize n <=? p then
             Cons n <$> cutBefore rest (p - nodeSize n)
           else match n with
                | Text c s m => Some (mkText (take (Z.to_nat p) (c :: s)) m)
                | _ => None
                end
       end.

(** [content.cut(p)]. *)
Fixpoint cutAfter (f : Fragment) (p : Z) {struct f} : option Fragment :=
  match f with
  | Empty => if p =? 0 then Some Empty else None
  | n ::: rest =>
      if p <? 0 then None
      else if p =? 0 then Some f
      else if nodeSize n <=? p then cutAfter rest (p - nodeSize n)
      else match n with
           | Text c s m =>
               Some (concat (mkText (drop (Z.to_nat p) (c :: s)) m) rest)
           | _ => None
           end
  end.

(** [Fragment.append]: two text nodes with the same marks that meet at
    the seam are joined. *)
Fixpoint append (a b : Fragment) : Fragment :=
  match a with
  | Empty => b
  | n ::: Empty =>
      match n, b with
      | Text c s m, Text c' s' m' ::: b' =>
          if decide (m = m') then Text c (s ++ c' :: s') m ::: b' else n ::: b
      | _, _ => n ::: b
      end
  | n ::: a' => n ::: append a' b
  end.

(** [addNode] of a deletion: a text node joins the node pushed before it
    when their marks agree. *)
Definition addNode (target : Fragment) (child : Node) : Fragment :=
  append target (child ::: Empty).

Fixpoint addNodes (target f : Fragment) : Fragment :=
  match f with
  | Empty => target
  | n ::: rest => addNodes (addNode target n) rest
  end.

(** The replacement within the parent the range resolves to: the part
    before, the inserted nodes and the part after; a deletion collects the
    two parts node by node. *)
Definition replaceFlat (f : Fragment) (from to : Z) (ins : Fragment)
  : option Fragment :=
  if to <? from then None
  else
    match cutBefore f from, cutAfter f to with
    | Some a, Some b =>
        match ins with
        | Empty => Some (addNodes (addNodes Empty a) b)
        | _ => Some (append (append a ins) b)
        end
    | _, _ => None
    end.

(** The descent of [doc.replace]: find the child both ends of the range
    are strictly inside and replace within its content by [rec]; [None]
    when there is no such child. [off] is the start offset of [cs]. *)
Fixpoint descend (rec : Fragment -> Z -> Z -> option Fragment)
         (cs : Fragment) (off from to : Z) {struct cs}
  : option (option Fragment) :=
  match cs with
  | Empty => None
  | c ::: cs' =>
      match c with
      | Branch t a cc m =>
          if (off <? from) && (to <? off + nodeSize c) then
            Some (option_map (fun cc' => Branch t a cc' m ::: cs')
                             (rec cc (from - off - 1) (to - off - 1)))
          else option_map (option_map (Cons c))
                          (descend rec cs' (off + nodeSize c) from to)
      | _ => option_map (option_map (Cons c))
                        (descend rec cs' (off + nodeSize c) from to)
      end
  end.

(** [doc.replace(from, to, slice)] for a closed slice [ins]: descend until
    the range lies in the content at hand, and replace there. *)
Fixpoint replaceRange (f : Fragment) (from to : Z) (ins : Fragment) {struct f}
  : option Fragment :=
  match descend (fun cc a b => replaceRange cc a b ins) f 0 from to with
  | Some r => r
  | None => replaceFlat f from to ins
  end.

(** The net effect of the step [setNodeMarkup] issues for a node with
    content: the node that starts at [pos] gets the new attributes and
    keeps its content and marks. *)
Fixpoint remarkup (f : Fragment) (pos : Z) (attrs : gmap string Value)
         {struct f} : option Fragment :=
  match f with
  | Empty => None
  | n ::: rest =>
      if pos <? 0 then None
      else if pos =? 0 then
        match n with
        | Branch t _ c m => Some (Branch t attrs c m ::: rest)
        | _ => None
        end
      else if pos <? nodeSize n then
        match n with
        | Branch t a c m =>
            option_map (fun c' => Branch t a c' m ::: rest)
                       (remarkup c (pos - 1) attrs)
        | _ => None
        end
      else option_map (Cons n) (remarkup rest (pos - nodeSize n) attrs)
  end.

(** [tr.setNodeMarkup(pos, undefined, attrs)]: throws when there is no
    node at [pos] and for a text node; a leaf is replaced by a node of the
    same type and marks. *)
Definition setNodeMarkup (doc : Fragment) (pos : Z) (attrs : gmap string Value)
  : option Fragment :=
  match nodeAt doc pos with
  | Found (Leaf t a m as node) =>
      replaceRange doc pos (pos + nodeSize node) (Leaf t attrs m ::: Empty)
  | Found (Branch _ _ _ _) => remarkup doc pos attrs
  | _ => None
  end.

(** [tr.delete(from, to)]; no step is made for an empty range. *)
Definition delete (doc : Fragment) (from to : Z) : option Fragment :=
  if from =? to then Some doc else replaceRange doc from to Empty.

(** [tr.insert(pos, node)]. *)
Definition insert (doc : Fragment) (pos : Z) (node : Node) : option Fragment :=
  replaceRange doc pos pos (node ::: Empty).

(** [node.type.create(attrs, node.content, node.marks)]. *)
Definition create (node : Node) (attrs : gmap string Value) : Node :=
  match node with
  | Text _ _ _ => node
  | Leaf t _ m => Leaf t attrs m
  | Branch t _ c m => Branch t attrs c m
  end.

(** *** [mergeImages] *)

(** [getImageAspectRatio]: [probe] is the outcome of loading an image
    source, its natural width and height, or [None] when loading fails. *)
Definition getImageAspectRatio (probe : option Value -> option (Z * Z))
           (src : option Value) : float :=
  match probe src with
  | Some (naturalWidth, naturalHeight) =>
      PrimFloat.div (JS.ofZ naturalWidth) (JS.ofZ naturalHeight)
  | None => 1%float
  end.

Definition targetWidthPercent (targetRatio draggedRatio : float) : float :=
  let totalRatio := PrimFloat.add targetRatio draggedRatio in
  JS.Math_round (PrimFloat.mul (PrimFloat.div targetRatio totalRatio) 98).

Definition draggedWidthPercent (targetRatio draggedRatio : float) : float :=
  PrimFloat.sub 98 (targetWidthPercent targetRatio draggedRatio).

(** [{ ...attrs, width: `${percent}%` }]. *)
Definition withWidth (attrs : gmap string Value) (percent : float)
  : gmap string Value :=
  <["width" := VStr (JS.toString percent +:+ "%")]> attrs.

(** How a call of [mergeImages] ends: the transaction is dispatched and
    the editor holds the new document, the function returns early, or an
    exception escapes before [dispatch]. *)
Inductive Outcome := Dispatched (doc : Fragment) | Aborted | Threw.

(** The document the editor holds afterwards. *)
Definition documentAfter (doc : Fragment) (o : Outcome) : Fragment :=
  match o with
  | Dispatched doc' => doc'
  | _ => doc
  end.

(** [mergeImages(draggedId)] in the node view of a node of type
    [imageType] whose position is [getPos] ([None]: no position), on the
    document [doc]. *)
Definition mergeImages (probe : option Value -> option (Z * Z))
           (imageType : string) (getPos : option Z) (doc : Fragment)
           (draggedId : string) : Outcome :=
  match descendants imageType draggedId doc 0 None with
  | None => Aborted
  | Some (draggedPos, draggedNode) =>
      match getPos with
      | None => Aborted
      | Some targetPos =>
          match nodeAt doc targetPos with
          | OutOfRange => Threw
          | Null => Aborted
          | Found targetNode =>
              let targetRatio :=
                getImageAspectRatio probe (node_attrs targetNode !! "src") in
              let draggedRatio :=
                getImageAspectRatio probe (node_attrs draggedNode !! "src") in
              let targetAttrs :=
                withWidth (node_attrs targetNode)
                          (targetWidthPercent targetRatio draggedRatio) in
              let draggedAttrs :=
                withWidth (node_attrs draggedNode)
                          (draggedWidthPercent targetRatio draggedRatio) in
              let draggedNodeSize := nodeSize draggedNode in
              let targetPosAfterDelete :=
                if draggedPos <? targetPos then targetPos - draggedNodeSize
                else targetPos in
              let insertPos := targetPosAfterDelete + nodeSize targetNode in
              match
                tr ← setNodeMarkup doc targetPos targetAttrs;
                tr ← setNodeMarkup tr draggedPos draggedAttrs;
                tr ← delete tr draggedPos (draggedPos + draggedNodeSize);
                insert tr insertPos (create draggedNode draggedAttrs)
              with
              | Some doc' => Dispatched doc'
              | None => Threw
              end
          end
      end
  end.

(** [handleCustomDrop]: a drop without an id, or of the image on itself,
    is ignored. *)
Definition handleCustomDrop (probe : option Value -> option (Z * Z))
           (imageType : string) (nodeId : option Value) (getPos : option Z)
           (doc : Fragment) (draggedId : option string) : Outcome :=
  match draggedId with
  | None => Aborted
  | Some d =>
      if bool_decide (d = "") || bool_decide (nodeId = Some (VStr d))
      then Aborted
      else mergeImages probe imageType getPos doc d
  end.

End Merge.

(** ** Notions the properties are stated with *)

Module RasterSpec.
Import Raster.

(** A browser to run examples with: every string is a colour, blending
    keeps the source, an image is drawn unscaled and strokes leave the
    pixels as they are. *)
Definition plainBrowser : Browser := {|
  parseColor := fun _ => Some opaqueRed;
  blend := fun src _ => src;
  rasterImage := fun img _ => bm_pixels img;
  rasterStrokeRect := fun cv _ _ _ _ => cv_pixels cv;
  rasterStrokeArc := fun cv _ _ _ => cv_pixels cv;
  rasterStrokePath := fun cv _ => cv_pixels cv
|}.

Definition grey (v : Z) : Pixel := mkPixel v v v 255.

Definition greyImage (w h v : Z) : Bitmap := mkBitmap w h (fun _ _ => grey v).

(** The history cursor invariant. *)
Definition historyInv (st : State) : Prop :=
  -1 <= historyStep st < Z.of_nat (length (history st)).

(** The operations of the engine, as events. *)
Inductive Op :=
| OpMouseDown (p : Point)
| OpMouseMove (p : Point)
| OpMouseUp (p : Point)
| OpRecord (a : DrawAction)
| OpUndo
| OpRedo
| OpCropCompleted (cropped : Bitmap)
| OpImageLoaded (img : Bitmap)
| OpSetTool (t : Tool).

Definition perform `{Browser} (st : State) (op : Op) : State :=
  match op with
  | OpMouseDown p => handleMouseDown st p
  | OpMouseMove p => handleMouseMove st p
  | OpMouseUp p => fst (handleMouseUp st p)
  | OpRecord a => addToHistory st a
  | OpUndo => handleUndo st
  | OpRedo => handleRedo st
  | OpCropCompleted cropped => croppedImage_onload st cropped
  | OpImageLoaded img => img_onload st img
  | OpSetTool t => setTool st t
  end.

(** The part of the state other than the canvas. *)
Definition sameButCanvas (a b : State) : Prop :=
  image a = image b /\ tool a = tool b /\ color a = color b
  /\ lineWidth a = lineWidth b /\ isDrawing a = isDrawing b
  /\ startPoint a = startPoint b /\ currentPath a = currentPath b
  /\ history a = history b /\ historyStep a = historyStep b.

(** Drawing never changes the size of the canvas. *)
Definition sameSize (a b : Canvas) : Prop :=
  cv_width a = cv_width b /\ cv_height a = cv_height b.

(** What a handler leaves alone: the image, the history and its cursor,
    the tool, and the size of the canvas. *)
Definition keeps (a b : State) : Prop :=
  image a = image b /\ history a = history b
  /\ historyStep a = historyStep b /\ tool a = tool b
  /\ color a = color b /\ sameSize (canvas a) (canvas b).







Definition rectA : DrawAction := mkAction Rectangle [mkPoint 0 0; mkPoint 2 2] "#ff0000" (Some 3).
Definition rectB : DrawAction := mkAction Rectangle [mkPoint 1 1; mkPoint 3 3] "#00ff00" (Some 3).
Definition circC : DrawAction := mkAction Circle [mkPoint 2 2; mkPoint 3 3] "#0000ff" (Some 5).
Definition penD : DrawAction := mkAction Pen [mkPoint 0 0; mkPoint 1 2; mkPoint 3 3] "#000000" (Some 1).

(** An editor with a 4 x 4 image loaded. *)
Definition loaded : State := @img_onload plainBrowser initialState (greyImage 4 4 10).

(** ... and three recorded actions. *)
Definition recorded : State := fold_left (@addToHistory plainBrowser) [rectA; rectB; circC] loaded.

End RasterSpec.

Module MergeSpec.
Import Merge.

(** The document as the sequence of tokens its positions index: an opening
    and a closing token around the content of a node, one token for a leaf
    and one per code unit of a text. *)
Inductive Token :=
| TOpen (type : string) (attrs : gmap string Value) (marks : list Mark)
| TClose
| TAtom (n : Node)
| TChar (c : Ascii.ascii) (marks : list Mark).

Fixpoint nodeTokens (n : Node) : list Token :=
  match n with
  | Text c s m => map (fun ch => TChar ch m) (c :: s)
  | Leaf _ _ _ => [TAtom n]
  | Branch t a c m => TOpen t a m :: tokens c ++ [TClose]
  end
with tokens (f : Fragment) : list Token :=
  match f with
  | Empty => []
  | n ::: rest => nodeTokens n ++ tokens rest
  end.

(** [LeafAt f p n]: the leaf [n] starts at position [p] of [f]. *)
Inductive LeafAt : Fragment -> Z -> Node -> Prop :=
| LeafHere t a m rest : LeafAt (Leaf t a m ::: rest) 0 (Leaf t a m)
| LeafLater x rest p n :
    LeafAt rest p n -> LeafAt (x ::: rest) (nodeSize x + p) n
| LeafInside t a c m rest p n :
    LeafAt c p n -> LeafAt (Branch t a c m ::: rest) (1 + p) n.

(** The tokens after the merge: the target leaf at index [tp] is replaced
    by [tn'], the token at index [dp] is removed, and [dn'] is put in
    directly after the target. *)
Definition movedTokens (T : list Token) (tp dp : nat) (tn' dn' : Node) : list Token :=
  let T3 := base.delete dp (<[tp := TAtom tn']> T) in
  let tp' := if (dp <? tp)%nat then (tp - 1)%nat else tp in
  take (S tp') T3 ++ TAtom dn' :: drop (S tp') T3.

(** The plan of a dispatched merge: the lookups succeeded and each of the
    four steps was applied to the result of the one before. *)
Definition fullPlan probe (ty : string) (getPos : option Z) (doc : Fragment)
           (id : string) (doc' : Fragment) : Prop :=
  exists dp dn tp tn d1 d2 d3,
    descendants ty id doc 0 None = Some (dp, dn)
    /\ getPos = Some tp
    /\ nodeAt doc tp = Found tn
    /\ let r_t := getImageAspectRatio probe (node_attrs tn !! "src") in
       let r_d := getImageAspectRatio probe (node_attrs dn !! "src") in
       let draggedAttrs := withWidth (node_attrs dn) (draggedWidthPercent r_t r_d) in
       setNodeMarkup doc tp (withWidth (node_attrs tn) (targetWidthPercent r_t r_d))
       = Some d1
       /\ setNodeMarkup d1 dp draggedAttrs = Some d2
       /\ delete d2 dp (dp + nodeSize dn) = Some d3
       /\ insert d3 ((if dp <? tp then tp - nodeSize dn else tp) + nodeSize tn)
                 (create dn draggedAttrs) = Some doc'.

Definition imageNode (id src : string) : Node :=
  Leaf "image"
       (<["id" := VStr id]> (<["src" := VStr src]> (<["width" := VStr "auto"]> ∅))) [].

(** Two images in a paragraph: a 2:1 landscape [a] at position 1 and a
    square [b] at position 2. *)
Definition twoImages : Fragment :=
  fragment [Branch "paragraph" ∅
              (fragment [imageNode "a" "wide.png"; imageNode "b" "square.png"]) []].

Definition probeExample (src : option Value) : option (Z * Z) :=
  match src with
  | Some (VStr "wide.png") => Some (200, 100)
  | Some (VStr "square.png") => Some (100, 100)
  | _ => None
  end.

End MergeSpec.

(** ** JavaScript strings *)

Module JStr.

(** A string as its UTF-16 code units. *)
Definition JString : Type := list N.

(** An ASCII literal of the source. *)
Definition lit (s : string) : JString :=
  map Ascii.N_of_ascii (String.list_ascii_of_string s).

(** WhiteSpace and LineTerminator of ECMAScript: what [trim] removes and
    what [\s] matches. *)
Definition isWhiteSpace (c : N) : bool :=
  ((9 <=? c) && (c <=? 13) || (c =? 32) || (c =? 160) || (c =? 5760)
   || (8192 <=? c) && (c <=? 8202) || (c =? 8232) || (c =? 8233)
   || (c =? 8239) || (c =? 8287) || (c =? 12288) || (c =? 65279))%N.

Fixpoint trimStart (s : JString) : JString :=
  match s with
  | c :: s' => if isWhiteSpace c then trimStart s' else s
  | [] => []
  end.

Fixpoint trimEnd (s : JString) : JString :=
  match s with
  | c :: s' =>
      match trimEnd s' with
      | [] => if isWhiteSpace c then [] else [c]
      | r => c :: r
      end
  | [] => []
  end.

(** [String.prototype.trim]. *)
Definition trim (s : JString) : JString := trimEnd (trimStart s).

(** A string used as a condition: the empty string is falsy. *)
Definition truthy (s : JString) : bool :=
  match s with [] => false | _ => true end.

(** [a || b] on strings. *)
Definition orString (a b : JString) : JString := if truthy a then a else b.

(** *** The pieces of the regular expressions of the source *)

(** A literal at the head of the input: the input that follows it. *)
Fixpoint literal (l s : JString) : option JString :=
  match l, s with
  | [], _ => Some s
  | a :: l', b :: s' => if (a =? b)%N then literal l' s' else None
  | _ :: _, [] => None
  end.

Fixpoint takeWhile (cls : N -> bool) (s : JString) : JString :=
  match s with
  | c :: s' => if cls c then c :: takeWhile cls s' else []
  | [] => []
  end.

(** A capture group [(c+)] that ends the pattern: the longest run of code
    units of the class, which must not be empty. *)
Definition run1 (cls : N -> bool) (s : JString) : option JString :=
  match takeWhile cls s with
  | [] => None
  | r => Some r
  end.

(** Alternatives are tried in order. *)
Definition orElse {A} (a b : option A) : option A :=
  match a with
  | Some _ => a
  | None => b
  end.

(** [String.prototype.match] with a pattern without the [g] flag: the
    match at the leftmost start position that has one ([at_] is the pattern
    anchored at the head of its input). *)
Fixpoint search {A} (at_ : JString -> option A) (s : JString) : option A :=
  match at_ s with
  | Some r => Some r
  | None =>
      match s with
      | [] => None
      | _ :: s' => search at_ s'
      end
  end.

(** No start position within [pre] has a match, in the input [pre ++ s]. *)
Fixpoint noMatchIn {A} (at_ : JString -> option A) (pre s : JString) : Prop :=
  match pre with
  | [] => True
  | c :: pre' => at_ (c :: pre' ++ s) = None /\ noMatchIn at_ pre' s
  end.

(** Where a run ends: at the end of the input or before a code unit that
    is not of the class. *)
Definition stopsRun (cls : N -> bool) (post : JString) : Prop :=
  match post with
  | [] => True
  | c :: _ => cls c = false
  end.

End JStr.

(** ** Video embeds ([VideoEmbedExtension], [VideoEmbedDialog]) *)

Module Video.
Import JStr.

Inductive Provider := Youtube | Vimeo.

Definition providerName (p : Provider) : JString :=
  match p with
  | Youtube => lit "youtube"
  | Vimeo => lit "vimeo"
  end.

(** The result of [extractVideoInfo]; [None] is [null]. *)
Record VideoInfo := mkVideoInfo {
  provider : option Provider;
  videoId : option JString
}.

(** [[^&\n?#]]. *)
Definition idChar (c : N) : bool :=
  negb ((c =? 38) || (c =? 10) || (c =? 63) || (c =? 35))%N.

(** [\d]. *)
Definition isDigit (c : N) : bool := ((48 <=? c) && (c <=? 57))%N.

(** [/(?:youtube\.com\/watch\?v=|youtu\.be\/|youtube\.com\/embed\/)([^&\n?#]+)/]
    anchored at the head of the input; the result is group 1. *)
Definition youtubeWatch (s : JString) : option JString :=
  orElse (literal (lit "youtube.com/watch?v=") s ≫= run1 idChar)
    (orElse (literal (lit "youtu.be/") s ≫= run1 idChar)
            (literal (lit "youtube.com/embed/") s ≫= run1 idChar)).

(** [/youtube\.com\/shorts\/([^&\n?#]+)/]. *)
Definition youtubeShorts (s : JString) : option JString :=
  literal (lit "youtube.com/shorts/") s ≫= run1 idChar.

(** [/vimeo\.com\/(?:video\/)?(\d+)/]: the optional group is tried first
    with, then without [video/]. *)
Definition vimeoVideo (s : JString) : option JString :=
  rest ← literal (lit "vimeo.com/") s;
  orElse (literal (lit "video/") rest ≫= run1 isDigit) (run1 isDigit rest).

Definition extractVideoInfo (url : JString) : VideoInfo :=
  match search youtubeWatch url with
  | Some id => mkVideoInfo (Some Youtube) (Some id)
  | None =>
      match search youtubeShorts url with
      | Some id => mkVideoInfo (Some Youtube) (Some id)
      | None =>
          match search vimeoVideo url with
          | Some id => mkVideoInfo (Some Vimeo) (Some id)
          | None => mkVideoInfo None None
          end
      end
  end.

Definition sameString (a b : JString) : bool := bool_decide (a = b).

(** [getEmbedUrl] of the node view, on the [provider] and [videoId]
    attributes of the node. *)
Definition getEmbedUrl (provider videoId : JString) : JString :=
  if sameString provider (lit "youtube") then
    lit "https://www.youtube.com/embed/" ++ videoId
  else if sameString provider (lit "vimeo") then
    lit "https://player.vimeo.com/video/" ++ videoId
  else [].

(** [getThumbnailUrl] of the node view. *)
Definition getThumbnailUrl (provider videoId : JString) : JString :=
  if sameString provider (lit "youtube") then
    lit "https://img.youtube.com/vi/" ++ videoId ++ lit "/maxresdefault.jpg"
  else [].

(** The [src] of the iframe that [renderHTML] writes. *)
Definition renderedEmbedUrl (provider videoId : JString) : JString :=
  if sameString provider (lit "youtube") then
    lit "https://www.youtube.com/embed/" ++ videoId
  else lit "https://player.vimeo.com/video/" ++ videoId.

(** *** The dialog *)

(** The messages [setError] is called with. *)
Inductive Message :=
| NoMessage          (* '' *)
| EnterUrl           (* 'URL을 입력해주세요' *)
| UnsupportedVideo.  (* '지원하지 않는 비디오 URL입니다. ...' *)

Record Dialog := mkDialog {
  url : JString;
  error : Message;
  previewUrl : JString
}.

Definition initialDialog : Dialog := mkDialog [] NoMessage [].

(** The calls a handler makes on the props of the dialog. *)
Inductive Call :=
| OnInsert (url : JString) (provider : Provider) (videoId : JString)
| OnOpenChange (open : bool).

Definition handleUrlChange (d : Dialog) (value : JString) : Dialog :=
  let videoInfo := extractVideoInfo value in
  mkDialog value NoMessage
    match provider videoInfo, videoId videoInfo with
    | Some Youtube, Some (c :: id) =>
        lit "https://img.youtube.com/vi/" ++ (c :: id) ++ lit "/maxresdefault.jpg"
    | _, _ => []
    end.

Definition handleInsert (d : Dialog) : Dialog * list Call :=
  if negb (truthy (trim (url d))) then
    (mkDialog (url d) EnterUrl (previewUrl d), [])
  else
    let videoInfo := extractVideoInfo (url d) in
    match provider videoInfo, videoId videoInfo with
    | Some p, Some (c :: id) =>
        (initialDialog, [OnInsert (trim (url d)) p (c :: id); OnOpenChange false])
    | _, _ => (mkDialog (url d) UnsupportedVideo (previewUrl d), [])
    end.

End Video.

(** ** The link dialog ([LinkPreviewDialog]) and the editor's [handleLinkInsert] *)

Module Link.
Import JStr.

Inductive LinkType := TypeLink | TypePreview.

Inductive LayoutType := Horizontal | Vertical | Compact | FullImage.

(** [LinkMetadata], with the fields the editor reads. *)
Record LinkMetadata := mkMetadata {
  title : JString;
  description : option JString;
  image : option JString
}.

Inductive Message :=
| NoMessage     (* '' *)
| EnterUrl      (* 'URL을 입력해주세요' *)
| InvalidUrl.   (* '올바른 URL 형식이 아닙니다' *)

Record Dialog := mkDialog {
  url : JString;
  linkType : LinkType;
  linkText : JString;
  layout : LayoutType;
  metadata : option LinkMetadata;
  isLoading : bool;
  error : Message
}.

Definition initialDialog : Dialog :=
  mkDialog [] TypePreview [] Horizontal None false NoMessage.

Definition setError (d : Dialog) (m : Message) : Dialog :=
  mkDialog (url d) (linkType d) (linkText d) (layout d) (metadata d) (isLoading d) m.

(** The argument of [onInsert]; [None] is [undefined]. *)
Record Insertion := mkInsertion {
  ins_type : LinkType;
  ins_url : JString;
  ins_text : option JString;
  ins_metadata : option LinkMetadata;
  ins_layout : option LayoutType
}.

Inductive Call :=
| OnInsert (data : Insertion)
| OnOpenChange (open : bool).

Section Dialog.

(** [isValidUrl] of [@/shared/lib/linkPreviewApi]. *)
Variable isValidUrl : JString -> bool.

Definition handleInsert (d : Dialog) : Dialog * list Call :=
  if negb (truthy (trim (url d))) then (setError d EnterUrl, [])
  else if negb (isValidUrl (url d)) then (setError d InvalidUrl, [])
  else
    (mkDialog [] TypePreview [] Horizontal None (isLoading d) NoMessage,
     [OnInsert (mkInsertion (linkType d) (trim (url d))
                  (Some (orString (trim (linkText d)) (trim (url d))))
                  (metadata d)
                  (match linkType d with
                   | TypePreview => Some (layout d)
                   | TypeLink => None
                   end));
      OnOpenChange false]).

Definition handleUrlChange (d : Dialog) (value : JString) : Dialog :=
  mkDialog value (linkType d) (linkText d) (layout d) None (isLoading d) NoMessage.

End Dialog.

(** What [handleLinkInsert] asks of the editor. *)
Inductive Command :=
| SetLink (href : JString)
| InsertLinkText (text href : JString)
| InsertLinkPreview (url title description image : JString) (layout : LayoutType).

(** [handleLinkInsert(data)] of the editor, on a selection that is empty
    or not; [None]: no command is run. *)
Definition handleLinkInsert (hasSelection : bool) (data : Insertion) : option Command :=
  match ins_type data with
  | TypeLink =>
      if hasSelection then Some (SetLink (ins_url data))
      else Some (InsertLinkText (orString (default [] (ins_text data)) (ins_url data))
                                (ins_url data))
  | TypePreview =>
      match ins_metadata data with
      | Some m =>
          Some (InsertLinkPreview (ins_url data) (title m)
                  (orString (default [] (description m)) [])
                  (orString (default [] (image m)) [])
                  (default Horizontal (ins_layout data)))
      | None => None
      end
  end.

End Link.

(** ** Upload names ([uploadToR2], [handleImageFileSelect]) *)

Module Upload.
Import JStr.

(** [[^/.]]. *)
Definition extChar (c : N) : bool := negb ((c =? 47) || (c =? 46))%N.

(** [/\.[^/.]+$/] anchored at the head of the input: a dot, then one or
    more code units that are neither a slash nor a dot, up to the end. *)
Definition extensionAt (s : JString) : bool :=
  match s with
  | 46%N :: c :: rest => forallb extChar (c :: rest)
  | _ => false
  end.

(** [name.replace(/\.[^/.]+$/, '.webp')]: the leftmost match is replaced. *)
Fixpoint webpName (name : JString) : JString :=
  if extensionAt name then lit ".webp"
  else
    match name with
    | c :: rest => c :: webpName rest
    | [] => []
    end.

(** [s.split('/')]. *)
Fixpoint splitSlash (cur s : JString) : list JString :=
  match s with
  | [] => [cur]
  | c :: s' =>
      if (c =? 47)%N then cur :: splitSlash [] s'
      else splitSlash (cur ++ [c]) s'
  end.

(** [fileKey ? (fileKey.split('/').pop() || fileKey) : null]. *)
Definition fileNameOfKey (fileKey : JString) : option JString :=
  if truthy fileKey then
    Some (orString (default [] (last (splitSlash [] fileKey))) fileKey)
  else None.

End Upload.

(** ** The thumbnail registry ([CustomImageExtension]) *)

Module Thumbnail.

(** A string or [null] used as a condition. *)
Definition truthy (s : option string) : bool :=
  match s with
  | Some s => negb (bool_decide (s = ""))
  | None => false
  end.

Section Registry.

(** What the listeners act on. A listener does not call back into the
    registry. *)
Context {World : Type}.

Definition Handler : Type := option string -> World -> World.

(** The module-level variables. A [Set] of handlers is the list of its
    members in insertion order; a handler is identified by a number that
    stands for the identity of the function. *)
Record Registry := mkRegistry {
  thumbnailUrl : option string;
  thumbnailKey : option string;
  thumbnailListeners : list (nat * Handler);
  thumbnailKeyListeners : list (nat * Handler);
  urlToKeyMap : gmap string string
}.

Definition emptyRegistry : Registry := mkRegistry None None [] [] ∅.

(** [Set.prototype.add] and [delete]. *)
Definition setAdd (l : list (nat * Handler)) (id : nat) (h : Handler)
  : list (nat * Handler) :=
  if bool_decide (id ∈ l.*1) then l else l ++ [(id, h)].

Definition setDelete (l : list (nat * Handler)) (id : nat) : list (nat * Handler) :=
  filter (fun e => e.1 <> id) l.

(** [listeners.forEach(listener => listener(v))]. *)
Definition notify (l : list (nat * Handler)) (v : option string) (w : World) : World :=
  fold_left (fun w e => e.2 v w) l w.

Definition setUrlToKeyMapping (r : Registry) (url key : string) : Registry :=
  mkRegistry (thumbnailUrl r) (thumbnailKey r) (thumbnailListeners r)
    (thumbnailKeyListeners r) (<[url := key]> (urlToKeyMap r)).

(** [urlToKeyMap.get(url) || null]. *)
Definition getKeyFromUrl (r : Registry) (url : string) : option string :=
  match urlToKeyMap r !! url with
  | Some key => if truthy (Some key) then Some key else None
  | None => None
  end.

Definition setGlobalThumbnailKey (r : Registry) (w : World) (key : option string)
  : Registry * World :=
  (mkRegistry (thumbnailUrl r) key (thumbnailListeners r)
     (thumbnailKeyListeners r) (urlToKeyMap r),
   notify (thumbnailKeyListeners r) key w).

Definition setGlobalThumbnailUrl (r : Registry) (w : World) (url : option string)
  : Registry * World :=
  let r := mkRegistry url (thumbnailKey r) (thumbnailListeners r)
             (thumbnailKeyListeners r) (urlToKeyMap r) in
  let w := notify (thumbnailListeners r) url w in
  match url with
  | Some u =>
      if truthy url then
        match urlToKeyMap r !! u with
        | Some key =>
            if truthy (Some key) then setGlobalThumbnailKey r w (Some key)
            else (r, w)
        | None => (r, w)
        end
      else setGlobalThumbnailKey r w None
  | None => setGlobalThumbnailKey r w None
  end.

Definition getGlobalThumbnailUrl (r : Registry) : option string := thumbnailUrl r.

Definition getGlobalThumbnailKey (r : Registry) : option string := thumbnailKey r.

(** [subscribeThumbnail] and the function it returns. *)
Definition subscribeThumbnail (r : Registry) (id : nat) (h : Handler) : Registry :=
  mkRegistry (thumbnailUrl r) (thumbnailKey r) (setAdd (thumbnailListeners r) id h)
    (thumbnailKeyListeners r) (urlToKeyMap r).

Definition unsubscribeThumbnail (r : Registry) (id : nat) : Registry :=
  mkRegistry (thumbnailUrl r) (thumbnailKey r) (setDelete (thumbnailListeners r) id)
    (thumbnailKeyListeners r) (urlToKeyMap r).

Definition subscribeThumbnailKey (r : Registry) (id : nat) (h : Handler) : Registry :=
  mkRegistry (thumbnailUrl r) (thumbnailKey r) (thumbnailListeners r)
    (setAdd (thumbnailKeyListeners r) id h) (urlToKeyMap r).

Definition unsubscribeThumbnailKey (r : Registry) (id : nat) : Registry :=
  mkRegistry (thumbnailUrl r) (thumbnailKey r) (thumbnailListeners r)
    (setDelete (thumbnailKeyListeners r) id) (urlToKeyMap r).

End Registry.

Arguments Registry : clear implicits.
Arguments Handler : clear implicits.

(** *** The image node views

    Every mounted [CustomImageComponent] holds [currentThumbnail]; its
    state setter is the listener it subscribes. The world of the listeners
    is the state of the mounted views, by view. *)
Definition Views : Type := gmap nat (option string).

(** [setCurrentThumbnail] of view [id]. *)
Definition setCurrentThumbnail (id : nat) : Handler Views :=
  fun v views => <[id := v]> views.

(** Mounting a view: [useState(thumbnailUrl)], then the effect that
    subscribes the setter. *)
Definition mount (r : Registry Views) (views : Views) (id : nat)
  : Registry Views * Views :=
  (subscribeThumbnail r id (setCurrentThumbnail id),
   <[id := thumbnailUrl r]> views).

(** Unmounting it: the clean-up of the effect unsubscribes. *)
Definition unmount (r : Registry Views) (views : Views) (id : nat)
  : Registry Views * Views :=
  (unsubscribeThumbnail r id, base.delete id views).

(** [isThumbnail = currentThumbnail === src] of a mounted view. *)
Definition isThumbnail (views : Views) (id : nat) (src : option string) : bool :=
  bool_decide (views !! id = Some src).

(** [handleSetThumbnail] of a view showing [src]. *)
Definition handleSetThumbnail (r : Registry Views) (views : Views) (src : option string)
  : Registry Views * Views :=
  setGlobalThumbnailUrl r views src.

(** What happens to the registry while the editor is open. *)
Inductive Event :=
| Mount (id : nat)
| Unmount (id : nat)
| SetThumbnail (src : option string)
| SetKey (key : option string)
| MapUrl (url key : string).

Definition step (s : Registry Views * Views) (e : Event) : Registry Views * Views :=
  match e with
  | Mount id => mount s.1 s.2 id
  | Unmount id => unmount s.1 s.2 id
  | SetThumbnail src => handleSetThumbnail s.1 s.2 src
  | SetKey key => setGlobalThumbnailKey s.1 s.2 key
  | MapUrl url key => (setUrlToKeyMapping s.1 url key, s.2)
  end.

(** The listeners are the state setters of views. *)
Definition viewSetters (l : list (nat * Handler Views)) : Prop :=
  forall id h, (id, h) ∈ l -> h = setCurrentThumbnail id.

(** The state the registry and the views are in while the editor runs:
    nobody listens for the key, the listeners are the setters of the
    mounted views, and every mounted view holds the global thumbnail URL. *)
Definition inSync (s : Registry Views * Views) : Prop :=
  thumbnailKeyListeners s.1 = []
  /\ viewSetters (thumbnailListeners s.1)
  /\ (forall id, is_Some (s.2 !! id) -> id ∈ (thumbnailListeners s.1).*1)
  /\ (forall id v, s.2 !! id = Some v -> v = thumbnailUrl s.1).

End Thumbnail.

(** ** The counter of the tool bar ([RichTextEditor]) *)

Module Counter.
Import JStr.

Inductive CountMode := CountChar | CountWord.

(** [text.replace(/\s/g, '').length]. *)
Definition charCount (text : JString) : nat :=
  length (filter (fun c => isWhiteSpace c = false) text).

(** [s.split(/\s+/)]: the pieces between the maximal runs of white space;
    [inSeparator] tells that the code unit before was white space, [cur] is
    the piece being read. White space at the start or at the end gives an
    empty first or last piece. *)
Fixpoint splitSpaces (inSeparator : bool) (cur s : JString) : list JString :=
  match s with
  | [] => [cur]
  | c :: s' =>
      if isWhiteSpace c then
        if inSeparator then splitSpaces true [] s'
        else cur :: splitSpaces true [] s'
      else splitSpaces false (cur ++ [c]) s'
  end.

(** [pieces.filter(w => w.length > 0).length]. *)
Definition pieces (l : list JString) : nat :=
  length (filter (fun w : JString => (0 < length w)%nat) l).

(** [text.trim().split(/\s+/).filter(w => w.length > 0).length]. *)
Definition wordCount (text : JString) : nat :=
  pieces (splitSpaces false [] (trim text)).

(** The number the tool bar shows. *)
Definition shownCount (mode : CountMode) (text : JString) : nat :=
  match mode with
  | CountChar => charCount text
  | CountWord => wordCount text
  end.

(** The words of a text, counted where they start: at a code unit that is
    not white space and that stands first or after white space. *)
Fixpoint wordStarts (afterSpace : bool) (s : JString) : nat :=
  match s with
  | [] => 0
  | c :: s' =>
      if isWhiteSpace c then wordStarts true s'
      else (if afterSpace then 1 else 0) + wordStarts false s'
  end.

End Counter.

(** ** Properties of the raster edit engine *)

Module RasterFacts.
Import Raster RasterSpec.

Section Facts.

Context `{Browser}.

(** *** What the effects and the handlers leave alone *)

Lemma redrawCanvas_frame st : sameButCanvas (redrawCanvas st) st.
Proof. unfold redrawCanvas, sameButCanvas. destruct (image st) eqn:E; cbn; rewrite ?E; tauto. Qed.

Lemma setupCanvas_frame st : sameButCanvas (setupCanvas st) st.
Proof.
  unfold setupCanvas, sameButCanvas, redrawCanvas.
  destruct (image st) eqn:E; [|tauto].
  destruct (fitDims _ _). cbn. rewrite E. cbn. rewrite ?E. tauto.
Qed.

Lemma runEffects_frame st : sameButCanvas (runEffects st) st.
Proof.
  unfold runEffects.
  pose proof (redrawCanvas_frame (setupCanvas st)) as A.
  pose proof (setupCanvas_frame st) as B.
  unfold sameButCanvas in *. intuition congruence.
Qed.

Lemma runEffects_history st : history (runEffects st) = history st.
Proof. apply runEffects_frame. Qed.

Lemma runEffects_historyStep st : historyStep (runEffects st) = historyStep st.
Proof. apply runEffects_frame. Qed.

Lemma runEffects_image st : image (runEffects st) = image st.
Proof. apply runEffects_frame. Qed.

(** Without an image the effects do nothing. *)
Lemma runEffects_no_image st : image st = None -> runEffects st = st.
Proof.
  intros E. unfold runEffects, setupCanvas. rewrite E.
  unfold redrawCanvas. now rewrite E.
Qed.

(** With an image the effects start from a fresh canvas: what the
    canvas held before does not matter. *)
Lemma runEffects_setCanvas st cv :
  image st <> None -> runEffects (setCanvas st cv) = runEffects st.
Proof.
  intros E. unfold runEffects, setupCanvas. cbn.
  destruct (image st); [|congruence].
  destruct (fitDims _ _). reflexivity.
Qed.

Lemma runEffects_is_setCanvas st :
  runEffects st = setCanvas st (canvas (runEffects st)).
Proof.
  unfold runEffects, setupCanvas, redrawCanvas.
  destruct st as [[i|] cv t c lw d sp cp h hs]; cbn; [|reflexivity].
  destruct (fitDims _ _); reflexivity.
Qed.

Lemma runEffects_setHistoryStep st v :
  runEffects (setHistoryStep (runEffects st) v)
  = runEffects (setHistoryStep st v).
Proof.
  destruct (image st) eqn:E.
  - rewrite (runEffects_is_setCanvas st).
    change (setHistoryStep (setCanvas st ?cv) v)
      with (setCanvas (setHistoryStep st v) cv).
    apply runEffects_setCanvas. cbn. congruence.
  - now rewrite (runEffects_no_image st E).
Qed.

Lemma setHistoryStep_same st : setHistoryStep st (historyStep st) = st.
Proof. now destruct st. Qed.

(** *** [Array.prototype.slice] on a history *)

Lemma slice0_take {A} (l : list A) (e : Z) :
  0 <= e -> JS.slice0 l e = take (Z.to_nat e) l.
Proof.
  intros He. unfold JS.slice0.
  destruct (e <? 0) eqn:E; [lia|].
  destruct (Z.min_spec e (Z.of_nat (length l))) as [[? ->]|[? ->]]; [reflexivity|].
  rewrite Nat2Z.id, firstn_all. symmetry. apply firstn_all2. lia.
Qed.

Lemma slice0_all {A} (l : list A) : JS.slice0 l (Z.of_nat (length l)) = l.
Proof. rewrite slice0_take by lia. rewrite Nat2Z.id. apply firstn_all. Qed.

Lemma slice0_length {A} (l : list A) (e : Z) :
  (length (JS.slice0 l e) <= length l)%nat.
Proof. unfold JS.slice0. rewrite length_take. lia. Qed.

(** *** The history operations *)

Lemma addToHistory_history st a :
  history (addToHistory st a)
  = JS.slice0 (history st) (historyStep st + 1) ++ [a].
Proof. unfold addToHistory. now rewrite runEffects_history. Qed.

Lemma addToHistory_historyStep st a :
  historyStep (addToHistory st a)
  = Z.of_nat (length (history (addToHistory st a))) - 1.
Proof.
  rewrite addToHistory_history. unfold addToHistory.
  now rewrite runEffects_historyStep.
Qed.

Lemma handleUndo_history st : history (handleUndo st) = history st.
Proof. unfold handleUndo. destruct (_ <? _); [|reflexivity]. now rewrite runEffects_history. Qed.

Lemma handleRedo_history st : history (handleRedo st) = history st.
Proof. unfold handleRedo. destruct (_ <? _); [|reflexivity]. now rewrite runEffects_history. Qed.

Lemma handleUndo_historyStep st :
  historyStep (handleUndo st)
  = if -1 <? historyStep st then historyStep st - 1 else historyStep st.
Proof. unfold handleUndo. destruct (_ <? _); [|reflexivity]. now rewrite runEffects_historyStep. Qed.

Lemma handleRedo_historyStep st :
  historyStep (handleRedo st)
  = if historyStep st <? Z.of_nat (length (history st)) - 1
    then historyStep st + 1 else historyStep st.
Proof. unfold handleRedo. destruct (_ <? _); [|reflexivity]. now rewrite runEffects_historyStep. Qed.

Lemma iter_redo_at_end st n :
  historyStep st = Z.of_nat (length (history st)) - 1 ->
  Nat.iter n handleRedo st = st.
Proof.
  intros E. induction n as [|n IH]; [reflexivity|].
  change (Nat.iter (S n) handleRedo st) with (handleRedo (Nat.iter n handleRedo st)).
  rewrite IH. unfold handleRedo.
  destruct (_ <? _) eqn:L; [lia|reflexivity].
Qed.

(** C2: recording an action at cursor [s] of history [h], with
    [-1 <= s < length h], leaves the history [h[0..s] ++ [a]] and the
    cursor at its last index; from [[a; b; c]] at cursor 2, two undos
    and the record of [d] give [[a; d]] at cursor 1, and no number of
    redos brings [b] or [c] back. *)
Theorem record_truncates_history :
  (forall st a,
      -1 <= historyStep st < Z.of_nat (length (history st)) ->
      history (addToHistory st a)
      = take (Z.to_nat (historyStep st + 1)) (history st) ++ [a]
      /\ historyStep (addToHistory st a)
         = Z.of_nat (length (history (addToHistory st a))) - 1
      /\ historyStep (addToHistory st a) = historyStep st + 1)
  /\ (forall st a b c d,
         history st = [a; b; c] -> historyStep st = 2 ->
         let undone := handleUndo (handleUndo st) in
         let st' := addToHistory undone d in
         history undone = [a; b; c] /\ historyStep undone = 0
         /\ history st' = [a; d] /\ historyStep st' = 1
         /\ forall n, history (Nat.iter n handleRedo st') = [a; d]
                      /\ historyStep (Nat.iter n handleRedo st') = 1).
Proof.
  split.
  - intros st a Hs.
    rewrite addToHistory_historyStep, addToHistory_history.
    rewrite slice0_take by lia.
    repeat split.
    rewrite length_app, length_take. cbn. lia.
  - intros st a b c d Hh Hs undone st'.
    assert (Hu : history undone = [a; b; c]).
    { unfold undone. now rewrite !handleUndo_history. }
    assert (Hus : historyStep undone = 0).
    { unfold undone. rewrite !handleUndo_historyStep, Hs. reflexivity. }
    assert (Hh' : history st' = [a; d]).
    { unfold st'. rewrite addToHistory_history, Hu, Hus. reflexivity. }
    assert (Hs' : historyStep st' = 1).
    { unfold st' in *. rewrite addToHistory_historyStep, Hh'. reflexivity. }
    repeat split; try assumption.
    all: rewrite iter_redo_at_end; try assumption.
    all: rewrite Hs', Hh'; reflexivity.
Qed.

(** *** The cursor invariant *)

Lemma sameSize_trans a b c : sameSize a b -> sameSize b c -> sameSize a c.
Proof. unfold sameSize. intuition congruence. Qed.

Lemma mosaicBlock_size cv mX mY : sameSize (mosaicBlock cv mX mY) cv.
Proof.
  unfold mosaicBlock, sameSize.
  destruct (getImageData _ _ _ _ _); [|tauto].
  destruct (sumPixels _) as [[[? ?] ?] ?].
  destruct (0 <? _); cbn; tauto.
Qed.

Lemma mosaicRow_size fuel cv mX mY xEnd :
  sameSize (mosaicRow fuel cv mX mY xEnd) cv.
Proof.
  revert cv mX. induction fuel as [|fuel IH]; intros cv mX; cbn; [split; reflexivity|].
  destruct (_ <? _); [|split; reflexivity].
  eapply sameSize_trans; [apply IH|apply mosaicBlock_size].
Qed.

Lemma mosaicRows_size fuel cv mY x0 xEnd yEnd :
  sameSize (mosaicRows fuel cv mY x0 xEnd yEnd) cv.
Proof.
  revert cv mY. induction fuel as [|fuel IH]; intros cv mY; cbn; [split; reflexivity|].
  destruct (_ <? _); [|split; reflexivity].
  eapply sameSize_trans; [apply IH|apply mosaicRow_size].
Qed.

Lemma applyMosaic_size cv pts : sameSize (applyMosaic cv pts) cv.
Proof.
  unfold applyMosaic. destruct pts as [|? [|? ?]]; try (split; reflexivity).
  apply mosaicRows_size.
Qed.

Lemma applyAction_size cv a : sameSize (applyAction cv a) cv.
Proof.
  unfold applyAction.
  set (c := setRound _).
  assert (C : sameSize c cv).
  { unfold c, setStrokeStyle, setFillStyle, setLineWidth, sameSize.
    destruct (parseColor _), (0 <? _); cbn; tauto. }
  clearbody c.
  destruct (act_type a).
  - eapply sameSize_trans; [apply applyMosaic_size|exact C].
  - destruct (act_points a) as [|? [|? ?]]; exact C.
  - destruct (act_points a) as [|? [|? ?]]; exact C.
  - destruct (act_points a) as [|? [|? ?]]; exact C.
Qed.

Lemma redrawCanvas_size st : sameSize (canvas (redrawCanvas st)) (canvas st).
Proof.
  unfold redrawCanvas. destruct (image st); [|split; reflexivity]. cbn.
  assert (G : forall l c, sameSize (fold_left applyAction l c) c).
  { induction l as [|a l IH]; intros c; cbn; [split; reflexivity|].
    eapply sameSize_trans; [apply IH|apply applyAction_size]. }
  eapply sameSize_trans; [apply G|split; reflexivity].
Qed.

Lemma keeps_refl a : keeps a a.
Proof. unfold keeps, sameSize. tauto. Qed.

Lemma keeps_trans a b c : keeps a b -> keeps b c -> keeps a c.
Proof. unfold keeps, sameSize. intuition congruence. Qed.

Lemma handleMouseDown_keeps st p : keeps (handleMouseDown st p) st.
Proof.
  unfold handleMouseDown, keeps, sameSize.
  destruct (tool st) eqn:E; cbn; rewrite ?E; tauto.
Qed.

Lemma handleMouseMove_keeps st p : keeps (handleMouseMove st p) st.
Proof.
  unfold handleMouseMove.
  destruct (isDrawing st); [|apply keeps_refl].
  destruct (startPoint st); [|apply keeps_refl].
  pose proof (redrawCanvas_size st) as [Dw Dh].
  pose proof (redrawCanvas_frame st) as F. unfold sameButCanvas in F.
  destruct F as (Fi & Ft & Fc & Fl & _ & _ & Fp & Fh & Fs).
  unfold previewStyle, dashedRect, setStrokeStyle, setFillStyle, setLineWidth.
  rewrite Ft, Fc, Fl, Fp. unfold keeps, sameSize.
  destruct (tool st), (parseColor (color st)), (0 <? lineWidth st);
    try destruct (currentPath st); cbn; tauto.
Qed.

Lemma moves_keep moves st : keeps (fold_left handleMouseMove moves st) st.
Proof.
  revert st. induction moves as [|m moves IH]; intros st; cbn; [apply keeps_refl|].
  eapply keeps_trans; [apply IH|apply handleMouseMove_keeps].
Qed.

(** A gesture in progress: pointer-down arms it unless the tool is
    [none], and moves do not disarm it. *)
Lemma handleMouseDown_armed st p :
  tool st <> ToolNone ->
  isDrawing (handleMouseDown st p) = true
  /\ startPoint (handleMouseDown st p) = Some p.
Proof. unfold handleMouseDown. destruct (tool st); cbn; tauto. Qed.

Lemma handleMouseMove_armed st p :
  isDrawing (handleMouseMove st p) = isDrawing st
  /\ startPoint (handleMouseMove st p) = startPoint st.
Proof.
  unfold handleMouseMove.
  destruct (isDrawing st) eqn:D; [|tauto].
  destruct (startPoint st) eqn:S; [|tauto].
  pose proof (redrawCanvas_frame st) as F. unfold sameButCanvas in F.
  destruct F as (_ & Ft & _ & _ & Fd & Fs & _).
  rewrite Ft. destruct (tool st); try destruct (currentPath (redrawCanvas st));
    cbn; rewrite Fd, Fs, D, S; tauto.
Qed.

Lemma moves_armed moves st :
  isDrawing (fold_left handleMouseMove moves st) = isDrawing st
  /\ startPoint (fold_left handleMouseMove moves st) = startPoint st.
Proof.
  revert st. induction moves as [|m moves IH]; intros st; cbn; [tauto|].
  destruct (IH (handleMouseMove st m)) as [-> ->].
  apply handleMouseMove_armed.
Qed.

Lemma addToHistory_inv st a : historyInv (addToHistory st a).
Proof.
  unfold historyInv. rewrite addToHistory_historyStep, addToHistory_history.
  rewrite length_app. cbn. lia.
Qed.

Lemma addToHistory_keeps st a :
  image (addToHistory st a) = image st /\ tool (addToHistory st a) = tool st.
Proof.
  unfold addToHistory.
  pose proof (runEffects_frame
    (setHistoryStep (setHistory st (JS.slice0 (history st) (historyStep st + 1) ++ [a]))
       (Z.of_nat (length (JS.slice0 (history st) (historyStep st + 1) ++ [a])) - 1))) as F.
  unfold sameButCanvas in F. cbn in F. tauto.
Qed.

(** Pointer-up either records one action or leaves the history alone. *)
Lemma handleMouseUp_history st p :
  (history (fst (handleMouseUp st p)) = history st
   /\ historyStep (fst (handleMouseUp st p)) = historyStep st)
  \/ exists a,
      history (fst (handleMouseUp st p)) = history (addToHistory (setIsDrawing st false) a)
      /\ historyStep (fst (handleMouseUp st p))
         = historyStep (addToHistory (setIsDrawing st false) a).
Proof.
  unfold handleMouseUp.
  destruct (isDrawing st); [|left; tauto].
  destruct (startPoint st) as [sp|]; [|left; tauto].
  change (tool (setIsDrawing st false)) with (tool st).
  destruct (tool st).
  - left; tauto.
  - destruct (applyCrop _ _ _) as [[[cv cropped]|]|]; left; cbn; tauto.
  - right. eexists. cbn. split; reflexivity.
  - right. eexists. cbn. split; reflexivity.
  - right. eexists. cbn. split; reflexivity.
  - destruct (1 <? _); [right; eexists; cbn; split; reflexivity|left; cbn; tauto].
  - left; tauto.
Qed.

(** C9: the cursor invariant [-1 <= step < length] (for an empty history:
    [step = -1]) holds initially and is preserved by every operation:
    record, undo, redo, crop completion, image load and the pointer
    handlers; so it holds after any sequence of operations. *)
Theorem history_cursor_invariant :
  historyInv initialState
  /\ (forall st op, historyInv st -> historyInv (perform st op))
  /\ (forall ops, historyInv (fold_left perform ops initialState)).
Proof.
  assert (I0 : historyInv initialState) by (unfold historyInv; cbn; lia).
  assert (Step : forall st op, historyInv st -> historyInv (perform st op)).
  { intros st op Hi. unfold historyInv in *. destruct op; cbn [perform].
    - destruct (handleMouseDown_keeps st p) as (_ & -> & -> & _). exact Hi.
    - destruct (handleMouseMove_keeps st p) as (_ & -> & -> & _). exact Hi.
    - destruct (handleMouseUp_history st p) as [[-> ->]|[a [-> ->]]]; [exact Hi|].
      apply addToHistory_inv.
    - apply addToHistory_inv.
    - rewrite handleUndo_history, handleUndo_historyStep.
      destruct (_ <? _) eqn:E; lia.
    - rewrite handleRedo_history, handleRedo_historyStep.
      destruct (_ <? _) eqn:E; lia.
    - unfold croppedImage_onload.
      rewrite runEffects_history, runEffects_historyStep. cbn. lia.
    - unfold img_onload.
      rewrite runEffects_history, runEffects_historyStep. exact Hi.
    - exact Hi. }
  split; [exact I0|split; [exact Step|]].
  intros ops. induction ops as [|op ops IH] using rev_ind; [exact I0|].
  rewrite fold_left_app. cbn [fold_left]. apply Step, IH.
Qed.

(** *** Replay *)

Lemma iter_undo k s :
  Z.of_nat k <= historyStep s + 1 ->
  Nat.iter k handleUndo (runEffects s)
  = runEffects (setHistoryStep s (historyStep s - Z.of_nat k)).
Proof.
  induction k as [|k IH]; intros Hk.
  - cbn [Nat.iter]. now rewrite Z.sub_0_r, setHistoryStep_same.
  - change (Nat.iter (S k) handleUndo (runEffects s))
      with (handleUndo (Nat.iter k handleUndo (runEffects s))).
    rewrite IH by lia. unfold handleUndo.
    rewrite runEffects_historyStep. cbn [historyStep setHistoryStep].
    destruct (_ <? _) eqn:E; [|lia].
    rewrite runEffects_setHistoryStep. f_equal.
    unfold setHistoryStep. cbn. f_equal. lia.
Qed.

Lemma iter_redo k s :
  historyStep s + Z.of_nat k <= Z.of_nat (length (history s)) - 1 ->
  Nat.iter k handleRedo (runEffects s)
  = runEffects (setHistoryStep s (historyStep s + Z.of_nat k)).
Proof.
  induction k as [|k IH]; intros Hk.
  - cbn [Nat.iter]. now rewrite Z.add_0_r, setHistoryStep_same.
  - change (Nat.iter (S k) handleRedo (runEffects s))
      with (handleRedo (Nat.iter k handleRedo (runEffects s))).
    rewrite IH by lia. unfold handleRedo.
    rewrite runEffects_historyStep, runEffects_history.
    cbn [historyStep history setHistoryStep].
    destruct (_ <? _) eqn:E; [|lia].
    rewrite runEffects_setHistoryStep. f_equal.
    unfold setHistoryStep. cbn. f_equal. lia.
Qed.

(** After [acts] have been recorded, the active prefix holds at least
    that many actions. *)
Lemma recorded_prefix acts st :
  let st' := fold_left addToHistory acts st in
  (length acts <= length (JS.slice0 (history st') (historyStep st' + 1)))%nat.
Proof.
  induction acts as [|a acts IH] using rev_ind; cbn; [lia|].
  rewrite fold_left_app. cbn.
  rewrite addToHistory_historyStep, addToHistory_history.
  replace (Z.of_nat (length (JS.slice0 _ _ ++ [a])) - 1 + 1)
    with (Z.of_nat (length (JS.slice0 (history (fold_left addToHistory acts st))
            (historyStep (fold_left addToHistory acts st) + 1) ++ [a]))) by lia.
  rewrite slice0_all, !length_app. cbn in *. lia.
Qed.

(** C1: after any sequence of N recorded actions, N undos followed by N
    redos give back the very state reached after the last record: the
    same history and cursor and, pixel for pixel, the same canvas (each
    cursor change re-renders from the base image). *)
Theorem undo_redo_replays (st : State) (acts : list DrawAction) :
  let st' := fold_left addToHistory acts st in
  let n := length acts in
  Nat.iter n handleRedo (Nat.iter n handleUndo st') = st'
  /\ canvas (Nat.iter n handleRedo (Nat.iter n handleUndo st')) = canvas st'.
Proof.
  intros st' n.
  assert (E : Nat.iter n handleRedo (Nat.iter n handleUndo st') = st');
    [|split; [exact E|now rewrite E]].
  unfold st', n. destruct acts as [|a acts _] using rev_ind; [reflexivity|].
  rewrite fold_left_app. cbn [fold_left].
  set (p := fold_left addToHistory acts st).
  pose proof (recorded_prefix acts st) as L. cbn in L. fold p in L.
  unfold addToHistory.
  set (h := JS.slice0 (history p) (historyStep p + 1) ++ [a]).
  set (s0 := setHistoryStep (setHistory p h) (Z.of_nat (length h) - 1)).
  assert (Hlen : (length (acts ++ [a]) <= length h)%nat).
  { unfold h. rewrite !length_app. cbn. lia. }
  rewrite iter_undo by (cbn; lia).
  rewrite iter_redo by (cbn; lia).
  f_equal. subst s0. unfold setHistoryStep. cbn. f_equal. lia.
Qed.

(** *** Gestures *)

(** C10: a complete gesture with the eraser tool records nothing: the
    history, its cursor and the base image are as before, and no image
    replacement is started. *)
Theorem eraser_gesture_is_noop (st : State) (down up : Point) (moves : list Point) :
  tool st = ToolEraser ->
  history (fst (gesture st down moves up)) = history st
  /\ historyStep (fst (gesture st down moves up)) = historyStep st
  /\ image (fst (gesture st down moves up)) = image st
  /\ snd (gesture st down moves up) = None.
Proof.
  intros Ht. unfold gesture.
  set (st1 := handleMouseDown st down).
  set (st2 := fold_left handleMouseMove moves st1).
  assert (K : keeps st2 st).
  { eapply keeps_trans; [apply moves_keep|apply handleMouseDown_keeps]. }
  destruct K as (Ki & Kh & Ks & Kt & _).
  unfold handleMouseUp.
  destruct (isDrawing st2), (startPoint st2); cbn [fst snd]; try tauto.
  change (tool (setIsDrawing st2 false)) with (tool st2).
  rewrite Kt, Ht. cbn. tauto.
Qed.

(** A mosaic over a region without width or height paints nothing. *)
Lemma mosaicRows_no_width fuel cv mY x0 yEnd :
  mosaicRows fuel cv mY x0 x0 yEnd = cv.
Proof.
  revert mY. induction fuel as [|fuel IH]; intros mY; cbn; [reflexivity|].
  destruct (_ <? _); [|reflexivity].
  rewrite Z.sub_diag. cbn. apply IH.
Qed.

Lemma applyMosaic_degenerate cv a b :
  pt_x a = pt_x b \/ pt_y a = pt_y b -> applyMosaic cv [a; b] = cv.
Proof.
  intros D. unfold applyMosaic.
  destruct (Z.eq_dec (pt_y a) (pt_y b)) as [Ey|Ny].
  - rewrite Ey, Z.sub_diag. reflexivity.
  - assert (Ex : pt_x a = pt_x b) by tauto.
    rewrite Ex, Z.sub_diag. cbn [Z.abs]. rewrite Z.add_0_r.
    apply mosaicRows_no_width.
Qed.

(** C4, as the code has it: after a gesture over a region without width
    or height, a crop leaves the base image, the size of the canvas and
    the history as they were and starts no image replacement; a mosaic
    gesture does record a mosaic action over [[start; end]] (the history
    is truncated to the cursor and extended, the cursor moves to it),
    an action that paints nothing when rendered. *)
Theorem degenerate_gesture (st : State) (down up : Point) (moves : list Point) :
  pt_x down = pt_x up \/ pt_y down = pt_y up ->
  let r := gesture st down moves up in
  (tool st = ToolCrop ->
     image (fst r) = image st
     /\ cv_width (canvas (fst r)) = cv_width (canvas st)
     /\ cv_height (canvas (fst r)) = cv_height (canvas st)
     /\ history (fst r) = history st
     /\ historyStep (fst r) = historyStep st
     /\ snd r = None)
  /\ (tool st = ToolMosaic ->
        history (fst r)
        = JS.slice0 (history st) (historyStep st + 1)
            ++ [mkAction Mosaic [down; up] (color st) None]
        /\ historyStep (fst r) = Z.of_nat (length (history (fst r))) - 1
        /\ forall cv, applyMosaic cv [down; up] = cv).
Proof.
  intros D r. unfold r, gesture.
  set (st1 := handleMouseDown st down).
  set (st2 := fold_left handleMouseMove moves st1).
  assert (K : keeps st2 st).
  { eapply keeps_trans; [apply moves_keep|apply handleMouseDown_keeps]. }
  destruct K as (Ki & Kh & Ks & Kt & Kc & Kw & Khh).
  assert (A : tool st <> ToolNone -> isDrawing st2 = true /\ startPoint st2 = Some down).
  { intros Hn. unfold st2. destruct (moves_armed moves st1) as [-> ->].
    now apply handleMouseDown_armed. }
  split; intros Ht.
  - destruct A as [Ad As]; [congruence|].
    unfold handleMouseUp. rewrite Ad, As.
    change (tool (setIsDrawing st2 false)) with (tool st2). rewrite Kt, Ht.
    unfold applyCrop. cbn [image setIsDrawing canvas].
    destruct (image st2) eqn:Ei; cbn [fst snd].
    + unfold getImageData.
      replace ((Z.abs (pt_x up - pt_x down) =? 0) || (Z.abs (pt_y up - pt_y down) =? 0))
        with true; [cbn; rewrite Ei; tauto|].
      symmetry. apply orb_true_iff. rewrite !Z.eqb_eq. lia.
    + cbn. rewrite Ei. tauto.
  - destruct A as [Ad As]; [congruence|].
    unfold handleMouseUp. rewrite Ad, As.
    change (tool (setIsDrawing st2 false)) with (tool st2). rewrite Kt, Ht.
    cbn [fst snd setCurrentPath setStartPoint history historyStep].
    rewrite addToHistory_historyStep, addToHistory_history.
    cbn [history historyStep setIsDrawing color].
    rewrite Kh, Ks, Kc. repeat split.
    intros cv. now apply applyMosaic_degenerate.
Qed.

(** C5, on the code: the completion of a crop empties the history and
    puts the cursor at -1, whatever they were; the completion of an image
    load (from the file or URL prop, or from the file input) sets the
    image only and keeps the history and the cursor. After one recorded
    rectangle, choosing another file leaves that rectangle in the
    history, active, over the new image. *)
Theorem image_load_keeps_history :
  (forall st cropped,
      history (croppedImage_onload st cropped) = []
      /\ historyStep (croppedImage_onload st cropped) = -1)
  /\ (forall st img,
         history (img_onload st img) = history st
         /\ historyStep (img_onload st img) = historyStep st
         /\ image (img_onload st img) = Some img)
  /\ (let rect := mkAction Rectangle [mkPoint 1 1; mkPoint 3 3] "#ff0000" (Some 3) in
      let st1 := addToHistory (img_onload initialState (greyImage 4 4 10)) rect in
      let st2 := handleFileChange st1 (Some (greyImage 2 2 200)) in
      history st2 = [rect] /\ historyStep st2 = 0
      /\ image st2 = Some (greyImage 2 2 200)).
Proof.
  assert (L : forall st img,
             history (img_onload st img) = history st
             /\ historyStep (img_onload st img) = historyStep st
             /\ image (img_onload st img) = Some img).
  { intros st img. unfold img_onload.
    now rewrite runEffects_history, runEffects_historyStep, runEffects_image. }
  split; [|split; [exact L|]].
  - intros st cropped. unfold croppedImage_onload.
    now rewrite runEffects_history, runEffects_historyStep.
  - cbn zeta. unfold handleFileChange.
    destruct (L (addToHistory (img_onload initialState (greyImage 4 4 10))
                   (mkAction Rectangle [mkPoint 1 1; mkPoint 3 3] "#ff0000" (Some 3)))
                (greyImage 2 2 200)) as (-> & -> & ->).
    rewrite addToHistory_historyStep, addToHistory_history.
    destruct (L initialState (greyImage 4 4 10)) as (-> & -> & _).
    cbn. tauto.
Qed.

End Facts.

(** *** The mosaic renderer *)

Section Mosaic.

Context `{Browser}.
















End Mosaic.

(** *** Concrete runs *)

Lemma record_truncates_history_witness :
  history (@addToHistory plainBrowser (@handleUndo plainBrowser recorded) penD)
  = [rectA; rectB; penD]
  /\ history (@addToHistory plainBrowser
                (@handleUndo plainBrowser (@handleUndo plainBrowser recorded)) penD)
     = [rectA; penD].
Proof.
  split.
  - apply (proj1 (@record_truncates_history plainBrowser)
             (@handleUndo plainBrowser recorded) penD).
    vm_compute. split; [intros E; discriminate E|reflexivity].
  - apply (proj2 (@record_truncates_history plainBrowser)
             recorded rectA rectB circC penD); reflexivity.
Defined.

Lemma history_cursor_invariant_witness :
  historyInv (@perform plainBrowser recorded OpUndo).
Proof.
  apply (proj1 (proj2 (@history_cursor_invariant plainBrowser)) recorded OpUndo).
  vm_compute. split; [intros E; discriminate E|reflexivity].
Defined.

Lemma eraser_gesture_is_noop_witness :
  history (fst (@gesture plainBrowser (setTool recorded ToolEraser)
                  (mkPoint 0 0) [mkPoint 1 1; mkPoint 2 2] (mkPoint 3 3)))
  = [rectA; rectB; circC].
Proof.
  apply (@eraser_gesture_is_noop plainBrowser (setTool recorded ToolEraser)
           (mkPoint 0 0) (mkPoint 3 3) [mkPoint 1 1; mkPoint 2 2]).
  reflexivity.
Defined.

Lemma degenerate_gesture_witness :
  snd (@gesture plainBrowser (setTool recorded ToolCrop)
         (mkPoint 1 1) [mkPoint 1 2] (mkPoint 1 3)) = None
  /\ historyStep (fst (@gesture plainBrowser (setTool recorded ToolMosaic)
                         (mkPoint 2 2) [] (mkPoint 2 2))) = 3.
Proof.
  split.
  - apply (proj1 (@degenerate_gesture plainBrowser (setTool recorded ToolCrop)
                    (mkPoint 1 1) (mkPoint 1 3) [mkPoint 1 2]
                    (or_introl eq_refl))).
    reflexivity.
  - refine (eq_trans
              (proj1 (proj2 (proj2 (@degenerate_gesture plainBrowser
                 (setTool recorded ToolMosaic) (mkPoint 2 2) (mkPoint 2 2) []
                 (or_introl eq_refl)) eq_refl))) _).
    reflexivity.
Defined.

(** C4 as stated fails for the mosaic tool: a click without movement
    ([start = end]) on an editor with an empty history records an action,
    so the history grows from 0 to 1 entries and the cursor moves from
    -1 to 0. *)
Lemma degenerate_mosaic_is_recorded :
  let st := setTool loaded ToolMosaic in
  let st' := fst (@gesture plainBrowser st (mkPoint 2 2) [] (mkPoint 2 2)) in
  tool st = ToolMosaic
  /\ history st = [] /\ historyStep st = -1
  /\ history st' = [mkAction Mosaic [mkPoint 2 2; mkPoint 2 2] "#ff0000" None]
  /\ historyStep st' = 0.
Proof. vm_compute. repeat split. Qed.


End RasterFacts.

(** ** Properties of the merge planner *)

Module MergeFacts.
Import Merge MergeSpec.

(** Induction over a fragment and the contents of its nodes. *)
Lemma fragment_induction (Q : Fragment -> Prop) :
  Q Empty ->
  (forall n rest, Q (node_content n) -> Q rest -> Q (n ::: rest)) ->
  forall f, Q f.
Proof.
  intros Q0 Qc.
  refine (fix go (f : Fragment) : Q f :=
            match f with
            | Empty => Q0
            | n ::: rest =>
                Qc n rest
                   (match n return Q (node_content n) with
                    | Branch _ _ c _ => go c
                    | _ => Q0
                    end)
                   (go rest)
            end).
Qed.

Lemma fragmentSize_nonneg f : 0 <= fragmentSize f.
Proof.
  induction f as [|n rest Hc Hr] using fragment_induction; cbn; [lia|].
  destruct n; cbn in *; lia.
Qed.

Lemma nodeSize_pos n : 1 <= nodeSize n.
Proof. destruct n; cbn; [lia|lia|]. pose proof (fragmentSize_nonneg content). lia. Qed.

Lemma length_tokens f : Z.of_nat (length (tokens f)) = fragmentSize f.
Proof.
  induction f as [|n rest Hc Hr] using fragment_induction; [reflexivity|].
  cbn [tokens fragmentSize]. rewrite length_app, Nat2Z.inj_add, Hr. f_equal.
  destruct n; cbn [nodeTokens nodeSize node_content] in *.
  - rewrite length_map. cbn [length]. lia.
  - reflexivity.
  - cbn [length]. rewrite length_app. cbn [length]. lia.
Qed.

Lemma length_nodeTokens n : Z.of_nat (length (nodeTokens n)) = nodeSize n.
Proof.
  pose proof (length_tokens (n ::: Empty)) as L.
  cbn [tokens fragmentSize] in L. rewrite app_nil_r in L. lia.
Qed.

Lemma LeafAt_range f p n : LeafAt f p n -> 0 <= p /\ p + 1 <= fragmentSize f.
Proof.
  induction 1 as [t a m rest|x rest p n _ IH|t a c m rest p n _ IH]; cbn [fragmentSize nodeSize].
  - pose proof (fragmentSize_nonneg rest). lia.
  - pose proof (nodeSize_pos x). lia.
  - pose proof (fragmentSize_nonneg rest). lia.
Qed.

Lemma LeafAt_is_leaf f p n : LeafAt f p n -> exists t a m, n = Leaf t a m.
Proof. induction 1; eauto. Qed.

(** [nodeAt] finds exactly the leaves that start at a position. *)
Lemma nodeAt_LeafAt f p t a m :
  nodeAt f p = Found (Leaf t a m) -> LeafAt f p (Leaf t a m).
Proof.
  revert p. induction f as [|n rest Hc Hr] using fragment_induction; intros p; cbn [nodeAt].
  - destruct (p =? 0); discriminate.
  - destruct (Z.ltb_spec p 0); [discriminate|].
    destruct (Z.eqb_spec p 0) as [->|Hp].
    + intros [= ->]. constructor.
    + destruct (Z.ltb_spec p (nodeSize n)) as [Hlt|Hge].
      * destruct n; cbn [node_content nodeSize] in *.
        -- discriminate.
        -- lia.
        -- intros E. replace p with (1 + (p - 1)) by lia. constructor. now apply Hc.
      * intros E. replace p with (nodeSize n + (p - nodeSize n)) by lia.
        constructor. now apply Hr.
Qed.

Lemma LeafAt_nodeAt f p n : LeafAt f p n -> nodeAt f p = Found n.
Proof.
  induction 1 as [t a m rest|x rest p n L IH|t a c m rest p n L IH]; cbn [nodeAt].
  - reflexivity.
  - pose proof (nodeSize_pos x). pose proof (LeafAt_range _ _ _ L) as [? ?].
    destruct (Z.ltb_spec (nodeSize x + p) 0); [lia|].
    destruct (Z.eqb_spec (nodeSize x + p) 0); [lia|].
    destruct (Z.ltb_spec (nodeSize x + p) (nodeSize x)); [lia|].
    now replace (nodeSize x + p - nodeSize x) with p by lia.
  - pose proof (LeafAt_range _ _ _ L) as [? ?].
    destruct (Z.ltb_spec (1 + p) 0); [lia|].
    destruct (Z.eqb_spec (1 + p) 0); [lia|].
    cbn [nodeSize].
    destruct (Z.ltb_spec (1 + p) (2 + fragmentSize c)); [|lia].
    now replace (1 + p - 1) with p by lia.
Qed.

(** A leaf at a position is the token at that index, and conversely. *)
Lemma LeafAt_tokens f p n :
  LeafAt f p n -> tokens f !! Z.to_nat p = Some (TAtom n).
Proof.
  induction 1 as [t a m rest|x rest p n L IH|t a c m rest p n L IH]; cbn [tokens nodeTokens].
  - reflexivity.
  - pose proof (LeafAt_range _ _ _ L) as [? ?]. pose proof (length_nodeTokens x).
    rewrite lookup_app_r by lia.
    now replace (Z.to_nat (nodeSize x + p) - length (nodeTokens x))%nat
      with (Z.to_nat p) by lia.
  - pose proof (LeafAt_range _ _ _ L) as [? ?]. pose proof (length_tokens c).
    replace (Z.to_nat (1 + p)) with (S (Z.to_nat p)) by lia.
    cbn [app]. rewrite lookup_cons_ne_0 by lia. cbn [Nat.pred].
    rewrite <- app_assoc, lookup_app_l by lia. exact IH.
Qed.

Lemma tokens_LeafAt f i n :
  tokens f !! i = Some (TAtom n) -> LeafAt f (Z.of_nat i) n.
Proof.
  revert i. induction f as [|x rest Hc Hr] using fragment_induction; intros i; cbn [tokens].
  - discriminate.
  - pose proof (length_nodeTokens x) as Lx.
    destruct (Nat.lt_ge_cases i (length (nodeTokens x))) as [Hi|Hi].
    + rewrite lookup_app_l by lia.
      destruct x; cbn [nodeTokens node_content] in *.
      * intros E. apply list_lookup_fmap_Some in E as (? & ? & ?). discriminate.
      * destruct i; [|cbn in Hi; lia]. intros [= <-]. constructor.
      * destruct i as [|i]; [discriminate|].
        rewrite lookup_cons_ne_0 by lia. cbn [Nat.pred].
        cbn [length] in Hi. rewrite length_app in Hi. cbn [length] in Hi.
        destruct (Nat.lt_ge_cases i (length (tokens content))) as [Hj|Hj].
        -- rewrite lookup_app_l by lia. intros E.
           replace (Z.of_nat (S i)) with (1 + Z.of_nat i) by lia.
           constructor. now apply Hc.
        -- rewrite lookup_app_r by lia.
           replace (i - length (tokens content))%nat with 0%nat by lia. discriminate.
    + rewrite lookup_app_r by lia. intros E.
      replace (Z.of_nat i) with (nodeSize x + Z.of_nat (i - length (nodeTokens x))) by lia.
      constructor. now apply Hr.
Qed.

(** Two comparisons that agree by linear arithmetic. *)
Ltac same_cmp :=
  repeat lazymatch goal with
         | |- context [Z.ltb ?u ?v] => destruct (Z.ltb_spec0 u v)
         end;
  first [reflexivity | lia].

(** *** Edits on the token sequence *)

Lemma tokens_concat a b : tokens (concat a b) = tokens a ++ tokens b.
Proof. induction a as [|n a IH]; cbn [concat tokens]; [reflexivity|]. now rewrite IH, app_assoc. Qed.

Lemma tokens_mkText s m : tokens (mkText s m) = map (fun ch => TChar ch m) s.
Proof. destruct s; cbn; [reflexivity|]. now rewrite app_nil_r. Qed.

Lemma tokens_cons n rest : tokens (n ::: rest) = nodeTokens n ++ tokens rest.
Proof. reflexivity. Qed.

Lemma tokens_single n : tokens (n ::: Empty) = nodeTokens n.
Proof. cbn [tokens]. apply app_nil_r. Qed.

(** Joining two texts at the seam does not change the tokens. *)
Lemma tokens_append a b : tokens (append a b) = tokens a ++ tokens b.
Proof.
  induction a as [|n a IH]; [reflexivity|].
  destruct a as [|n' a'].
  - rewrite tokens_single.
    destruct n as [c s m|t a m|t a cc m]; cbn [append]; try apply tokens_cons.
    destruct b as [|[c' s' m'|t' a' m'|t' a' cc' m'] b']; try apply tokens_cons.
    destruct (decide (m = m')) as [->|]; [|apply tokens_cons].
    rewrite !tokens_cons. cbn [nodeTokens].
    change (c :: s ++ c' :: s') with ((c :: s) ++ (c' :: s')).
    now rewrite map_app, <- app_assoc.
  - change (append (n ::: n' ::: a') b) with (n ::: append (n' ::: a') b).
    rewrite !tokens_cons, IH, tokens_cons. now rewrite !app_assoc.
Qed.

Lemma tokens_addNodes target f :
  tokens (addNodes target f) = tokens target ++ tokens f.
Proof.
  revert target. induction f as [|n f IH]; intros target; cbn [addNodes tokens].
  - now rewrite app_nil_r.
  - rewrite IH. unfold addNode. rewrite tokens_append, tokens_single.
    now rewrite <- app_assoc.
Qed.

Lemma cutBefore_0 f : cutBefore f 0 = Some Empty.
Proof. now destruct f. Qed.

Lemma cutAfter_0 f : cutAfter f 0 = Some f.
Proof. now destruct f. Qed.

Lemma cutBefore_tokens f p a :
  cutBefore f p = Some a ->
  0 <= p <= fragmentSize f /\ tokens a = take (Z.to_nat p) (tokens f).
Proof.
  revert p a. induction f as [|n rest IH]; intros p a.
  - cbn [cutBefore]. destruct (Z.eqb_spec p 0) as [->|]; [|discriminate].
    intros [= <-]. cbn. split; [lia|reflexivity].
  - cbn [cutBefore]. destruct (Z.eqb_spec p 0) as [->|Hp].
    { intros [= <-]. pose proof (fragmentSize_nonneg (n ::: rest)). split; [lia|reflexivity]. }
    destruct (Z.ltb_spec p 0); [discriminate|].
    pose proof (length_nodeTokens n) as Ln. pose proof (fragmentSize_nonneg rest).
    destruct (Z.leb_spec (nodeSize n) p) as [Hle|Hgt].
    + destruct (cutBefore rest (p - nodeSize n)) as [a'|] eqn:E; [|discriminate].
      intros [= <-]. destruct (IH _ _ E) as [Hr Ht].
      cbn [tokens fragmentSize]. split; [lia|].
      rewrite take_app_ge by lia. rewrite Ht. do 2 f_equal. lia.
    + destruct n as [c s m| |]; try discriminate.
      intros [= <-]. cbn [tokens fragmentSize]. split; [lia|].
      rewrite tokens_mkText, take_app_le by lia.
      cbn [nodeTokens]. now rewrite <- fmap_take.
Qed.

Lemma cutAfter_tokens f p b :
  cutAfter f p = Some b ->
  0 <= p <= fragmentSize f /\ tokens b = drop (Z.to_nat p) (tokens f).
Proof.
  revert p b. induction f as [|n rest IH]; intros p b.
  - cbn [cutAfter]. destruct (Z.eqb_spec p 0) as [->|]; [|discriminate].
    intros [= <-]. cbn. split; [lia|reflexivity].
  - cbn [cutAfter]. destruct (Z.ltb_spec p 0); [discriminate|].
    pose proof (length_nodeTokens n) as Ln. pose proof (fragmentSize_nonneg rest).
    pose proof (nodeSize_pos n).
    destruct (Z.eqb_spec p 0) as [->|Hp].
    { intros [= <-]. cbn [fragmentSize]. split; [lia|reflexivity]. }
    destruct (Z.leb_spec (nodeSize n) p) as [Hle|Hgt].
    + intros E. destruct (IH _ _ E) as [Hr Ht].
      cbn [tokens fragmentSize]. split; [lia|].
      rewrite drop_app_ge by lia. rewrite Ht. f_equal. lia.
    + destruct n as [c s m| |]; try discriminate.
      intros [= <-]. cbn [tokens fragmentSize]. split; [lia|].
      rewrite tokens_concat, tokens_mkText, drop_app_le by lia.
      cbn [nodeTokens]. now rewrite <- fmap_drop.
Qed.

Lemma replaceFlat_Some f from to ins :
  (exists f', replaceFlat f from to ins = Some f')
  <-> from <= to /\ (exists a, cutBefore f from = Some a)
      /\ (exists b, cutAfter f to = Some b).
Proof.
  unfold replaceFlat. destruct (Z.ltb_spec to from); split.
  - intros [? [=]].
  - lia.
  - destruct (cutBefore f from), (cutAfter f to); try (intros [? [=]]); eauto.
  - intros (_ & [a ->] & [b ->]). destruct ins; eauto.
Qed.

Lemma replaceFlat_tokens f from to ins f' :
  replaceFlat f from to ins = Some f' ->
  tokens f' = take (Z.to_nat from) (tokens f) ++ tokens ins
                ++ drop (Z.to_nat to) (tokens f).
Proof.
  unfold replaceFlat. destruct (to <? from); [discriminate|].
  destruct (cutBefore f from) as [a|] eqn:Ea; [|discriminate].
  destruct (cutAfter f to) as [b|] eqn:Eb; [|discriminate].
  apply cutBefore_tokens in Ea as [_ <-]. apply cutAfter_tokens in Eb as [_ <-].
  destruct ins as [|i ins]; intros [= <-].
  - now rewrite !tokens_addNodes.
  - now rewrite !tokens_append, <- app_assoc.
Qed.

(** *** The descent *)

Lemma replaceRange_unfold f from to ins :
  replaceRange f from to ins
  = match descend (fun cc a b => replaceRange cc a b ins) f 0 from to with
    | Some r => r
    | None => replaceFlat f from to ins
    end.
Proof. destruct f; reflexivity. Qed.

Lemma descend_shift rec cs off k from to :
  descend rec cs (off + k) (from + k) (to + k) = descend rec cs off from to.
Proof.
  revert off. induction cs as [|c cs IH]; intros off; cbn [descend]; [reflexivity|].
  replace (off + k + nodeSize c) with (off + nodeSize c + k) by lia.
  rewrite IH.
  replace (off + k <? from + k) with (off <? from) by same_cmp.
  replace (to + k <? off + nodeSize c + k) with (to <? off + nodeSize c) by same_cmp.
  replace (from + k - (off + k) - 1) with (from - off - 1) by lia.
  replace (to + k - (off + k) - 1) with (to - off - 1) by lia.
  reflexivity.
Qed.

Lemma descend_before rec cs off from to :
  from <= off -> descend rec cs off from to = None.
Proof.
  revert off. induction cs as [|c cs IH]; intros off Hle; cbn [descend]; [reflexivity|].
  pose proof (nodeSize_pos c).
  rewrite IH by lia.
  destruct (Z.ltb_spec off from); [lia|]. cbn [andb].
  destruct c; reflexivity.
Qed.

(** A replacement whose ends are at a leaf (directly before or after it)
    succeeds and splices the tokens. *)
Lemma replace_at_leaf f p n ins d1 d2 :
  LeafAt f p n -> 0 <= d1 <= d2 -> d2 <= 1 ->
  exists f',
    replaceRange f (p + d1) (p + d2) ins = Some f'
    /\ tokens f' = take (Z.to_nat (p + d1)) (tokens f) ++ tokens ins
                     ++ drop (Z.to_nat (p + d2)) (tokens f).
Proof.
  intros L Hd1 Hd2.
  assert (Flat : forall g from to,
             descend (fun cc a b => replaceRange cc a b ins) g 0 from to = None ->
             from <= to ->
             (exists a, cutBefore g from = Some a) ->
             (exists b, cutAfter g to = Some b) ->
             exists g',
               replaceRange g from to ins = Some g'
               /\ tokens g' = take (Z.to_nat from) (tokens g) ++ tokens ins
                                ++ drop (Z.to_nat to) (tokens g)).
  { intros g from to D Hle Ha Hb.
    destruct (proj2 (replaceFlat_Some g from to ins)) as [g' Eg]; [tauto|].
    exists g'. rewrite replaceRange_unfold, D. split; [exact Eg|].
    now apply replaceFlat_tokens. }
  induction L as [t a m rest|x rest p n L IH|t a c m rest p n L IH].
  - apply Flat.
    + cbn [descend]. change (0 + nodeSize (Leaf t a m)) with 1.
      rewrite descend_before by lia. reflexivity.
    + lia.
    + assert (d1 = 0 \/ d1 = 1) as [->| ->] by lia; cbn; [eauto|].
      rewrite cutBefore_0. cbn. eauto.
    + assert (d2 = 0 \/ d2 = 1) as [->| ->] by lia; cbn; [eauto|].
      rewrite cutAfter_0. eauto.
  - pose proof (nodeSize_pos x) as Hx. pose proof (LeafAt_range _ _ _ L) as [Hp0 Hp1].
    pose proof (length_nodeTokens x) as Lx.
    destruct IH as (r' & Er & Tr).
    assert (D : descend (fun cc a b => replaceRange cc a b ins) (x ::: rest) 0
                        (nodeSize x + p + d1) (nodeSize x + p + d2)
                = option_map (option_map (Cons x))
                    (descend (fun cc a b => replaceRange cc a b ins) rest 0
                             (p + d1) (p + d2))).
    { cbn [descend].
      replace (descend _ rest (0 + nodeSize x) (nodeSize x + p + d1) (nodeSize x + p + d2))
        with (descend (fun cc a b => replaceRange cc a b ins) rest
                      (0 + nodeSize x) (p + d1 + nodeSize x) (p + d2 + nodeSize x))
        by (f_equal; lia).
      rewrite descend_shift.
      assert (Hc : (nodeSize x + p + d2 <? 0 + nodeSize x) = false)
        by (apply Z.ltb_ge; lia).
      destruct x; try reflexivity.
      now rewrite Hc, andb_false_r. }
    rewrite replaceRange_unfold in Er.
    destruct (descend _ rest 0 (p + d1) (p + d2)) as [r|] eqn:Dr.
    + subst r. exists (x ::: r'). rewrite replaceRange_unfold, D. cbn [option_map].
      split; [reflexivity|].
      rewrite !tokens_cons, Tr.
      rewrite take_app_ge, drop_app_ge by lia.
      rewrite <- app_assoc. repeat f_equal; lia.
    + apply Flat.
      * rewrite D. reflexivity.
      * lia.
      * destruct (proj1 (replaceFlat_Some rest (p + d1) (p + d2) ins)) as (_ & [a' Ea] & _);
          [eauto|].
        cbn [cutBefore].
        destruct (Z.eqb_spec (nodeSize x + p + d1) 0); [lia|].
        destruct (Z.ltb_spec (nodeSize x + p + d1) 0); [lia|].
        destruct (Z.leb_spec (nodeSize x) (nodeSize x + p + d1)); [|lia].
        replace (nodeSize x + p + d1 - nodeSize x) with (p + d1) by lia.
        rewrite Ea. cbn. eauto.
      * destruct (proj1 (replaceFlat_Some rest (p + d1) (p + d2) ins)) as (_ & _ & [b' Eb]);
          [eauto|].
        cbn [cutAfter].
        destruct (Z.ltb_spec (nodeSize x + p + d2) 0); [lia|].
        destruct (Z.eqb_spec (nodeSize x + p + d2) 0); [lia|].
        destruct (Z.leb_spec (nodeSize x) (nodeSize x + p + d2)); [|lia].
        replace (nodeSize x + p + d2 - nodeSize x) with (p + d2) by lia.
        eauto.
  - pose proof (LeafAt_range _ _ _ L) as [Hp0 Hp1].
    pose proof (length_tokens c) as Lc.
    destruct IH as (c' & Ec & Tc).
    exists (Branch t a c' m ::: rest).
    rewrite replaceRange_unfold. cbn [descend nodeSize].
    destruct (Z.ltb_spec 0 (1 + p + d1)); [|lia].
    destruct (Z.ltb_spec (1 + p + d2) (0 + (2 + fragmentSize c))); [|lia].
    cbn [andb].
    replace (1 + p + d1 - 0 - 1) with (p + d1) by lia.
    replace (1 + p + d2 - 0 - 1) with (p + d2) by lia.
    rewrite Ec. cbn [option_map]. split; [reflexivity|].
    rewrite !tokens_cons. cbn [nodeTokens]. rewrite Tc.
    replace (Z.to_nat (1 + p + d1)) with (S (Z.to_nat (p + d1))) by lia.
    replace (Z.to_nat (1 + p + d2)) with (S (Z.to_nat (p + d2))) by lia.
    cbn [app take drop]. f_equal.
    rewrite <- !List.app_assoc.
    rewrite take_app_le, drop_app_le by lia.
    now rewrite <- ?List.app_assoc.
Qed.

(** *** The steps of the transaction at a leaf *)

Lemma LeafAt_lookup_lt f p n : LeafAt f p n -> (Z.to_nat p < length (tokens f))%nat.
Proof.
  intros L. apply LeafAt_range in L as [? ?].
  pose proof (length_tokens f). lia.
Qed.

Lemma setNodeMarkup_leaf doc p t a m attrs :
  LeafAt doc p (Leaf t a m) ->
  exists doc',
    setNodeMarkup doc p attrs = Some doc'
    /\ tokens doc' = <[Z.to_nat p := TAtom (Leaf t attrs m)]> (tokens doc).
Proof.
  intros L. unfold setNodeMarkup. rewrite (LeafAt_nodeAt _ _ _ L). cbn [nodeSize].
  destruct (replace_at_leaf doc p _ (Leaf t attrs m ::: Empty) 0 1 L) as (doc' & E & T);
    [lia|lia|].
  rewrite Z.add_0_r in E. exists doc'. split; [exact E|].
  rewrite T, Z.add_0_r, tokens_single. cbn [nodeTokens].
  pose proof (LeafAt_range _ _ _ L) as [? ?].
  replace (Z.to_nat (p + 1)) with (S (Z.to_nat p)) by lia.
  symmetry. apply insert_take_drop. now apply LeafAt_lookup_lt in L.
Qed.

Lemma delete_leaf doc p n :
  LeafAt doc p n ->
  exists doc',
    delete doc p (p + 1) = Some doc'
    /\ tokens doc' = base.delete (Z.to_nat p) (tokens doc).
Proof.
  intros L. unfold delete. destruct (Z.eqb_spec p (p + 1)); [lia|].
  destruct (replace_at_leaf doc p _ Empty 0 1 L) as (doc' & E & T); [lia|lia|].
  rewrite Z.add_0_r in E. exists doc'. split; [exact E|].
  rewrite T, Z.add_0_r. cbn [tokens app].
  pose proof (LeafAt_range _ _ _ L) as [? ?].
  replace (Z.to_nat (p + 1)) with (S (Z.to_nat p)) by lia.
  symmetry. apply delete_take_drop.
Qed.

Lemma insert_after_leaf doc p n t a m :
  LeafAt doc p n ->
  exists doc',
    insert doc (p + 1) (Leaf t a m) = Some doc'
    /\ tokens doc' = take (S (Z.to_nat p)) (tokens doc) ++ TAtom (Leaf t a m)
                       :: drop (S (Z.to_nat p)) (tokens doc).
Proof.
  intros L. unfold insert.
  destruct (replace_at_leaf doc p _ (Leaf t a m ::: Empty) 1 1 L) as (doc' & E & T);
    [lia|lia|].
  exists doc'. split; [exact E|].
  rewrite T, tokens_single. cbn [nodeTokens app].
  pose proof (LeafAt_range _ _ _ L) as [? ?].
  now replace (Z.to_nat (p + 1)) with (S (Z.to_nat p)) by lia.
Qed.

(** *** The lookup of the dragged node *)

Lemma nodeAt_Found_range f p n :
  nodeAt f p = Found n -> 0 <= p < fragmentSize f.
Proof.
  revert p. induction f as [|x rest Hc Hr] using fragment_induction; intros p; cbn [nodeAt].
  - destruct (p =? 0); discriminate.
  - pose proof (nodeSize_pos x). pose proof (fragmentSize_nonneg rest).
    cbn [fragmentSize].
    destruct (Z.ltb_spec p 0); [discriminate|].
    destruct (Z.eqb_spec p 0) as [->|]; [lia|].
    destruct (Z.ltb_spec p (nodeSize x)); [lia|].
    intros E. apply Hr in E. lia.
Qed.

Lemma nodeAt_later x rest q :
  0 <= q -> nodeAt (x ::: rest) (nodeSize x + q) = nodeAt rest q.
Proof.
  intros Hq. pose proof (nodeSize_pos x). cbn [nodeAt].
  destruct (Z.ltb_spec (nodeSize x + q) 0); [lia|].
  destruct (Z.eqb_spec (nodeSize x + q) 0); [lia|].
  destruct (Z.ltb_spec (nodeSize x + q) (nodeSize x)); [lia|].
  f_equal. lia.
Qed.

Lemma nodeAt_inside t a c m rest q :
  0 <= q < fragmentSize c ->
  nodeAt (Branch t a c m ::: rest) (1 + q) = nodeAt c q.
Proof.
  intros Hq. cbn [nodeAt nodeSize].
  destruct (Z.ltb_spec (1 + q) 0); [lia|].
  destruct (Z.eqb_spec (1 + q) 0); [lia|].
  destruct (Z.ltb_spec (1 + q) (2 + fragmentSize c)); [|lia].
  f_equal. lia.
Qed.

(** What [descendants] returns is what it was given or a matching node at
    its position. *)
Lemma descendants_sound ty id f start found p n :
  descendants ty id f start found = Some (p, n) ->
  found = Some (p, n)
  \/ (nodeAt f (p - start) = Found n /\ isDragged ty id n = true).
Proof.
  revert start found.
  induction f as [|x rest Hc Hr] using fragment_induction; intros start found;
    cbn [descendants]; [tauto|].
  intros E. apply Hr in E as [E|[E D]].
  - destruct (isDragged ty id x) eqn:Dx.
    + injection E as <- <-. right. now rewrite Z.sub_diag.
    + destruct x as [c s m|t a m|t a c m]; cbn [node_content] in *; try tauto.
      apply Hc in E as [E|[E D]]; [tauto|]. right. split; [|exact D].
      pose proof (nodeAt_Found_range _ _ _ E).
      replace (p - start) with (1 + (p - (start + 1))) by lia.
      now rewrite nodeAt_inside.
  - right. split; [|exact D].
    pose proof (nodeAt_Found_range _ _ _ E).
    replace (p - start) with (nodeSize x + (p - (start + nodeSize x))) by lia.
    now rewrite nodeAt_later by lia.
Qed.

Lemma descendants_keeps ty id f start r :
  exists r', descendants ty id f start (Some r) = Some r'.
Proof.
  revert start r.
  induction f as [|x rest Hc Hr] using fragment_induction; intros start r;
    cbn [descendants]; [eauto|].
  destruct (isDragged ty id x); [apply Hr|].
  destruct x as [c s m|t a m|t a c m]; cbn [node_content] in *; try apply Hr.
  destruct (Hc (start + 1) r) as [r' ->]. apply Hr.
Qed.

(** A matching leaf that no other node shares its id with is found. *)
Lemma descendants_finds ty id f q n start found :
  LeafAt f q n ->
  isDragged ty id n = true ->
  (forall q' n', nodeAt f q' = Found n' -> isDragged ty id n' = true -> q' = q) ->
  exists r, descendants ty id f start found = Some r.
Proof.
  intros L. revert start found.
  induction L as [t a m rest|x rest p n L IH|t a c m rest p n L IH];
    intros start found D U; cbn [descendants].
  - rewrite D. apply descendants_keeps.
  - apply IH; [exact D|]. intros q' n' E' D'.
    pose proof (nodeAt_Found_range _ _ _ E').
    specialize (U (nodeSize x + q') n'). rewrite nodeAt_later in U by lia.
    specialize (U E' D'). lia.
  - pose proof (LeafAt_range _ _ _ L) as [? ?].
    destruct (isDragged ty id (Branch t a c m)) eqn:DB.
    + specialize (U 0 (Branch t a c m) eq_refl DB). lia.
    + destruct (IH (start + 1) found D) as [r ->]; [|apply descendants_keeps].
      intros q' n' E' D'.
      pose proof (nodeAt_Found_range _ _ _ E').
      specialize (U (1 + q') n'). rewrite nodeAt_inside in U by lia.
      specialize (U E' D'). lia.
Qed.

Lemma descendants_unique ty id doc dp dn :
  LeafAt doc dp dn ->
  isDragged ty id dn = true ->
  (forall q n, nodeAt doc q = Found n -> isDragged ty id n = true -> q = dp) ->
  descendants ty id doc 0 None = Some (dp, dn).
Proof.
  intros L D U.
  destruct (descendants_finds ty id doc dp dn 0 None L D U) as [[p n] E].
  rewrite E. destruct (descendants_sound _ _ _ _ _ _ _ E) as [?|[En Dn]]; [discriminate|].
  rewrite Z.sub_0_r in En. pose proof (U p n En Dn) as ->.
  rewrite (LeafAt_nodeAt _ _ _ L) in En. now injection En as <-.
Qed.

Lemma descendants_none ty id doc :
  (forall q n, nodeAt doc q = Found n -> isDragged ty id n = false) ->
  descendants ty id doc 0 None = None.
Proof.
  intros U. destruct (descendants ty id doc 0 None) as [[p n]|] eqn:E; [|reflexivity].
  destruct (descendants_sound _ _ _ _ _ _ _ E) as [?|[En Dn]]; [discriminate|].
  rewrite (U _ _ En) in Dn. discriminate.
Qed.

(** *** The merge *)

Lemma delete_insert_same {A} (l : list A) i x :
  base.delete i (<[i := x]> l) = base.delete i l.
Proof.
  revert i. induction l as [|y l IH]; intros [|i]; cbn; try reflexivity.
  f_equal. apply IH.
Qed.

(** The merge of a found dragged leaf onto a target leaf elsewhere. *)
Lemma merge_core probe ty doc id dp dt da dm tp tt ta tm :
  descendants ty id doc 0 None = Some (dp, Leaf dt da dm) ->
  nodeAt doc tp = Found (Leaf tt ta tm) ->
  tp <> dp ->
  let wt := targetWidthPercent (getImageAspectRatio probe (ta !! "src"))
                               (getImageAspectRatio probe (da !! "src")) in
  let wd := draggedWidthPercent (getImageAspectRatio probe (ta !! "src"))
                                (getImageAspectRatio probe (da !! "src")) in
  let tn' := Leaf tt (withWidth ta wt) tm in
  let dn' := Leaf dt (withWidth da wd) dm in
  let tp' := if dp <? tp then tp - 1 else tp in
  exists doc',
    mergeImages probe ty (Some tp) doc id = Dispatched doc'
    /\ tokens doc' = movedTokens (tokens doc) (Z.to_nat tp) (Z.to_nat dp) tn' dn'
    /\ LeafAt doc' tp' tn'
    /\ LeafAt doc' (tp' + 1) dn'.
Proof.
  intros E0 Et Hne wt wd tn' dn' tp'.
  assert (Ld : LeafAt doc dp (Leaf dt da dm)).
  { destruct (descendants_sound _ _ _ _ _ _ _ E0) as [?|[En _]]; [discriminate|].
    rewrite Z.sub_0_r in En. now apply nodeAt_LeafAt. }
  assert (Lt : LeafAt doc tp (Leaf tt ta tm)) by now apply nodeAt_LeafAt.
  pose proof (LeafAt_range _ _ _ Ld) as [Hd0 Hd1].
  pose proof (LeafAt_range _ _ _ Lt) as [Ht0 Ht1].
  pose proof (length_tokens doc) as Len.
  set (T := tokens doc) in *.
  set (it := Z.to_nat tp). set (id_ := Z.to_nat dp).
  assert (Hit : (it < length T)%nat) by (unfold it; lia).
  assert (Hid : (id_ < length T)%nat) by (unfold id_; lia).
  assert (Hidt : it <> id_) by (unfold it, id_; lia).
  (* the target gets its width *)
  destruct (setNodeMarkup_leaf doc tp tt ta tm (withWidth ta wt) Lt) as (doc1 & E1 & T1).
  fold T it tn' in T1.
  assert (L1 : LeafAt doc1 dp (Leaf dt da dm)).
  { replace dp with (Z.of_nat id_) by (unfold id_; lia). apply tokens_LeafAt.
    rewrite T1, list_lookup_insert_ne by exact Hidt.
    now apply LeafAt_tokens in Ld. }
  (* the dragged node gets its width *)
  destruct (setNodeMarkup_leaf doc1 dp dt da dm (withWidth da wd) L1) as (doc2 & E2 & T2).
  fold id_ dn' in T2.
  assert (L2 : LeafAt doc2 dp dn').
  { replace dp with (Z.of_nat id_) by (unfold id_; lia). apply tokens_LeafAt.
    rewrite T2. apply list_lookup_insert_eq. rewrite T1, length_insert. exact Hid. }
  (* it is cut out *)
  destruct (delete_leaf doc2 dp dn' L2) as (doc3 & E3 & T3). fold id_ in T3.
  rewrite T2, delete_insert_same, T1 in T3.
  assert (Hp' : Z.to_nat tp' = if (id_ <? it)%nat then (it - 1)%nat else it).
  { unfold tp', it, id_.
    destruct (Z.ltb_spec dp tp), (Nat.ltb_spec (Z.to_nat dp) (Z.to_nat tp)); lia. }
  assert (Hp0 : 0 <= tp') by (unfold tp'; destruct (Z.ltb_spec dp tp); lia).
  assert (L3 : LeafAt doc3 tp' tn').
  { replace tp' with (Z.of_nat (Z.to_nat tp')) by lia.
    apply tokens_LeafAt. rewrite T3, Hp'.
    destruct (Nat.ltb_spec id_ it).
    - rewrite list_lookup_delete_ge by lia.
      replace (S (it - 1)) with it by lia. now apply list_lookup_insert_eq.
    - rewrite list_lookup_delete_lt by lia. now apply list_lookup_insert_eq. }
  (* and pasted after the target *)
  destruct (insert_after_leaf doc3 tp' tn' dt (withWidth da wd) dm L3) as (doc4 & E4 & T4).
  fold dn' in T4.
  pose proof (LeafAt_lookup_lt _ _ _ L3) as H3.
  exists doc4. split; [|split; [|split]].
  - unfold mergeImages. rewrite E0, Et. cbn [node_attrs nodeSize create].
    fold wt wd. rewrite E1. cbn [mbind option_bind]. rewrite E2. cbn [mbind option_bind].
    rewrite E3. cbn [mbind option_bind]. fold tp'. rewrite E4. reflexivity.
  - rewrite T4, T3. unfold movedTokens. fold it id_. now rewrite Hp'.
  - replace tp' with (Z.of_nat (Z.to_nat tp')) by lia.
    apply tokens_LeafAt. rewrite T4, lookup_app_l by (rewrite length_take; lia).
    rewrite lookup_take_lt by lia. now apply LeafAt_tokens.
  - replace (tp' + 1) with (Z.of_nat (S (Z.to_nat tp'))) by lia.
    apply tokens_LeafAt. rewrite T4, lookup_app_r by (rewrite length_take; lia).
    rewrite length_take.
    now replace (S (Z.to_nat tp') - S (Z.to_nat tp') `min` length (tokens doc3))%nat
      with 0%nat by lia.
Qed.

(** The hypotheses of the merge, as the claim has them: the document
    holds the dragged image leaf, which no other node shares its id with,
    and a target leaf with another id. *)
Lemma merge_core_by_id ty doc id dp da dm tp tt ta tm :
  nodeAt doc dp = Found (Leaf ty da dm) ->
  da !! "id" = Some (VStr id) ->
  (forall q n, nodeAt doc q = Found n -> isDragged ty id n = true -> q = dp) ->
  nodeAt doc tp = Found (Leaf tt ta tm) ->
  ta !! "id" <> Some (VStr id) ->
  descendants ty id doc 0 None = Some (dp, Leaf ty da dm) /\ tp <> dp.
Proof.
  intros Ed Hid U Et Hne. split.
  - apply descendants_unique; [now apply nodeAt_LeafAt| |exact U].
    cbn [isDragged]. rewrite !bool_decide_eq_true_2; [reflexivity|exact Hid|reflexivity].
  - intros ->. rewrite Ed in Et. injection Et as <- <- <-. contradiction.
Qed.

(** C7: in a document that holds the dragged image leaf (the only node
    with its id) and a target leaf with another id, the merge is dispatched
    and, whether the dragged node stood before or after the target, the
    target (shifted by one when the dragged node stood before it) is
    directly followed by the dragged node; the dragged node has its type,
    content and marks, and its attributes differ in [width] only. All other
    tokens of the document keep their order. *)
Theorem merge_moves_dragged_after_target
        probe ty doc id dp da dm tp tt ta tm :
  nodeAt doc dp = Found (Leaf ty da dm) ->
  da !! "id" = Some (VStr id) ->
  (forall q n, nodeAt doc q = Found n -> isDragged ty id n = true -> q = dp) ->
  nodeAt doc tp = Found (Leaf tt ta tm) ->
  ta !! "id" <> Some (VStr id) ->
  let tp' := if dp <? tp then tp - 1 else tp in
  exists doc' tw dw,
    let target' := Leaf tt (withWidth ta tw) tm in
    let dragged' := Leaf ty (withWidth da dw) dm in
    mergeImages probe ty (Some tp) doc id = Dispatched doc'
    /\ nodeAt doc' tp' = Found target'
    /\ nodeAt doc' (tp' + nodeSize target') = Found dragged'
    /\ node_content dragged' = node_content (Leaf ty da dm)
    /\ node_marks dragged' = node_marks (Leaf ty da dm)
    /\ (forall k, k <> "width" -> node_attrs dragged' !! k = da !! k)
    /\ tokens doc'
       = movedTokens (tokens doc) (Z.to_nat tp) (Z.to_nat dp) target' dragged'.
Proof.
  intros Ed Hid U Et Hne tp'.
  destruct (merge_core_by_id ty doc id dp da dm tp tt ta tm Ed Hid U Et Hne) as [E0 Hpos].
  destruct (merge_core probe ty doc id dp ty da dm tp tt ta tm E0 Et Hpos)
    as (doc' & Em & Tk & Lt & Ld).
  eexists doc', _, _. cbn zeta. cbn [nodeSize].
  split; [exact Em|]. split; [apply LeafAt_nodeAt; exact Lt|].
  split; [apply LeafAt_nodeAt; exact Ld|].
  split; [reflexivity|]. split; [reflexivity|]. split; [|exact Tk].
  intros k Hk. cbn [node_attrs]. unfold withWidth. now apply lookup_insert_ne.
Qed.

(** C3: the widths are [round((r_t / (r_t + r_d)) * 98)] for the target
    and 98 minus that for the dragged node, computed in binary64; after the
    merge the [width] attributes of the two nodes are these numbers followed
    by a percent sign; for the ratios 2 and 1 they are 65 and 33. *)
Theorem merge_width_percentages :
  (forall r_t r_d,
      targetWidthPercent r_t r_d
      = JS.Math_round (PrimFloat.mul (PrimFloat.div r_t (PrimFloat.add r_t r_d)) 98)
      /\ draggedWidthPercent r_t r_d = PrimFloat.sub 98 (targetWidthPercent r_t r_d))
  /\ (forall probe ty doc id dp da dm tp tt ta tm,
         nodeAt doc dp = Found (Leaf ty da dm) ->
         da !! "id" = Some (VStr id) ->
         (forall q n, nodeAt doc q = Found n -> isDragged ty id n = true -> q = dp) ->
         nodeAt doc tp = Found (Leaf tt ta tm) ->
         ta !! "id" <> Some (VStr id) ->
         let r_t := getImageAspectRatio probe (ta !! "src") in
         let r_d := getImageAspectRatio probe (da !! "src") in
         let tp' := if dp <? tp then tp - 1 else tp in
         exists doc' ta' da',
           mergeImages probe ty (Some tp) doc id = Dispatched doc'
           /\ nodeAt doc' tp' = Found (Leaf tt ta' tm)
           /\ nodeAt doc' (tp' + 1) = Found (Leaf ty da' dm)
           /\ ta' !! "width"
              = Some (VStr (JS.toString (targetWidthPercent r_t r_d) +:+ "%"))
           /\ da' !! "width"
              = Some (VStr (JS.toString (draggedWidthPercent r_t r_d) +:+ "%")))
  /\ (targetWidthPercent 2 1 = 65%float
      /\ draggedWidthPercent 2 1 = 33%float
      /\ JS.toString (targetWidthPercent 2 1) +:+ "%" = "65%"
      /\ JS.toString (draggedWidthPercent 2 1) +:+ "%" = "33%").
Proof.
  split; [intros; split; reflexivity|]. split.
  - intros probe ty doc id dp da dm tp tt ta tm Ed Hid U Et Hne r_t r_d tp'.
    destruct (merge_core_by_id ty doc id dp da dm tp tt ta tm Ed Hid U Et Hne) as [E0 Hpos].
    destruct (merge_core probe ty doc id dp ty da dm tp tt ta tm E0 Et Hpos)
      as (doc' & Em & _ & Lt & Ld).
    eexists doc', _, _.
    split; [exact Em|]. split; [apply LeafAt_nodeAt; exact Lt|].
    split; [apply LeafAt_nodeAt; exact Ld|].
    unfold withWidth. split; apply lookup_insert_eq.
  - vm_compute. repeat split.
Qed.

(** C8: when no node has the dragged id, when the target position is
    unavailable, or when there is no node at the target position, the merge
    returns early and the document is the one before the attempt. And
    whatever the input, the editor's document changes only by one dispatched
    transaction that carries the whole plan (both widths, the cut and the
    paste): otherwise it is left as it was. *)
Theorem merge_aborts_without_mutation probe ty getPos doc id :
  ((forall q n, nodeAt doc q = Found n -> isDragged ty id n = false)
   \/ getPos = None
   \/ (exists tp, getPos = Some tp /\ nodeAt doc tp = Null) ->
   mergeImages probe ty getPos doc id = Aborted
   /\ documentAfter doc (mergeImages probe ty getPos doc id) = doc)
  /\ match mergeImages probe ty getPos doc id with
     | Dispatched doc' => fullPlan probe ty getPos doc id doc'
     | o => documentAfter doc o = doc
     end.
Proof.
  split.
  - intros Hc.
    assert (E : mergeImages probe ty getPos doc id = Aborted); [|now rewrite E].
    unfold mergeImages.
    destruct Hc as [Hn|[->|(tp & -> & Hn)]].
    + now rewrite descendants_none.
    + destruct (descendants ty id doc 0 None) as [[? ?]|]; reflexivity.
    + destruct (descendants ty id doc 0 None) as [[? ?]|]; [|reflexivity].
      now rewrite Hn.
  - unfold mergeImages.
    destruct (descendants ty id doc 0 None) as [[dp dn]|] eqn:E0; [|reflexivity].
    destruct getPos as [tp|]; [|reflexivity].
    destruct (nodeAt doc tp) as [tn| |] eqn:Et; try reflexivity.
    destruct (setNodeMarkup doc tp _) as [d1|] eqn:E1; cbn [mbind option_bind];
      [|reflexivity].
    destruct (setNodeMarkup d1 dp _) as [d2|] eqn:E2; cbn [mbind option_bind];
      [|reflexivity].
    destruct (delete d2 dp _) as [d3|] eqn:E3; cbn [mbind option_bind]; [|reflexivity].
    destruct (insert d3 _ _) as [d4|] eqn:E4; [|reflexivity].
    exists dp, dn, tp, tn, d1, d2, d3. cbn zeta. repeat split; assumption.
Qed.

(** A drop of the image on itself, or without an id, never reaches
    [mergeImages]. *)
Lemma self_drop_is_ignored probe ty nodeId getPos doc id :
  nodeId = Some (VStr id) ->
  handleCustomDrop probe ty nodeId getPos doc (Some id) = Aborted
  /\ handleCustomDrop probe ty nodeId getPos doc None = Aborted.
Proof.
  intros ->. unfold handleCustomDrop.
  rewrite (bool_decide_eq_true_2 (Some (VStr id) = Some (VStr id))) by reflexivity.
  now rewrite orb_true_r.
Qed.

(** *** A document to run the merge on *)

Lemma twoImages_ids id dp :
  (id = "a" /\ dp = 1) \/ (id = "b" /\ dp = 2) ->
  forall q n, nodeAt twoImages q = Found n -> isDragged "image" id n = true -> q = dp.
Proof.
  intros Hid q n E D.
  pose proof (nodeAt_Found_range _ _ _ E) as R.
  assert (S4 : fragmentSize twoImages = 4) by reflexivity.
  assert (q = 0 \/ q = 1 \/ q = 2 \/ q = 3) as [->|[->|[->| ->]]] by lia;
    vm_compute in E; try discriminate E; injection E as <-;
    destruct Hid as [[-> ->]|[-> ->]]; vm_compute in D;
    first [reflexivity | discriminate D].
Defined.

Lemma merge_moves_dragged_after_target_witness :
  exists doc' tw dw,
    mergeImages probeExample "image" (Some 1) twoImages "b" = Dispatched doc'
    /\ nodeAt doc' 1
       = Found (Leaf "image" (withWidth (node_attrs (imageNode "a" "wide.png")) tw) [])
    /\ nodeAt doc' 2
       = Found (Leaf "image" (withWidth (node_attrs (imageNode "b" "square.png")) dw) []).
Proof.
  destruct (merge_moves_dragged_after_target probeExample "image" twoImages "b"
              2 (node_attrs (imageNode "b" "square.png")) []
              1 "image" (node_attrs (imageNode "a" "wide.png")) [])
    as (doc' & tw & dw & Em & Et & Ed & _).
  - reflexivity.
  - reflexivity.
  - apply twoImages_ids. right. split; reflexivity.
  - reflexivity.
  - vm_compute. intros E. discriminate E.
  - exists doc', tw, dw. split; [exact Em|]. split; [exact Et|exact Ed].
Defined.

Lemma merge_width_percentages_witness :
  exists doc' ta' da',
    mergeImages probeExample "image" (Some 2) twoImages "a" = Dispatched doc'
    /\ nodeAt doc' 1 = Found (Leaf "image" ta' [])
    /\ nodeAt doc' 2 = Found (Leaf "image" da' [])
    /\ ta' !! "width" = Some (VStr "33%")
    /\ da' !! "width" = Some (VStr "65%").
Proof.
  apply (proj1 (proj2 merge_width_percentages) probeExample "image" twoImages "a"
               1 (node_attrs (imageNode "a" "wide.png")) []
               2 "image" (node_attrs (imageNode "b" "square.png")) []).
  - reflexivity.
  - reflexivity.
  - apply twoImages_ids. left. split; reflexivity.
  - reflexivity.
  - vm_compute. intros E. discriminate E.
Defined.

Lemma merge_aborts_without_mutation_witness :
  mergeImages probeExample "image" None twoImages "a" = Aborted
  /\ documentAfter twoImages (mergeImages probeExample "image" None twoImages "a")
     = twoImages.
Proof.
  apply (proj1 (merge_aborts_without_mutation probeExample "image" None twoImages "a")).
  right. left. reflexivity.
Defined.

End MergeFacts.

(** ** Further properties of the raster edit engine *)

Module RasterMore.
Import Raster RasterSpec RasterFacts.

Section Gestures.

Context `{Browser}.

(** The canvas the effects leave is a function of the image and of the
    active prefix of the history. *)
Lemma runEffects_canvas (a b : State) :
  image a = image b ->
  JS.slice0 (history a) (historyStep a + 1)
  = JS.slice0 (history b) (historyStep b + 1) ->
  image a <> None ->
  canvas (runEffects a) = canvas (runEffects b).
Proof.
  destruct a as [ia ca ta ka wa da sa pa ha na], b as [ib cb tb kb wb db sb pb hb nb].
  cbn [image history historyStep]. intros <- E Hi.
  destruct ia as [img|]; [clear Hi|congruence].
  unfold runEffects, setupCanvas, redrawCanvas.
  cbn [image]. destruct (fitDims (bm_width img) (bm_height img)) as [w h].
  cbn. now rewrite E.
Qed.

(** X1: the picture after the effects depends on the image and on the actions
    up to the cursor only: neither the actions behind the cursor, nor what
    was on the canvas before, nor any other part of the state shows; and
    running the effects once more changes nothing. *)
Theorem render_shows_active_prefix (a b : State) :
  image a = image b ->
  image a <> None ->
  JS.slice0 (history a) (historyStep a + 1)
  = JS.slice0 (history b) (historyStep b + 1) ->
  canvas (runEffects a) = canvas (runEffects b)
  /\ runEffects (runEffects a) = runEffects a.
Proof.
  intros Hi Hn E. split.
  - destruct a as [ia ca ta ka wa da sa pa ha na], b as [ib cb tb kb wb db sb pb hb nb].
    cbn [image history historyStep] in *. subst ib.
    destruct ia as [img|]; [clear Hn|congruence].
    unfold runEffects, setupCanvas, redrawCanvas.
    cbn [image]. destruct (fitDims (bm_width img) (bm_height img)) as [w h].
    cbn. now rewrite E.
  - rewrite (runEffects_is_setCanvas a) at 1.
    now apply runEffects_setCanvas.
Qed.

(** X2: undoing a freshly recorded action shows the picture of before the
    record, with the cursor back where it was; the action stays in the
    history for redo. *)
Theorem undo_after_record (st : State) (a : DrawAction) :
  historyInv st ->
  image st <> None ->
  let st' := handleUndo (addToHistory st a) in
  canvas st' = canvas (runEffects st)
  /\ historyStep st' = historyStep st
  /\ history st' = take (Z.to_nat (historyStep st + 1)) (history st) ++ [a].
Proof.
  intros [Lo Hi] Im st'.
  assert (Hs : JS.slice0 (history st) (historyStep st + 1)
               = take (Z.to_nat (historyStep st + 1)) (history st))
    by (apply slice0_take; lia).
  assert (Hl : Z.of_nat (length (take (Z.to_nat (historyStep st + 1)) (history st)))
               = historyStep st + 1)
    by (rewrite length_take; lia).
  assert (Hh : history (addToHistory st a)
               = take (Z.to_nat (historyStep st + 1)) (history st) ++ [a])
    by now rewrite addToHistory_history, Hs.
  assert (Hc : historyStep (addToHistory st a) = historyStep st + 1).
  { rewrite addToHistory_historyStep, Hh, length_app. cbn [length]. lia. }
  subst st'. unfold handleUndo. rewrite Hc.
  destruct (Z.ltb_spec0 (-1) (historyStep st + 1)) as [_|]; [|lia].
  rewrite runEffects_history, runEffects_historyStep.
  split; [|split; [cbn; lia|exact Hh]].
  unfold addToHistory. rewrite runEffects_setHistoryStep.
  apply runEffects_canvas; [reflexivity| |exact Im].
  cbn [history historyStep setHistoryStep setHistory].
  rewrite Hs.
  replace (historyStep st + 1 - 1 + 1) with (historyStep st + 1) by lia.
  rewrite slice0_take by lia.
  rewrite take_app_le by lia.
  rewrite take_take. f_equal. lia.
Qed.

(** Pointer moves and a release without a press do nothing at all. *)
Lemma moves_idle moves st :
  isDrawing st = false -> fold_left handleMouseMove moves st = st.
Proof.
  intros Hd. induction moves as [|p moves IH]; [reflexivity|].
  cbn [fold_left]. unfold handleMouseMove at 2. now rewrite Hd.
Qed.

(** X4: with no tool selected a whole gesture leaves the state as it is, the
    canvas included; and whatever the tool, moves and a release that no
    press armed change nothing. *)
Theorem idle_gesture_changes_nothing (st : State) (down up : Point) (moves : list Point) :
  isDrawing st = false ->
  fold_left handleMouseMove moves st = st
  /\ handleMouseUp st up = (st, None)
  /\ (tool st = ToolNone -> gesture st down moves up = (st, None)).
Proof.
  intros Hd. split; [now apply moves_idle|].
  assert (Hu : handleMouseUp st up = (st, None))
    by (unfold handleMouseUp; now rewrite Hd).
  split; [exact Hu|].
  intros Ht. unfold gesture, handleMouseDown. rewrite Ht.
  now rewrite moves_idle.
Qed.

(** What the moves of a gesture leave alone beyond [keeps]. *)
Lemma handleMouseMove_lineWidth st p :
  lineWidth (handleMouseMove st p) = lineWidth st.
Proof.
  unfold handleMouseMove.
  destruct (isDrawing st); [|reflexivity].
  destruct (startPoint st); [|reflexivity].
  pose proof (redrawCanvas_frame st) as (_ & Ft & _ & Fl & _ & _ & Fp & _).
  rewrite Ft, Fp.
  destruct (tool st); try destruct (currentPath st);
    cbn [lineWidth setCanvas setCurrentPath]; exact Fl.
Qed.

Lemma moves_lineWidth moves st :
  lineWidth (fold_left handleMouseMove moves st) = lineWidth st.
Proof.
  revert st. induction moves as [|p moves IH]; intros st; [reflexivity|].
  cbn [fold_left]. now rewrite IH, handleMouseMove_lineWidth.
Qed.

Lemma handleMouseMove_pen st p sp :
  tool st = ToolPen -> isDrawing st = true -> startPoint st = Some sp ->
  currentPath (handleMouseMove st p) = currentPath st ++ [p].
Proof.
  intros Ht Hd Hs. unfold handleMouseMove. rewrite Hd, Hs.
  pose proof (redrawCanvas_frame st) as (_ & Ft & _ & _ & _ & _ & Fp & _).
  rewrite Ft, Fp, Ht.
  destruct (currentPath st); reflexivity.
Qed.

Lemma moves_pen moves st sp :
  tool st = ToolPen -> isDrawing st = true -> startPoint st = Some sp ->
  currentPath (fold_left handleMouseMove moves st) = currentPath st ++ moves.
Proof.
  revert st. induction moves as [|p moves IH]; intros st Ht Hd Hs.
  - cbn. now rewrite app_nil_r.
  - cbn [fold_left].
    destruct (handleMouseMove_armed st p) as [Hd' Hs'].
    destruct (handleMouseMove_keeps st p) as (_ & _ & _ & Ht' & _).
    rewrite IH by congruence.
    rewrite (handleMouseMove_pen st p sp) by assumption.
    now rewrite <- app_assoc.
Qed.

(** The state a gesture has reached when the pointer is released. *)
Lemma before_release st down moves :
  tool st <> ToolNone ->
  let s := fold_left handleMouseMove moves (handleMouseDown st down) in
  isDrawing s = true /\ startPoint s = Some down
  /\ tool s = tool st /\ color s = color st /\ lineWidth s = lineWidth st
  /\ history s = history st /\ historyStep s = historyStep st
  /\ image s = image st.
Proof.
  intros Ht s.
  destruct (moves_armed moves (handleMouseDown st down)) as [Hd Hs].
  destruct (handleMouseDown_armed st down Ht) as [Hd0 Hs0].
  destruct (moves_keep moves (handleMouseDown st down)) as (Hi & Hh & Hn & Htl & Hc & _).
  destruct (handleMouseDown_keeps st down) as (Hi0 & Hh0 & Hn0 & Htl0 & Hc0 & _).
  subst s. rewrite moves_lineWidth.
  repeat split; try congruence.
  unfold handleMouseDown. destruct (tool st); reflexivity.
Qed.

Lemma finish_history s a :
  history (setCurrentPath (setStartPoint (addToHistory s a) None) []) = history (addToHistory s a)
  /\ historyStep (setCurrentPath (setStartPoint (addToHistory s a) None) [])
     = historyStep (addToHistory s a).
Proof. split; reflexivity. Qed.

(** X5: a pen gesture records the press point followed by the points of the
    moves, with the current colour and line width, when there was at least
    one move; the release point is not part of the stroke. Without a move
    nothing is recorded. *)
Theorem pen_gesture_records_path (st : State) (down up : Point) (moves : list Point) :
  tool st = ToolPen ->
  let r := gesture st down moves up in
  snd r = None
  /\ (moves = [] ->
        history (fst r) = history st /\ historyStep (fst r) = historyStep st)
  /\ (moves <> [] ->
        history (fst r)
        = JS.slice0 (history st) (historyStep st + 1)
            ++ [mkAction Pen (down :: moves) (color st) (Some (lineWidth st))]
        /\ historyStep (fst r) = Z.of_nat (length (history (fst r))) - 1).
Proof.
  intros Ht r.
  assert (Hn : tool st <> ToolNone) by (rewrite Ht; discriminate).
  destruct (before_release st down moves Hn) as (Hd & Hs & Htl & Hc & Hw & Hh & Hs' & Hi).
  assert (Hp : currentPath (fold_left handleMouseMove moves (handleMouseDown st down))
               = down :: moves).
  { rewrite (moves_pen moves _ down).
    - unfold handleMouseDown. now rewrite Ht.
    - unfold handleMouseDown. now rewrite Ht.
    - now apply handleMouseDown_armed.
    - now apply handleMouseDown_armed. }
  subst r. unfold gesture.
  set (s := fold_left handleMouseMove moves (handleMouseDown st down)) in *.
  unfold handleMouseUp. rewrite Hd, Hs.
  change (tool (setIsDrawing s false)) with (tool s).
  change (currentPath (setIsDrawing s false)) with (currentPath s).
  change (color (setIsDrawing s false)) with (color s).
  change (lineWidth (setIsDrawing s false)) with (lineWidth s).
  rewrite Htl, Ht, Hp, Hc, Hw.
  destruct moves as [|m moves].
  - cbn. repeat split; try assumption; congruence.
  - replace (1 <? Z.of_nat (length (down :: m :: moves))) with true
      by (symmetry; apply Z.ltb_lt; cbn [length]; lia).
    cbn [fst snd]. split; [reflexivity|]. split; [congruence|]. intros _.
    destruct (finish_history (setIsDrawing s false)
                (mkAction Pen (down :: m :: moves) (color st) (Some (lineWidth st))))
      as [-> ->].
    rewrite addToHistory_historyStep, addToHistory_history.
    cbn [history historyStep setIsDrawing]. rewrite Hh, Hs'.
    split; reflexivity.
Qed.

(** X6: a mosaic, rectangle or circle gesture always records one action: its
    two points are the press and the release point, whatever the moves in
    between, with the current colour (and line width, except for the
    mosaic). *)
Theorem shape_gesture_records_endpoints
        (st : State) (down up : Point) (moves : list Point)
        (t : Tool) (ty : ActionType) (lw : option Z) :
  tool st = t ->
  (t, ty, lw) = (ToolMosaic, Mosaic, None)
  \/ (t, ty, lw) = (ToolRectangle, Rectangle, Some (lineWidth st))
  \/ (t, ty, lw) = (ToolCircle, Circle, Some (lineWidth st)) ->
  let r := gesture st down moves up in
  history (fst r)
  = JS.slice0 (history st) (historyStep st + 1) ++ [mkAction ty [down; up] (color st) lw]
  /\ historyStep (fst r) = Z.of_nat (length (history (fst r))) - 1
  /\ snd r = None.
Proof.
  intros Ht Hk r.
  assert (Hn : tool st <> ToolNone)
    by (rewrite Ht; destruct Hk as [E|[E|E]]; inversion E; discriminate).
  destruct (before_release st down moves Hn) as (Hd & Hs & Htl & Hc & Hw & Hh & Hs' & Hi).
  subst r. unfold gesture.
  set (s := fold_left handleMouseMove moves (handleMouseDown st down)) in *.
  unfold handleMouseUp. rewrite Hd, Hs.
  change (tool (setIsDrawing s false)) with (tool s).
  change (color (setIsDrawing s false)) with (color s).
  change (lineWidth (setIsDrawing s false)) with (lineWidth s).
  rewrite Htl, Ht, Hc, Hw.
  destruct Hk as [E|[E|E]]; inversion E; subst t ty lw; cbn [fst snd];
    (split; [|split; [|reflexivity]]);
    match goal with
    | |- context [addToHistory ?s0 ?a0] =>
        destruct (finish_history s0 a0) as [E1 E2]; rewrite ?E1, ?E2
    end;
    rewrite ?addToHistory_historyStep, addToHistory_history;
    cbn [history historyStep setIsDrawing]; rewrite Hh, Hs'; reflexivity.
Qed.

Lemma addToHistory_canvas (a b : State) (act : DrawAction) :
  image a = image b -> history a = history b -> historyStep a = historyStep b ->
  image a <> None ->
  canvas (addToHistory a act) = canvas (addToHistory b act).
Proof.
  intros Hi Hh Hs Hn. unfold addToHistory.
  apply runEffects_canvas; cbn [image history historyStep setHistoryStep setHistory];
    [exact Hi| |exact Hn].
  now rewrite Hh, Hs.
Qed.

(** X27: the previews drawn while the pointer moves leave no trace: with an
    image loaded, the picture after a mosaic, rectangle or circle gesture
    is the same whatever moves lay between the press and the release. *)
Theorem previews_leave_no_trace
        (st : State) (down up : Point) (moves : list Point) :
  tool st = ToolMosaic \/ tool st = ToolRectangle \/ tool st = ToolCircle ->
  image st <> None ->
  canvas (fst (gesture st down moves up)) = canvas (fst (gesture st down [] up)).
Proof.
  intros Hk Hn.
  assert (Ht : tool st <> ToolNone) by (destruct Hk as [E|[E|E]]; rewrite E; discriminate).
  destruct (before_release st down moves Ht) as (Hd & Hs & Htl & Hc & Hw & Hh & Hs' & Hi).
  destruct (before_release st down [] Ht) as (Hd0 & Hs0 & Htl0 & Hc0 & Hw0 & Hh0 & Hs0' & Hi0).
  unfold gesture.
  set (s := fold_left handleMouseMove moves (handleMouseDown st down)) in *.
  set (s0 := fold_left handleMouseMove [] (handleMouseDown st down)) in *.
  unfold handleMouseUp. rewrite Hd, Hs, Hd0, Hs0.
  change (tool (setIsDrawing s false)) with (tool s).
  change (tool (setIsDrawing s0 false)) with (tool s0).
  change (color (setIsDrawing s false)) with (color s).
  change (color (setIsDrawing s0 false)) with (color s0).
  change (lineWidth (setIsDrawing s false)) with (lineWidth s).
  change (lineWidth (setIsDrawing s0 false)) with (lineWidth s0).
  rewrite Htl, Htl0, Hc, Hc0, Hw, Hw0.
  assert (A : forall act,
             canvas (addToHistory (setIsDrawing s false) act)
             = canvas (addToHistory (setIsDrawing s0 false) act)).
  { intros act. apply addToHistory_canvas; cbn [image history historyStep setIsDrawing];
      congruence. }
  destruct Hk as [E|[E|E]]; rewrite E; cbn [fst canvas setCurrentPath setStartPoint];
    apply A.
Qed.

(** X3: repeated undo walks the cursor down to -1 and stops there; repeated
    redo walks it up to the last action and stops there. Neither touches
    the recorded actions. *)
Theorem undo_redo_saturate (st : State) (k : nat) :
  historyInv st ->
  historyStep (Nat.iter k handleUndo st) = Z.max (-1) (historyStep st - Z.of_nat k)
  /\ history (Nat.iter k handleUndo st) = history st
  /\ historyStep (Nat.iter k handleRedo st)
     = Z.min (Z.of_nat (length (history st)) - 1) (historyStep st + Z.of_nat k)
  /\ history (Nat.iter k handleRedo st) = history st.
Proof.
  intros [Lo Hi].
  induction k as [|k (U1 & U2 & R1 & R2)]; [cbn; repeat split; lia|].
  rewrite !Nat.iter_succ.
  rewrite handleUndo_historyStep, handleUndo_history,
    handleRedo_historyStep, handleRedo_history, U1, U2, R1, R2.
  repeat split.
  - destruct (Z.ltb_spec0 (-1) (Z.max (-1) (historyStep st - Z.of_nat k))); lia.
  - destruct (Z.ltb_spec0 (Z.min (Z.of_nat (length (history st)) - 1)
                                 (historyStep st + Z.of_nat k))
                          (Z.of_nat (length (history st)) - 1)); lia.
Qed.

End Gestures.

Section Pixels.

Context `{Browser}.









(** X8: once the cropped image has loaded, the canvas shows that image alone
    on a freshly sized canvas, and neither undo nor redo has anything left
    to do: a crop cannot be undone. *)
Theorem crop_cannot_be_undone (st : State) (cropped : Bitmap) (k : nat) :
  let s := croppedImage_onload st cropped in
  image s = Some cropped
  /\ canvas s
     = (let '(w, h) := fitDims (bm_width cropped) (bm_height cropped) in
        drawImage (resetCanvas w h) cropped)
  /\ Nat.iter k handleUndo s = s
  /\ Nat.iter k handleRedo s = s.
Proof.
  intros s.
  assert (Hs : historyStep s = -1) by (unfold s, croppedImage_onload; now rewrite runEffects_historyStep).
  assert (Hh : history s = []) by (unfold s, croppedImage_onload; now rewrite runEffects_history).
  split; [unfold s, croppedImage_onload; now rewrite runEffects_image|].
  split.
  { unfold s, croppedImage_onload, runEffects, setupCanvas, redrawCanvas.
    cbn [image setImage setHistory setHistoryStep].
    destruct (fitDims (bm_width cropped) (bm_height cropped)) as [w h].
    reflexivity. }
  split.
  - induction k as [|k IH]; [reflexivity|].
    rewrite Nat.iter_succ, IH. unfold handleUndo. now rewrite Hs.
  - apply iter_redo_at_end. rewrite Hs, Hh. reflexivity.
Qed.

End Pixels.

(** *** Concrete runs *)

Lemma render_shows_active_prefix_witness :
  canvas (@runEffects plainBrowser (@handleUndo plainBrowser recorded))
  = canvas (@runEffects plainBrowser
              (fold_left (@addToHistory plainBrowser) [rectA; rectB] loaded)).
Proof.
  refine (proj1 (@render_shows_active_prefix plainBrowser
                   (@handleUndo plainBrowser recorded)
                   (fold_left (@addToHistory plainBrowser) [rectA; rectB] loaded)
                   _ _ _)).
  - reflexivity.
  - intros E; discriminate E.
  - reflexivity.
Defined.

Lemma undo_after_record_witness :
  historyStep (@handleUndo plainBrowser (@addToHistory plainBrowser recorded penD)) = 2
  /\ history (@handleUndo plainBrowser (@addToHistory plainBrowser recorded penD))
     = [rectA; rectB; circC; penD].
Proof.
  assert (I : historyInv recorded)
    by (vm_compute; split; [intros E; discriminate E|reflexivity]).
  assert (N : image recorded <> None) by (intros E; discriminate E).
  destruct (@undo_after_record plainBrowser recorded penD I N) as (_ & S & Hh).
  split; [exact S|exact Hh].
Defined.

Lemma idle_gesture_changes_nothing_witness :
  @gesture plainBrowser recorded (mkPoint 0 0) [mkPoint 1 1] (mkPoint 2 2)
  = (recorded, None).
Proof.
  apply (@idle_gesture_changes_nothing plainBrowser recorded (mkPoint 0 0)
           (mkPoint 2 2) [mkPoint 1 1]); reflexivity.
Defined.

Lemma pen_gesture_records_path_witness :
  history (fst (@gesture plainBrowser (setTool recorded ToolPen)
                  (mkPoint 0 0) [mkPoint 1 1; mkPoint 2 1] (mkPoint 3 3)))
  = [rectA; rectB; circC;
     mkAction Pen [mkPoint 0 0; mkPoint 1 1; mkPoint 2 1] "#ff0000" (Some 3)].
Proof.
  refine (eq_trans
            (proj1 (proj2 (proj2 (@pen_gesture_records_path plainBrowser
               (setTool recorded ToolPen) (mkPoint 0 0) (mkPoint 3 3)
               [mkPoint 1 1; mkPoint 2 1] eq_refl)) _)) _).
  - intros E; discriminate E.
  - reflexivity.
Defined.

Lemma shape_gesture_records_endpoints_witness :
  history (fst (@gesture plainBrowser (setTool recorded ToolCircle)
                  (mkPoint 1 1) [mkPoint 2 2] (mkPoint 3 1)))
  = [rectA; rectB; circC;
     mkAction Circle [mkPoint 1 1; mkPoint 3 1] "#ff0000" (Some 3)].
Proof.
  refine (eq_trans
            (proj1 (@shape_gesture_records_endpoints plainBrowser
               (setTool recorded ToolCircle) (mkPoint 1 1) (mkPoint 3 1)
               [mkPoint 2 2] ToolCircle Circle (Some 3) eq_refl
               (or_intror (or_intror eq_refl)))) _).
  reflexivity.
Defined.

Lemma previews_leave_no_trace_witness :
  canvas (fst (@gesture plainBrowser (setTool recorded ToolRectangle)
                 (mkPoint 0 0) [mkPoint 1 1; mkPoint 3 2] (mkPoint 2 2)))
  = canvas (fst (@gesture plainBrowser (setTool recorded ToolRectangle)
                   (mkPoint 0 0) [] (mkPoint 2 2))).
Proof.
  apply (@previews_leave_no_trace plainBrowser (setTool recorded ToolRectangle)).
  - right; left; reflexivity.
  - intros E; discriminate E.
Defined.

Lemma undo_redo_saturate_witness :
  historyStep (Nat.iter 5 (@handleUndo plainBrowser) recorded) = -1
  /\ historyStep (Nat.iter 5 (@handleRedo plainBrowser) recorded) = 2.
Proof.
  assert (I : historyInv recorded)
    by (vm_compute; split; [intros E; discriminate E|reflexivity]).
  destruct (@undo_redo_saturate plainBrowser recorded 5 I) as (U & _ & R & _).
  split; [exact U|exact R].
Defined.



End RasterMore.

(** ** Properties of the string helpers *)

Module JStrFacts.
Import JStr.

Lemma trimStart_head c s t : trimStart s = c :: t -> isWhiteSpace c = false.
Proof.
  induction s as [|a s IH]; cbn; [discriminate|].
  destruct (isWhiteSpace a) eqn:E; [exact IH|].
  intros [= -> _]. exact E.
Qed.

Lemma trimStart_keeps c s : isWhiteSpace c = false -> trimStart (c :: s) = c :: s.
Proof. intros E. cbn. now rewrite E. Qed.

Lemma trimEnd_cons c s : isWhiteSpace c = false -> trimEnd (c :: s) = c :: trimEnd s.
Proof. intros E. cbn. destruct (trimEnd s); [now rewrite E|reflexivity]. Qed.

Lemma trimEnd_idempotent s : trimEnd (trimEnd s) = trimEnd s.
Proof.
  induction s as [|c s IH]; [reflexivity|].
  cbn [trimEnd]. destruct (trimEnd s) as [|a r] eqn:E.
  - destruct (isWhiteSpace c) eqn:W; [reflexivity|]. cbn. now rewrite W.
  - cbn [trimEnd]. cbn [trimEnd] in IH. now rewrite IH.
Qed.

Lemma trim_idempotent s : trim (trim s) = trim s.
Proof.
  unfold trim. destruct (trimStart s) as [|c t] eqn:E; [reflexivity|].
  pose proof (trimStart_head _ _ _ E) as W.
  rewrite (trimEnd_cons c t W), (trimStart_keeps c _ W), <- (trimEnd_cons c t W).
  apply trimEnd_idempotent.
Qed.

Lemma literal_Some l s r : literal l s = Some r <-> s = l ++ r.
Proof.
  revert s. induction l as [|a l IH]; intros s; cbn.
  - split; [now intros [= ->]|now intros ->].
  - destruct s as [|b s]; [split; discriminate|].
    destruct (N.eqb_spec a b) as [->|Hne].
    + rewrite IH. split; [now intros ->|now intros [= ->]].
    + split; [discriminate|]. intros [= -> _]. contradiction.
Qed.

Lemma literal_app l r : literal l (l ++ r) = Some r.
Proof. now apply literal_Some. Qed.

Lemma takeWhile_Forall cls s : Forall (fun c => cls c = true) (takeWhile cls s).
Proof.
  induction s as [|c s IH]; cbn; [constructor|].
  destruct (cls c) eqn:E; [now constructor|constructor].
Qed.

Lemma takeWhile_prefix cls s : exists post, s = takeWhile cls s ++ post.
Proof.
  induction s as [|c s [post IH]]; cbn; [now exists []|].
  destruct (cls c); [|now eexists].
  exists post. cbn. now f_equal.
Qed.

(** The run stops at the first code unit outside the class. *)
Lemma takeWhile_app cls a post :
  Forall (fun c => cls c = true) a ->
  stopsRun cls post ->
  takeWhile cls (a ++ post) = a.
Proof.
  intros Ha Hp. induction Ha as [|c a Hc _ IH]; cbn.
  - destruct post as [|c post]; [reflexivity|]. cbn. now rewrite Hp.
  - now rewrite Hc, IH.
Qed.

Lemma run1_Some cls s r :
  run1 cls s = Some r ->
  r <> [] /\ Forall (fun c => cls c = true) r /\ exists post, s = r ++ post.
Proof.
  unfold run1. pose proof (takeWhile_Forall cls s) as F.
  pose proof (takeWhile_prefix cls s) as P.
  destruct (takeWhile cls s) as [|c t]; [discriminate|].
  intros [= <-]. split; [discriminate|]. now split.
Qed.

Lemma run1_app cls a post :
  a <> [] ->
  Forall (fun c => cls c = true) a ->
  stopsRun cls post ->
  run1 cls (a ++ post) = Some a.
Proof.
  intros Hn Ha Hp. unfold run1. rewrite takeWhile_app by assumption.
  destruct a; [contradiction|reflexivity].
Qed.

(** A match found by [search] is a match at some suffix of the input. *)
Lemma search_Some {A} (at_ : JString -> option A) s r :
  search at_ s = Some r -> exists pre t, s = pre ++ t /\ at_ t = Some r.
Proof.
  induction s as [|c s IH]; cbn.
  - destruct (at_ []) eqn:E; [|discriminate]. intros [= ->]. now exists [], [].
  - destruct (at_ (c :: s)) eqn:E.
    + intros [= ->]. now exists [], (c :: s).
    + intros Hs. destruct (IH Hs) as (pre & t & -> & Ht).
      now exists (c :: pre), t.
Qed.

Lemma search_skip {A} (at_ : JString -> option A) pre s :
  noMatchIn at_ pre s -> search at_ (pre ++ s) = search at_ s.
Proof.
  induction pre as [|c pre IH]; cbn [noMatchIn app]; [reflexivity|].
  intros [E N]. cbn [search]. rewrite E. now apply IH.
Qed.

Lemma search_here {A} (at_ : JString -> option A) s r :
  at_ s = Some r -> search at_ s = Some r.
Proof. intros E. destruct s; cbn; now rewrite E. Qed.

Lemma search_None {A} (at_ : JString -> option A) s :
  (forall pre t, s = pre ++ t -> at_ t = None) -> search at_ s = None.
Proof.
  induction s as [|c s IH]; intros N; cbn.
  - now rewrite (N [] []).
  - rewrite (N [] (c :: s)) by reflexivity.
    apply IH. intros pre t ->. now apply (N (c :: pre)).
Qed.

End JStrFacts.

(** ** Properties of the video URL recogniser and of the video dialog *)

Module VideoFacts.
Import JStr Video JStrFacts.

(** A literal followed by the capture group. *)
Lemma group_Some l cls t r :
  literal l t ≫= run1 cls = Some r ->
  r <> [] /\ Forall (fun c => cls c = true) r /\ exists post, t = l ++ r ++ post.
Proof.
  destruct (literal l t) as [rest|] eqn:E; [|discriminate]. cbn.
  intros R. apply literal_Some in E.
  destruct (run1_Some _ _ _ R) as (Hn & Hf & post & ->).
  split; [exact Hn|]. split; [exact Hf|]. now exists post.
Qed.

Lemma group_app l cls r post :
  r <> [] -> Forall (fun c => cls c = true) r -> stopsRun cls post ->
  literal l (l ++ r ++ post) ≫= run1 cls = Some r.
Proof. intros Hn Hf Hp. rewrite literal_app. cbn. now apply run1_app. Qed.

Lemma orElse_Some {A} (a b : option A) r :
  orElse a b = Some r -> a = Some r \/ b = Some r.
Proof. destruct a; cbn; auto. Qed.

Lemma youtubeWatch_Some t r :
  youtubeWatch t = Some r ->
  r <> [] /\ Forall (fun c => idChar c = true) r
  /\ exists l post, t = l ++ r ++ post /\ In 47%N l.
Proof.
  unfold youtubeWatch. intros E.
  apply orElse_Some in E as [E|E]; [|apply orElse_Some in E as [E|E]];
    destruct (group_Some _ _ _ _ E) as (Hn & Hf & post & ->);
    (split; [exact Hn|]); (split; [exact Hf|]);
    eexists _, post; (split; [reflexivity|]); vm_compute; tauto.
Qed.

Lemma youtubeShorts_Some t r :
  youtubeShorts t = Some r ->
  r <> [] /\ Forall (fun c => idChar c = true) r
  /\ exists l post, t = l ++ r ++ post /\ In 47%N l.
Proof.
  unfold youtubeShorts. intros E.
  destruct (group_Some _ _ _ _ E) as (Hn & Hf & post & ->).
  split; [exact Hn|]. split; [exact Hf|].
  eexists _, post. split; [reflexivity|]. vm_compute. tauto.
Qed.

Lemma vimeoVideo_Some t r :
  vimeoVideo t = Some r ->
  r <> [] /\ Forall (fun c => isDigit c = true) r
  /\ exists l post, t = l ++ r ++ post /\ In 47%N l.
Proof.
  unfold vimeoVideo. intros E.
  destruct (literal (lit "vimeo.com/") t) as [rest|] eqn:L; [|discriminate].
  change (orElse (literal (lit "video/") rest ≫= run1 isDigit) (run1 isDigit rest)
          = Some r) in E.
  apply literal_Some in L. subst t.
  apply orElse_Some in E as [E|E].
  - destruct (group_Some _ _ _ _ E) as (Hn & Hf & post & ->).
    split; [exact Hn|]. split; [exact Hf|].
    exists (lit "vimeo.com/" ++ lit "video/"), post.
    split; [now rewrite <- app_assoc|]. vm_compute. tauto.
  - destruct (run1_Some _ _ _ E) as (Hn & Hf & post & ->).
    split; [exact Hn|]. split; [exact Hf|].
    exists (lit "vimeo.com/"), post. split; [reflexivity|]. vm_compute. tauto.
Qed.

(** The shape of a recognised video. *)
Lemma extractVideoInfo_Some url p id :
  extractVideoInfo url = mkVideoInfo (Some p) (Some id) ->
  id <> []
  /\ Forall (fun c => (match p with Youtube => idChar | Vimeo => isDigit end) c = true) id
  /\ exists pre post, url = pre ++ id ++ post.
Proof.
  unfold extractVideoInfo.
  destruct (search youtubeWatch url) as [r|] eqn:E1.
  { intros [= <- <-]. destruct (search_Some _ _ _ E1) as (pre & t & -> & Ht).
    destruct (youtubeWatch_Some _ _ Ht) as (Hn & Hf & l & post & -> & _).
    split; [exact Hn|]. split; [exact Hf|].
    exists (pre ++ l), post. now rewrite <- app_assoc. }
  destruct (search youtubeShorts url) as [r|] eqn:E2.
  { intros [= <- <-]. destruct (search_Some _ _ _ E2) as (pre & t & -> & Ht).
    destruct (youtubeShorts_Some _ _ Ht) as (Hn & Hf & l & post & -> & _).
    split; [exact Hn|]. split; [exact Hf|].
    exists (pre ++ l), post. now rewrite <- app_assoc. }
  destruct (search vimeoVideo url) as [r|] eqn:E3; [|discriminate].
  intros [= <- <-]. destruct (search_Some _ _ _ E3) as (pre & t & -> & Ht).
  destruct (vimeoVideo_Some _ _ Ht) as (Hn & Hf & l & post & -> & _).
  split; [exact Hn|]. split; [exact Hf|].
  exists (pre ++ l), post. now rewrite <- app_assoc.
Qed.

Lemma extractVideoInfo_cases url :
  extractVideoInfo url = mkVideoInfo None None
  \/ exists p id, extractVideoInfo url = mkVideoInfo (Some p) (Some id).
Proof.
  unfold extractVideoInfo.
  destruct (search youtubeWatch url); [right; eauto|].
  destruct (search youtubeShorts url); [right; eauto|].
  destruct (search vimeoVideo url); [right; eauto|now left].
Qed.

(** X10: what [extractVideoInfo] returns is either nothing at all or a
    provider together with an id that is a non-empty piece of the URL; a
    YouTube id holds none of [&], line feed, [?] and [#], a Vimeo id holds
    decimal digits only. *)
Theorem extracted_id_is_well_formed (url : JString) :
  match provider (extractVideoInfo url), videoId (extractVideoInfo url) with
  | None, None => True
  | Some p, Some id =>
      id <> []
      /\ (exists pre post, url = pre ++ id ++ post)
      /\ match p with
         | Youtube => Forall (fun c => c <> 38 /\ c <> 10 /\ c <> 63 /\ c <> 35)%N id
         | Vimeo => Forall (fun c => 48 <= c <= 57)%N id
         end
  | _, _ => False
  end.
Proof.
  destruct (extractVideoInfo_cases url) as [->|(p & id & E)]; [exact I|].
  rewrite E. cbn [provider videoId].
  destruct (extractVideoInfo_Some _ _ _ E) as (Hn & Hf & Hs).
  split; [exact Hn|]. split; [exact Hs|].
  destruct p; eapply Forall_impl; try exact Hf; cbn beta; intros c Hc.
  - unfold idChar in Hc. apply negb_true_iff in Hc.
    rewrite !orb_false_iff, !N.eqb_neq in Hc. tauto.
  - unfold isDigit in Hc. apply andb_true_iff in Hc.
    rewrite !N.leb_le in Hc. exact Hc.
Qed.

(** Start positions at which no YouTube pattern can match: code units
    from which no slash follows. *)
Lemma youtubeWatch_needs_slash s :
  ~ In 47%N s -> search youtubeWatch s = None.
Proof.
  intros Hs. apply search_None. intros pre t ->.
  destruct (youtubeWatch t) as [r|] eqn:E; [|reflexivity].
  destruct (youtubeWatch_Some _ _ E) as (_ & _ & l & post & -> & Hl).
  exfalso. apply Hs. rewrite !in_app_iff. tauto.
Qed.

Lemma youtubeShorts_needs_slash s :
  ~ In 47%N s -> search youtubeShorts s = None.
Proof.
  intros Hs. apply search_None. intros pre t ->.
  destruct (youtubeShorts t) as [r|] eqn:E; [|reflexivity].
  destruct (youtubeShorts_Some _ _ E) as (_ & _ & l & post & -> & Hl).
  exfalso. apply Hs. rewrite !in_app_iff. tauto.
Qed.

Lemma digits_no_slash id :
  Forall (fun c => isDigit c = true) id -> ~ In 47%N id.
Proof.
  intros F Hin. rewrite List.Forall_forall in F.
  specialize (F _ Hin). discriminate F.
Qed.

Ltac prefix_has_no_match := repeat (split; [reflexivity|]); exact I.

Lemma search_youtube_embed id post :
  id <> [] -> Forall (fun c => idChar c = true) id -> stopsRun idChar post ->
  search youtubeWatch (lit "https://www.youtube.com/embed/" ++ id ++ post) = Some id.
Proof.
  intros Hn Hf Hp.
  change (lit "https://www.youtube.com/embed/")
    with (lit "https://www." ++ lit "youtube.com/embed/").
  rewrite <- app_assoc, search_skip by prefix_has_no_match.
  apply search_here. unfold youtubeWatch.
  rewrite (group_app (lit "youtube.com/embed/")) by assumption.
  reflexivity.
Qed.

Lemma search_youtube_watch id post :
  id <> [] -> Forall (fun c => idChar c = true) id -> stopsRun idChar post ->
  search youtubeWatch (lit "https://www.youtube.com/watch?v=" ++ id ++ post) = Some id.
Proof.
  intros Hn Hf Hp.
  change (lit "https://www.youtube.com/watch?v=")
    with (lit "https://www." ++ lit "youtube.com/watch?v=").
  rewrite <- app_assoc, search_skip by prefix_has_no_match.
  apply search_here. unfold youtubeWatch.
  rewrite (group_app (lit "youtube.com/watch?v=")) by assumption.
  reflexivity.
Qed.

Lemma search_youtube_short id post :
  id <> [] -> Forall (fun c => idChar c = true) id -> stopsRun idChar post ->
  search youtubeWatch (lit "https://youtu.be/" ++ id ++ post) = Some id.
Proof.
  intros Hn Hf Hp.
  change (lit "https://youtu.be/") with (lit "https://" ++ lit "youtu.be/").
  rewrite <- app_assoc, search_skip by prefix_has_no_match.
  apply search_here. unfold youtubeWatch.
  rewrite (group_app (lit "youtu.be/")) by assumption.
  reflexivity.
Qed.

Lemma search_youtube_shorts id post :
  id <> [] -> Forall (fun c => idChar c = true) id -> stopsRun idChar post ->
  ~ In 47%N (id ++ post) ->
  search youtubeWatch (lit "https://www.youtube.com/shorts/" ++ id ++ post) = None
  /\ search youtubeShorts (lit "https://www.youtube.com/shorts/" ++ id ++ post)
     = Some id.
Proof.
  intros Hn Hf Hp Hs. split.
  - rewrite search_skip by prefix_has_no_match.
    now apply youtubeWatch_needs_slash.
  - change (lit "https://www.youtube.com/shorts/")
      with (lit "https://www." ++ lit "youtube.com/shorts/").
    rewrite <- app_assoc, search_skip by prefix_has_no_match.
    apply search_here. unfold youtubeShorts. now apply group_app.
Qed.

Lemma search_vimeo_player id :
  id <> [] -> Forall (fun c => isDigit c = true) id ->
  search youtubeWatch (lit "https://player.vimeo.com/video/" ++ id) = None
  /\ search youtubeShorts (lit "https://player.vimeo.com/video/" ++ id) = None
  /\ search vimeoVideo (lit "https://player.vimeo.com/video/" ++ id) = Some id.
Proof.
  intros Hn Hf. pose proof (digits_no_slash id Hf) as Hs.
  split; [|split].
  - rewrite search_skip by prefix_has_no_match.
    now apply youtubeWatch_needs_slash.
  - rewrite search_skip by prefix_has_no_match.
    now apply youtubeShorts_needs_slash.
  - change (lit "https://player.vimeo.com/video/")
      with (lit "https://player." ++ lit "vimeo.com/" ++ lit "video/").
    rewrite <- !app_assoc, search_skip by prefix_has_no_match.
    apply search_here. unfold vimeoVideo.
    rewrite literal_app. cbn [mbind option_bind].
    rewrite <- (app_nil_r id) at 1.
    rewrite (group_app (lit "video/")) by (try assumption; exact I).
    reflexivity.
Qed.

(** X11: the embed URL built from what [extractVideoInfo] found is itself
    recognised, with the same provider and id, and it is the URL that
    [renderHTML] writes into the iframe. *)
Theorem embed_url_round_trip (url : JString) (p : Provider) (id : JString) :
  extractVideoInfo url = mkVideoInfo (Some p) (Some id) ->
  extractVideoInfo (getEmbedUrl (providerName p) id) = mkVideoInfo (Some p) (Some id)
  /\ renderedEmbedUrl (providerName p) id = getEmbedUrl (providerName p) id.
Proof.
  intros E. destruct (extractVideoInfo_Some _ _ _ E) as (Hn & Hf & _).
  split; [|now destruct p].
  destruct p; cbn [providerName]; unfold extractVideoInfo.
  - change (getEmbedUrl (lit "youtube") id)
      with (lit "https://www.youtube.com/embed/" ++ id).
    rewrite <- (app_nil_r id) at 1.
    now rewrite search_youtube_embed by (try assumption; exact I).
  - change (getEmbedUrl (lit "vimeo") id)
      with (lit "https://player.vimeo.com/video/" ++ id).
    destruct (search_vimeo_player id Hn Hf) as (-> & -> & ->). reflexivity.
Qed.

(** X12: the URL forms of YouTube. After [watch?v=], [youtu.be/] and
    [shorts/] the id runs up to the end of the URL or to the next [&],
    line feed, [?] or [#]; for the [shorts] form the first pattern must
    not match in what follows, which holds when no slash follows. *)
Theorem youtube_url_forms (id post : JString) :
  id <> [] ->
  Forall (fun c => idChar c = true) id ->
  stopsRun idChar post ->
  let found := mkVideoInfo (Some Youtube) (Some id) in
  extractVideoInfo (lit "https://www.youtube.com/watch?v=" ++ id ++ post) = found
  /\ extractVideoInfo (lit "https://youtu.be/" ++ id ++ post) = found
  /\ (~ In 47%N (id ++ post) ->
      extractVideoInfo (lit "https://www.youtube.com/shorts/" ++ id ++ post) = found).
Proof.
  intros Hn Hf Hp found. unfold extractVideoInfo.
  rewrite search_youtube_watch, search_youtube_short by assumption.
  split; [reflexivity|]. split; [reflexivity|]. intros Hs.
  destruct (search_youtube_shorts id post Hn Hf Hp Hs) as [-> ->]. reflexivity.
Qed.

Lemma search_vimeo_plain id post :
  id <> [] -> Forall (fun c => isDigit c = true) id -> stopsRun isDigit post ->
  ~ In 47%N post ->
  search youtubeWatch (lit "https://vimeo.com/" ++ id ++ post) = None
  /\ search youtubeShorts (lit "https://vimeo.com/" ++ id ++ post) = None
  /\ search vimeoVideo (lit "https://vimeo.com/" ++ id ++ post) = Some id.
Proof.
  intros Hn Hf Hp Hs.
  assert (Hs' : ~ In 47%N (id ++ post)).
  { rewrite in_app_iff. intros [Hi|Hi]; [now apply (digits_no_slash id Hf)|now apply Hs]. }
  split; [|split].
  - rewrite search_skip by prefix_has_no_match.
    now apply youtubeWatch_needs_slash.
  - rewrite search_skip by prefix_has_no_match.
    now apply youtubeShorts_needs_slash.
  - change (lit "https://vimeo.com/") with (lit "https://" ++ lit "vimeo.com/").
    rewrite <- !app_assoc, search_skip by prefix_has_no_match.
    apply search_here. unfold vimeoVideo.
    rewrite literal_app. cbn [mbind option_bind].
    assert (L : literal (lit "video/") (id ++ post) = None).
    { destruct id as [|c id]; [contradiction|].
      apply Forall_cons in Hf as [Hc _]. cbn [app].
      destruct (N.eqb_spec 118 c) as [<-|Hne]; [discriminate Hc|].
      change (literal (lit "video/") (c :: id ++ post))
        with (if (118 =? c)%N then literal (lit "ideo/") (id ++ post) else None).
      now apply N.eqb_neq in Hne as ->. }
    rewrite L. cbn. now apply run1_app.
Qed.

(** X28: the URL forms of Vimeo. After [vimeo.com/], with or without
    [video/], the id is the run of decimal digits that follows; no slash
    may follow the id, or a YouTube pattern could match first. *)
Theorem vimeo_url_forms (id post : JString) :
  id <> [] ->
  Forall (fun c => isDigit c = true) id ->
  stopsRun isDigit post ->
  ~ In 47%N post ->
  extractVideoInfo (lit "https://vimeo.com/" ++ id ++ post)
  = mkVideoInfo (Some Vimeo) (Some id)
  /\ extractVideoInfo (lit "https://player.vimeo.com/video/" ++ id)
     = mkVideoInfo (Some Vimeo) (Some id).
Proof.
  intros Hn Hf Hp Hs. unfold extractVideoInfo. split.
  - destruct (search_vimeo_plain id post Hn Hf Hp Hs) as (-> & -> & ->). reflexivity.
  - destruct (search_vimeo_player id Hn Hf) as (-> & -> & ->). reflexivity.
Qed.

(** *** The dialog *)

Lemma handleInsert_cases d :
  (trim (url d) = [] /\ handleInsert d = (mkDialog (url d) EnterUrl (previewUrl d), []))
  \/ (trim (url d) <> [] /\ extractVideoInfo (url d) = mkVideoInfo None None
      /\ handleInsert d = (mkDialog (url d) UnsupportedVideo (previewUrl d), []))
  \/ (trim (url d) <> []
      /\ exists p id, extractVideoInfo (url d) = mkVideoInfo (Some p) (Some id)
                      /\ handleInsert d
                         = (initialDialog,
                            [OnInsert (trim (url d)) p id; OnOpenChange false])).
Proof.
  unfold handleInsert.
  destruct (trim (url d)) as [|c t] eqn:T; cbn [truthy negb]; [now left|].
  right.
  destruct (extractVideoInfo_cases (url d)) as [E|(p & id & E)]; rewrite E;
    cbn [provider videoId].
  - left. split; [discriminate|]. now split.
  - right. split; [discriminate|]. exists p, id. split; [reflexivity|].
    destruct (extractVideoInfo_Some _ _ _ E) as (Hn & _).
    destruct id; [contradiction|reflexivity].
Qed.

(** X13: [handleInsert] of the video dialog either reports an error and
    calls nothing, keeping the typed URL, or it calls [onInsert] once and
    then closes the dialog, leaving it in its initial state. What it
    inserts is the trimmed URL together with the provider and the
    (non-empty) id that [extractVideoInfo] finds in the URL as typed. *)
Theorem video_insert_outcome (d : Dialog) :
  let r := handleInsert d in
  (r.2 = [] /\ url r.1 = url d /\ error r.1 <> NoMessage
   /\ (trim (url d) = [] \/ extractVideoInfo (url d) = mkVideoInfo None None))
  \/ (exists p id,
        r.2 = [OnInsert (trim (url d)) p id; OnOpenChange false]
        /\ r.1 = initialDialog
        /\ trim (url d) <> [] /\ id <> []
        /\ extractVideoInfo (url d) = mkVideoInfo (Some p) (Some id)).
Proof.
  intros r. subst r.
  destruct (handleInsert_cases d) as [(T & ->)|[(T & E & ->)|(T & p & id & E & ->)]];
    cbn [fst snd url error].
  - left. repeat split; [discriminate|now left].
  - left. repeat split; [discriminate|now right].
  - right. exists p, id. repeat split; try assumption.
    now destruct (extractVideoInfo_Some _ _ _ E).
Qed.

(** X15: while a URL is typed, the dialog previews the very thumbnail
    the node view will show for the video found in it (none for Vimeo
    and for a URL without a video), and any earlier error is cleared. *)
Theorem dialog_preview_matches_node_view (d : Dialog) (value : JString) :
  let d' := handleUrlChange d value in
  url d' = value
  /\ error d' = NoMessage
  /\ previewUrl d'
     = match provider (extractVideoInfo value), videoId (extractVideoInfo value) with
       | Some p, Some id => getThumbnailUrl (providerName p) id
       | _, _ => []
       end.
Proof.
  intros d'. subst d'. unfold handleUrlChange. cbn [url error previewUrl].
  split; [reflexivity|]. split; [reflexivity|].
  destruct (extractVideoInfo_cases value) as [->|(p & id & E)]; [reflexivity|].
  rewrite E. cbn [provider videoId].
  destruct (extractVideoInfo_Some _ _ _ E) as (Hn & _).
  destruct id as [|c id]; [contradiction|]. now destruct p.
Qed.

Lemma trimEnd_snoc_blank s c :
  isWhiteSpace c = true -> trimEnd (s ++ [c]) = trimEnd s.
Proof.
  intros W. induction s as [|a s IH]; cbn [app trimEnd]; [now rewrite W|].
  now rewrite IH.
Qed.

(** X14: blanks typed after a YouTube link end up in the video id: the id
    is taken from the URL as typed, where a trailing space or tab belongs
    to the run of the capture group, while the inserted URL is trimmed. *)
Theorem video_id_keeps_trailing_blank (d : Dialog) (link id : JString) (blank : N) :
  url d = link ++ [blank] ->
  link = lit "https://youtu.be/" ++ id ->
  trim link = link ->
  Forall (fun c => idChar c = true) id ->
  blank = 32%N \/ blank = 9%N ->
  (handleInsert d).2
  = [OnInsert link Youtube (id ++ [blank]); OnOpenChange false].
Proof.
  intros Hu -> Ht Hf Hb.
  set (link := lit "https://youtu.be/" ++ id) in *.
  assert (W : isWhiteSpace blank = true) by (destruct Hb as [-> | ->]; reflexivity).
  assert (C : idChar blank = true) by (destruct Hb as [-> | ->]; reflexivity).
  assert (T : trim (url d) = link).
  { rewrite Hu. unfold trim. unfold link at 1.
    change (trimStart ((lit "https://youtu.be/" ++ id) ++ [blank]))
      with ((lit "https://youtu.be/" ++ id) ++ [blank]).
    fold link. rewrite trimEnd_snoc_blank by exact W.
    unfold trim in Ht. unfold link at 1 in Ht.
    change (trimStart (lit "https://youtu.be/" ++ id))
      with (lit "https://youtu.be/" ++ id) in Ht.
    exact Ht. }
  assert (E : extractVideoInfo (url d) = mkVideoInfo (Some Youtube) (Some (id ++ [blank]))).
  { rewrite Hu. unfold link. rewrite <- app_assoc.
    rewrite <- (app_nil_r (id ++ [blank])) at 1.
    unfold extractVideoInfo.
    rewrite search_youtube_short; [reflexivity| | |exact I].
    - now destruct id.
    - apply Forall_app. split; [exact Hf|]. now constructor. }
  unfold handleInsert. rewrite T, E. cbn [provider videoId].
  assert (Hl : link <> []) by (unfold link; discriminate).
  destruct link eqn:El; [contradiction|]. cbn [truthy negb].
  destruct (id ++ [blank]) eqn:Ei; [now destruct id|]. reflexivity.
Qed.

(** *** Concrete runs *)

Lemma embed_url_round_trip_witness :
  extractVideoInfo (getEmbedUrl (lit "youtube") (lit "dQw4w9WgXcQ"))
  = mkVideoInfo (Some Youtube) (Some (lit "dQw4w9WgXcQ")).
Proof.
  apply (proj1 (embed_url_round_trip (lit "https://youtu.be/dQw4w9WgXcQ?t=1")
                  Youtube (lit "dQw4w9WgXcQ") eq_refl)).
Defined.

Lemma youtube_url_forms_witness :
  extractVideoInfo
    (lit "https://www.youtube.com/watch?v=" ++ lit "dQw4w9WgXcQ" ++ lit "&t=42")
  = mkVideoInfo (Some Youtube) (Some (lit "dQw4w9WgXcQ")).
Proof.
  refine (proj1 (youtube_url_forms (lit "dQw4w9WgXcQ") (lit "&t=42") _ _ _)).
  - intros E; discriminate E.
  - repeat constructor.
  - reflexivity.
Defined.

Lemma vimeo_url_forms_witness :
  extractVideoInfo (lit "https://vimeo.com/" ++ lit "76979871" ++ lit "?share=copy")
  = mkVideoInfo (Some Vimeo) (Some (lit "76979871")).
Proof.
  refine (proj1 (vimeo_url_forms (lit "76979871") (lit "?share=copy") _ _ _ _)).
  - intros E; discriminate E.
  - repeat constructor.
  - reflexivity.
  - vm_compute. intuition discriminate.
Defined.

Lemma video_id_keeps_trailing_blank_witness :
  (handleInsert (mkDialog (lit "https://youtu.be/abc" ++ [32%N]) NoMessage [])).2
  = [OnInsert (lit "https://youtu.be/abc") Youtube (lit "abc" ++ [32%N]);
     OnOpenChange false].
Proof.
  apply (video_id_keeps_trailing_blank
           (mkDialog (lit "https://youtu.be/abc" ++ [32%N]) NoMessage [])
           (lit "https://youtu.be/abc") (lit "abc") 32%N).
  - reflexivity.
  - reflexivity.
  - reflexivity.
  - repeat constructor.
  - left; reflexivity.
Defined.

End VideoFacts.

(** ** Properties of the link dialog and of the upload names *)

Module LinkFacts.
Import JStr Link JStrFacts.

Section Dialog.

Variable isValidUrl : JString -> bool.

Lemma link_handleInsert_cases d :
  (handleInsert isValidUrl d).2 = []
  \/ (trim (url d) <> [] /\ isValidUrl (url d) = true
      /\ handleInsert isValidUrl d
         = (mkDialog [] TypePreview [] Horizontal None (isLoading d) NoMessage,
            [OnInsert (mkInsertion (linkType d) (trim (url d))
                         (Some (orString (trim (linkText d)) (trim (url d))))
                         (metadata d)
                         (match linkType d with
                          | TypePreview => Some (layout d)
                          | TypeLink => None
                          end));
             OnOpenChange false])).
Proof.
  unfold handleInsert.
  destruct (trim (url d)) as [|c t] eqn:T; cbn [truthy negb]; [now left|].
  destruct (isValidUrl (url d)); cbn [negb]; [|now left].
  right. split; [discriminate|]. now split.
Qed.

Lemma orString_trimmed a b :
  trim b <> [] ->
  orString (trim a) (trim b) <> []
  /\ trim (orString (trim a) (trim b)) = orString (trim a) (trim b).
Proof.
  intros Hb. unfold orString.
  destruct (trim a) as [|c t] eqn:E; cbn [truthy].
  - split; [exact Hb|apply trim_idempotent].
  - split; [discriminate|]. rewrite <- E. apply trim_idempotent.
Qed.

(** X16: whatever [handleInsert] of the link dialog passes to [onInsert]
    has a URL and a link text that are not empty and carry no white space
    at either end; the text is the trimmed text field, or the URL when
    that field holds white space only. A layout is passed for a preview
    only. The dialog is then back in its initial state (but for
    [isLoading]) and told to close. *)
Theorem link_insert_is_trimmed (d : Dialog) (data : Insertion) :
  In (OnInsert data) (handleInsert isValidUrl d).2 ->
  ins_url data = trim (url d)
  /\ ins_url data <> [] /\ trim (ins_url data) = ins_url data
  /\ (exists text,
        ins_text data = Some text /\ text <> [] /\ trim text = text
        /\ text = orString (trim (linkText d)) (trim (url d)))
  /\ ins_layout data
     = match linkType d with TypePreview => Some (layout d) | TypeLink => None end
  /\ (handleInsert isValidUrl d).1
     = mkDialog [] TypePreview [] Horizontal None (isLoading d) NoMessage
  /\ (handleInsert isValidUrl d).2 = [OnInsert data; OnOpenChange false].
Proof.
  destruct (link_handleInsert_cases d) as [->|(T & V & ->)]; [intros []|].
  cbn [fst snd In]. intros [[= <-]|[[=]|[]]].
  cbn [ins_url ins_text ins_layout].
  destruct (orString_trimmed (linkText d) (url d) T) as [Hn Ht].
  repeat split; try assumption; try apply trim_idempotent.
  eexists. repeat split; assumption.
Qed.

(** X17: what the editor does with the data of the link dialog. A plain
    link becomes a link mark on the selection, or a linked text that is
    never empty; a preview becomes a preview card only if metadata had
    been fetched for it: otherwise nothing is inserted at all, although the
    dialog has closed and forgotten its input. *)
Theorem link_insert_reaches_editor (d : Dialog) (data : Insertion) (hasSelection : bool) :
  In (OnInsert data) (handleInsert isValidUrl d).2 ->
  match handleLinkInsert hasSelection data with
  | None => linkType d = TypePreview /\ metadata d = None
  | Some (SetLink href) =>
      linkType d = TypeLink /\ hasSelection = true /\ href = trim (url d)
  | Some (InsertLinkText text href) =>
      linkType d = TypeLink /\ hasSelection = false /\ href = trim (url d)
      /\ text <> [] /\ text = orString (trim (linkText d)) (trim (url d))
  | Some (InsertLinkPreview u t desc img lay) =>
      linkType d = TypePreview /\ u = trim (url d) /\ lay = layout d
      /\ exists m, metadata d = Some m /\ t = title m
                   /\ desc = default [] (description m)
                   /\ img = default [] (image m)
  end.
Proof.
  destruct (link_handleInsert_cases d) as [->|(T & V & ->)]; [intros []|].
  cbn [fst snd In]. intros [[= <-]|[[=]|[]]].
  destruct (orString_trimmed (linkText d) (url d) T) as [Hn _].
  unfold handleLinkInsert. cbn [ins_type ins_url ins_text ins_metadata ins_layout].
  destruct (linkType d) eqn:Lt.
  - destruct hasSelection; [now repeat split|].
    cbn [default].
    assert (O : forall a b, a <> [] -> orString a b = a) by (intros [|] ? ?; [done|reflexivity]).
    rewrite O by exact Hn. now repeat split.
  - destruct (metadata d) as [m|] eqn:M; [|now split].
    cbn [default]. repeat split. exists m. repeat split.
    + now destruct (description m) as [[|]|].
    + now destruct (image m) as [[|]|].
Qed.

(** X18: editing the URL field forgets the fetched metadata, so a preview
    inserted right after a change of the URL reaches the editor without
    metadata and inserts nothing there. *)
Theorem changed_url_inserts_no_preview (d : Dialog) (value : JString) (data : Insertion)
        (hasSelection : bool) :
  linkType d = TypePreview ->
  In (OnInsert data) (handleInsert isValidUrl (handleUrlChange d value)).2 ->
  ins_url data = trim value
  /\ ins_metadata data = None
  /\ handleLinkInsert hasSelection data = None.
Proof.
  intros Lt.
  destruct (link_handleInsert_cases (handleUrlChange d value)) as [->|(T & V & ->)];
    [intros []|].
  cbn [fst snd In]. intros [[= <-]|[[=]|[]]].
  cbn [handleUrlChange url linkType metadata ins_url ins_metadata].
  unfold handleLinkInsert. cbn [ins_type ins_metadata]. now rewrite Lt.
Qed.

End Dialog.

(** *** Concrete runs *)

Lemma link_insert_is_trimmed_witness :
  let d := mkDialog (lit " https://a.example ") TypeLink (lit "  ") Horizontal
             None false NoMessage in
  let data := mkInsertion TypeLink (lit "https://a.example")
                (Some (lit "https://a.example")) None None in
  ins_url data = trim (url d) /\ ins_url data <> [].
Proof.
  intros d data.
  destruct (link_insert_is_trimmed (fun _ => true) d data) as (U & N & _).
  - left; reflexivity.
  - split; [exact U|exact N].
Defined.

Lemma link_insert_reaches_editor_witness :
  let d := mkDialog (lit "https://a.example") TypePreview (lit "A") Vertical
             None false NoMessage in
  linkType d = TypePreview /\ metadata d = None.
Proof.
  intros d.
  apply (link_insert_reaches_editor (fun _ => true) d
           (mkInsertion TypePreview (lit "https://a.example") (Some (lit "A"))
              None (Some Vertical))
           false).
  left; reflexivity.
Defined.

Lemma changed_url_inserts_no_preview_witness :
  let d := mkDialog (lit "https://a.example") TypePreview (lit "A") Vertical
             (Some (mkMetadata (lit "A") None None)) false NoMessage in
  let data := mkInsertion TypePreview (lit "https://b.example") (Some (lit "A"))
                None (Some Vertical) in
  handleLinkInsert false data = None.
Proof.
  intros d data.
  apply (changed_url_inserts_no_preview (fun _ => true) d (lit "https://b.example")
           data false).
  - reflexivity.
  - left; reflexivity.
Defined.

End LinkFacts.

Module UploadFacts.
Import JStr Upload JStrFacts.

Lemma forallb_extChar_dot a b : forallb extChar (a ++ 46%N :: b) = false.
Proof.
  induction a as [|c a IH]; [reflexivity|].
  cbn [app forallb]. rewrite IH. apply andb_false_r.
Qed.

Lemma extensionAt_before_dot c a b : extensionAt (c :: a ++ 46%N :: b) = false.
Proof.
  unfold extensionAt.
  destruct (N.eqb_spec c 46) as [->|Hc].
  - destruct a as [|x a]; cbn [app].
    + reflexivity.
    + apply (forallb_extChar_dot (x :: a) b).
  - destruct c as [|p]; [reflexivity|].
    do 6 (destruct p as [p|p|]; try reflexivity). congruence.
Qed.

(** X19: a file name with an extension (a last dot followed by at least
    one code unit, none of them a slash) is uploaded under the name with
    that extension replaced by [.webp]; everything before the last dot is
    kept, whatever it holds. *)
Theorem webp_name_replaces_extension (stem ext : JString) :
  ext <> [] ->
  Forall (fun c => c <> 47%N /\ c <> 46%N) ext ->
  webpName (stem ++ 46%N :: ext) = stem ++ lit ".webp".
Proof.
  intros Hn Hf.
  assert (F : forallb extChar ext = true).
  { apply forallb_forall. rewrite List.Forall_forall in Hf.
    intros c Hc. destruct (Hf c Hc) as [H1 H2]. unfold extChar.
    apply negb_true_iff, orb_false_iff. now rewrite !N.eqb_neq. }
  induction stem as [|c stem IH].
  - destruct ext as [|e ext]; [contradiction|].
    cbn [app webpName extensionAt]. now rewrite F.
  - cbn [app]. cbn [webpName]. rewrite extensionAt_before_dot.
    now rewrite IH.
Qed.

Lemma extensionAt_no_dot s : ~ In 46%N s -> extensionAt s = false.
Proof.
  destruct s as [|c s]; [reflexivity|]. intros Hd.
  destruct (N.eqb_spec c 46) as [->|Hc]; [exfalso; apply Hd; now left|].
  unfold extensionAt. destruct c as [|p]; [reflexivity|].
  do 6 (destruct p as [p|p|]; try reflexivity). congruence.
Qed.

(** X20: a file name without an extension is not renamed: a name without
    a dot, and a name whose last dot is its last code unit, are uploaded
    as they are, so the uploaded name does not end in [.webp]. *)
Theorem webp_name_without_extension (name : JString) :
  ~ In 46%N name ->
  webpName name = name /\ webpName (name ++ [46%N]) = name ++ [46%N].
Proof.
  intros Hd. split.
  - induction name as [|c name IH]; [reflexivity|].
    cbn [webpName]. rewrite extensionAt_no_dot by exact Hd.
    rewrite IH; [reflexivity|]. intros Hi. apply Hd. now right.
  - induction name as [|c name IH]; [reflexivity|].
    cbn [app webpName]. rewrite extensionAt_before_dot.
    rewrite IH; [reflexivity|]. intros Hi. apply Hd. now right.
Qed.

Lemma last_splitSlash cur dir name :
  ~ In 47%N name -> last (splitSlash cur (dir ++ 47%N :: name)) = Some name.
Proof.
  intros Hs.
  assert (B : forall cur, splitSlash cur name = [cur ++ name]).
  { clear cur. induction name as [|c name IH]; intros cur; cbn [splitSlash].
    - now rewrite app_nil_r.
    - destruct (N.eqb_spec c 47) as [->|_]; [exfalso; apply Hs; now left|].
      rewrite IH by (intros Hi; apply Hs; now right).
      now rewrite <- app_assoc. }
  revert cur. induction dir as [|c dir IH]; intros cur; cbn [app splitSlash].
  - cbn. now rewrite B.
  - destruct (c =? 47)%N; [|apply IH].
    rewrite last_cons, IH. reflexivity.
Qed.

Lemma splitSlash_plain cur name :
  ~ In 47%N name -> splitSlash cur name = [cur ++ name].
Proof.
  revert cur. induction name as [|c name IH]; intros cur Hs; cbn [splitSlash].
  - now rewrite app_nil_r.
  - destruct (N.eqb_spec c 47) as [->|_]; [exfalso; apply Hs; now left|].
    rewrite IH by (intros Hi; apply Hs; now right).
    now rewrite <- app_assoc.
Qed.

(** X21: the name kept for an uploaded image is what follows the last
    slash of its file key; a key without a slash, and a key that ends in a
    slash, are kept whole; an empty key gives no name. *)
Theorem file_name_of_key (dir name : JString) :
  name <> [] ->
  ~ In 47%N name ->
  fileNameOfKey (dir ++ 47%N :: name) = Some name
  /\ fileNameOfKey name = Some name
  /\ fileNameOfKey (dir ++ [47%N]) = Some (dir ++ [47%N])
  /\ fileNameOfKey [] = None.
Proof.
  intros Hn Hs. unfold fileNameOfKey. repeat split.
  - rewrite last_splitSlash by exact Hs.
    destruct dir; cbn [app truthy default orString];
      destruct name; try contradiction; reflexivity.
  - rewrite splitSlash_plain by exact Hs.
    destruct name; [contradiction|reflexivity].
  - rewrite (last_splitSlash [] dir []) by (intros []).
    destruct dir; reflexivity.
Qed.

(** *** Concrete runs *)

Lemma webp_name_replaces_extension_witness :
  webpName (lit "holiday.2024" ++ 46%N :: lit "jpeg") = lit "holiday.2024" ++ lit ".webp".
Proof.
  apply (webp_name_replaces_extension (lit "holiday.2024") (lit "jpeg")).
  - intros E; discriminate E.
  - repeat constructor; intros E; discriminate E.
Defined.

Lemma webp_name_without_extension_witness :
  webpName (lit "README") = lit "README".
Proof.
  apply (webp_name_without_extension (lit "README")).
  vm_compute. intuition discriminate.
Defined.

Lemma file_name_of_key_witness :
  fileNameOfKey (lit "spaces/s1" ++ 47%N :: lit "a.webp") = Some (lit "a.webp").
Proof.
  apply (file_name_of_key (lit "spaces/s1") (lit "a.webp")).
  - intros E; discriminate E.
  - vm_compute. intuition discriminate.
Defined.

End UploadFacts.

(** ** Properties of the thumbnail registry *)

Module ThumbnailFacts.
Import Thumbnail.

Section Registry.

Context {World : Type}.

Implicit Types (r : Registry World) (w : World).

(** X22: a key stored for a URL is what [getKeyFromUrl] returns for that
    URL afterwards, except that an empty key reads as no key; the keys of
    all other URLs are as before. *)
Theorem key_lookup_after_mapping r (url key url' : string) :
  getKeyFromUrl (setUrlToKeyMapping r url key) url'
  = if bool_decide (url' = url)
    then (if bool_decide (key = "") then None else Some key)
    else getKeyFromUrl r url'.
Proof.
  unfold getKeyFromUrl, setUrlToKeyMapping. cbn [urlToKeyMap].
  destruct (decide (url' = url)) as [->|Hne].
  - rewrite lookup_insert_eq, bool_decide_eq_true_2 by reflexivity.
    cbn [truthy]. now destruct (bool_decide (key = "")).
  - rewrite lookup_insert_ne, bool_decide_eq_false_2 by congruence.
    reflexivity.
Qed.

(** X23: choosing a thumbnail URL sets the URL and tells the URL
    listeners. The key follows when the URL has a non-empty key on record
    and is cleared when the URL is [null] or empty; but for a URL without
    a key on record the key of the previous thumbnail stays, and no key
    listener hears of the change. *)
Theorem thumbnail_key_follows_url r w (url : option string) :
  let s := setGlobalThumbnailUrl r w url in
  thumbnailUrl s.1 = url
  /\ urlToKeyMap s.1 = urlToKeyMap r
  /\ (truthy url = false ->
        thumbnailKey s.1 = None
        /\ s.2 = notify (thumbnailKeyListeners r) None
                   (notify (thumbnailListeners r) url w))
  /\ (forall u key, url = Some u -> u <> "" -> getKeyFromUrl r u = Some key ->
        thumbnailKey s.1 = Some key
        /\ s.2 = notify (thumbnailKeyListeners r) (Some key)
                   (notify (thumbnailListeners r) url w))
  /\ (forall u, url = Some u -> u <> "" -> getKeyFromUrl r u = None ->
        thumbnailKey s.1 = thumbnailKey r
        /\ s.2 = notify (thumbnailListeners r) url w).
Proof.
  intros s. subst s.
  assert (U : forall u key, u <> "" -> getKeyFromUrl r u = Some key ->
                setGlobalThumbnailUrl r w (Some u)
                = setGlobalThumbnailKey
                    (mkRegistry (Some u) (thumbnailKey r) (thumbnailListeners r)
                       (thumbnailKeyListeners r) (urlToKeyMap r))
                    (notify (thumbnailListeners r) (Some u) w) (Some key)).
  { intros u key Hu Ek. unfold getKeyFromUrl in Ek. unfold setGlobalThumbnailUrl.
    cbn [truthy urlToKeyMap]. rewrite bool_decide_eq_false_2 by exact Hu.
    cbn [negb]. destruct (urlToKeyMap r !! u) as [k|]; [|discriminate].
    cbn [truthy] in Ek. destruct (negb (bool_decide (k = ""))); [|discriminate].
    injection Ek as ->. reflexivity. }
  assert (N : forall u, u <> "" -> getKeyFromUrl r u = None ->
                setGlobalThumbnailUrl r w (Some u)
                = (mkRegistry (Some u) (thumbnailKey r) (thumbnailListeners r)
                     (thumbnailKeyListeners r) (urlToKeyMap r),
                   notify (thumbnailListeners r) (Some u) w)).
  { intros u Hu Ek. unfold getKeyFromUrl in Ek. unfold setGlobalThumbnailUrl.
    cbn [truthy urlToKeyMap]. rewrite bool_decide_eq_false_2 by exact Hu.
    cbn [negb]. destruct (urlToKeyMap r !! u) as [k|]; [|reflexivity].
    cbn [truthy] in Ek.
    destruct (negb (bool_decide (k = ""))); [discriminate|reflexivity]. }
  assert (F : truthy url = false ->
              setGlobalThumbnailUrl r w url
              = setGlobalThumbnailKey
                  (mkRegistry url (thumbnailKey r) (thumbnailListeners r)
                     (thumbnailKeyListeners r) (urlToKeyMap r))
                  (notify (thumbnailListeners r) url w) None).
  { intros T. unfold setGlobalThumbnailUrl. destruct url; [|reflexivity].
    now rewrite T. }
  split; [|split; [|split; [|split]]].
  - destruct url as [u|]; [|reflexivity].
    destruct (decide (u = "")) as [->|Hu]; [reflexivity|].
    destruct (getKeyFromUrl r u) as [key|] eqn:Ek.
    + now rewrite (U u key Hu Ek).
    + now rewrite (N u Hu Ek).
  - destruct url as [u|]; [|reflexivity].
    destruct (decide (u = "")) as [->|Hu]; [reflexivity|].
    destruct (getKeyFromUrl r u) as [key|] eqn:Ek.
    + now rewrite (U u key Hu Ek).
    + now rewrite (N u Hu Ek).
  - intros T. rewrite (F T). now split.
  - intros u key -> Hu Ek. rewrite (U u key Hu Ek). now split.
  - intros u -> Hu Ek. rewrite (N u Hu Ek). now split.
Qed.

End Registry.

(** *** The image node views *)

Lemma notify_views l v views id :
  viewSetters l ->
  notify l v views !! id = if bool_decide (id ∈ l.*1) then Some v else views !! id.
Proof.
  unfold notify. revert views.
  induction l as [|[i h] l IH] using rev_ind; intros views S; [reflexivity|].
  rewrite fold_left_app. cbn [fold_left snd].
  assert (Sl : viewSetters l) by (intros ? ? ?; apply S, elem_of_app; now left).
  rewrite (S i h) by (apply elem_of_app; right; now constructor).
  unfold setCurrentThumbnail, Views in *. cbn beta. rewrite fmap_app. cbn [fmap list_fmap fst].
  destruct (decide (id = i)) as [->|Hne].
  - rewrite lookup_insert_eq, bool_decide_eq_true_2; [reflexivity|].
    apply elem_of_app. right. now constructor.
  - rewrite lookup_insert_ne by congruence. rewrite IH by exact Sl.
    destruct (decide (id ∈ l.*1)) as [Hin|Hin].
    + rewrite !bool_decide_eq_true_2; [reflexivity| |exact Hin].
      apply elem_of_app. now left.
    + rewrite !bool_decide_eq_false_2; [reflexivity| |exact Hin].
      rewrite elem_of_app, list_elem_of_singleton. tauto.
Qed.

Lemma setAdd_ids (l : list (nat * Handler Views)) id h i :
  i ∈ (setAdd l id h).*1 <-> i ∈ l.*1 \/ i = id.
Proof.
  unfold setAdd. destruct (decide (id ∈ l.*1)) as [Hin|Hin].
  - rewrite bool_decide_eq_true_2 by exact Hin. split; [tauto|].
    intros [?| ->]; assumption.
  - rewrite bool_decide_eq_false_2 by exact Hin.
    rewrite fmap_app, elem_of_app. cbn. rewrite list_elem_of_singleton. tauto.
Qed.

Lemma setAdd_setters (l : list (nat * Handler Views)) id :
  viewSetters l -> viewSetters (setAdd l id (setCurrentThumbnail id)).
Proof.
  intros S i h. unfold setAdd. destruct (bool_decide (id ∈ l.*1)); [apply S|].
  rewrite elem_of_app, list_elem_of_singleton. intros [Hin|[= -> ->]]; [now apply S|reflexivity].
Qed.

Lemma setDelete_ids (l : list (nat * Handler Views)) id i :
  i ∈ (setDelete l id).*1 <-> i ∈ l.*1 /\ i <> id.
Proof.
  unfold setDelete. rewrite !list_elem_of_fmap. split.
  - intros ([i' h] & -> & Hin). apply list_elem_of_filter in Hin as [Hne Hin].
    split; [now exists (i', h)|exact Hne].
  - intros [([i' h] & -> & Hin) Hne]. exists (i', h). split; [reflexivity|].
    now apply list_elem_of_filter.
Qed.

Lemma step_inSync s e : inSync s -> inSync (step s e).
Proof.
  destruct s as [r views]. intros (K & S & M & V). cbn [fst snd] in *.
  destruct e as [id|id|src|key|url key]; cbn [step fst snd].
  - (* Mount *)
    unfold mount, inSync, Views in *. cbn [fst snd subscribeThumbnail thumbnailKeyListeners
                                thumbnailListeners thumbnailUrl].
    split; [exact K|]. split; [now apply setAdd_setters|]. split.
    + intros i Hi. apply setAdd_ids. destruct (decide (i = id)) as [->|Hne]; [now right|].
      left. apply M. now rewrite lookup_insert_ne in Hi by congruence.
    + intros i v. destruct (decide (i = id)) as [->|Hne].
      * rewrite lookup_insert_eq. congruence.
      * rewrite lookup_insert_ne by congruence. apply V.
  - (* Unmount *)
    unfold unmount, inSync, Views in *. cbn [fst snd unsubscribeThumbnail thumbnailKeyListeners
                                  thumbnailListeners thumbnailUrl].
    split; [exact K|]. split.
    { intros i h Hin. apply list_elem_of_filter in Hin as [_ Hin]. now apply S. }
    split.
    + intros i Hi. apply setDelete_ids. destruct (decide (i = id)) as [->|Hne].
      * rewrite lookup_delete_eq in Hi. now destruct Hi.
      * rewrite lookup_delete_ne in Hi by congruence. split; [now apply M|exact Hne].
    + intros i v. destruct (decide (i = id)) as [->|Hne].
      * now rewrite lookup_delete_eq.
      * rewrite lookup_delete_ne by congruence. apply V.
  - (* SetThumbnail *)
    unfold handleSetThumbnail.
    assert (E : setGlobalThumbnailUrl r views src
                = (mkRegistry src (thumbnailKey (setGlobalThumbnailUrl r views src).1)
                     (thumbnailListeners r) [] (urlToKeyMap r),
                   notify (thumbnailListeners r) src views)).
    { unfold setGlobalThumbnailUrl, setGlobalThumbnailKey.
      cbn [thumbnailKeyListeners thumbnailListeners urlToKeyMap thumbnailUrl thumbnailKey].
      rewrite K. cbn [notify fold_left].
      destruct src as [u|]; cbn [truthy]; [|reflexivity].
      destruct (negb (bool_decide (u = ""))); [|reflexivity].
      destruct (urlToKeyMap r !! u) as [k|]; [|reflexivity].
      destruct (negb (bool_decide (k = ""))); reflexivity. }
    rewrite E. unfold inSync, Views in *.
    cbn [fst snd thumbnailKeyListeners thumbnailListeners thumbnailUrl].
    split; [reflexivity|]. split; [exact S|]. split.
    + intros i Hi. rewrite notify_views in Hi by exact S.
      destruct (decide (i ∈ (thumbnailListeners r).*1)) as [Hin|Hin]; [exact Hin|].
      rewrite bool_decide_eq_false_2 in Hi by exact Hin. now apply M.
    + intros i v. rewrite notify_views by exact S.
      destruct (decide (i ∈ (thumbnailListeners r).*1)) as [Hin|Hin].
      * rewrite bool_decide_eq_true_2 by exact Hin. congruence.
      * rewrite bool_decide_eq_false_2 by exact Hin. intros Hv.
        exfalso. apply Hin, M. eexists. exact Hv.
  - (* SetKey *)
    unfold setGlobalThumbnailKey, inSync.
    cbn [fst snd thumbnailKeyListeners thumbnailListeners thumbnailUrl].
    rewrite K. cbn [notify fold_left]. now repeat split.
  - (* MapUrl *)
    unfold setUrlToKeyMapping, inSync.
    cbn [fst snd thumbnailKeyListeners thumbnailListeners thumbnailUrl].
    now repeat split.
Qed.

Lemma run_inSync events s : inSync s -> inSync (fold_left step events s).
Proof.
  revert s. induction events as [|e events IH]; intros s I; [exact I|].
  cbn [fold_left]. apply IH. now apply step_inSync.
Qed.

Lemma inSync_start : inSync (emptyRegistry, ∅).
Proof.
  unfold inSync, Views. cbn. repeat split.
  - intros ? ? Hin. inversion Hin.
  - intros id Hi. rewrite lookup_empty in Hi. now destruct Hi.
  - intros id v. now rewrite lookup_empty.
Qed.

(** X24: the mounted image views always agree with the registry.
    Whatever views are mounted and unmounted and whatever thumbnails, keys
    and mappings are set, every mounted view holds the current global
    thumbnail URL, so it shows the thumbnail badge exactly when its image
    is the thumbnail. *)
Theorem views_follow_thumbnail (events : list Event) (id : nat) (src : option string) :
  let s := fold_left step events (emptyRegistry, ∅) in
  is_Some (s.2 !! id) ->
  s.2 !! id = Some (thumbnailUrl s.1)
  /\ isThumbnail s.2 id src = bool_decide (thumbnailUrl s.1 = src).
Proof.
  intros s [v Hv].
  destruct (run_inSync events _ inSync_start) as (_ & _ & _ & V).
  fold s in V. pose proof (V id v Hv) as ->.
  split; [exact Hv|]. unfold isThumbnail. rewrite Hv.
  destruct (decide (thumbnailUrl s.1 = src)) as [->|Hne].
  - now rewrite !bool_decide_eq_true_2.
  - rewrite !bool_decide_eq_false_2; [reflexivity|exact Hne|congruence].
Qed.

(** *** Concrete runs *)

Lemma thumbnail_key_follows_url_witness :
  let r : Registry unit := setUrlToKeyMapping emptyRegistry "u" "k" in
  thumbnailKey (setGlobalThumbnailUrl r () (Some "u")).1 = Some "k"
  /\ thumbnailKey
       (setGlobalThumbnailUrl (setGlobalThumbnailUrl r () (Some "u")).1 () (Some "v")).1
     = Some "k".
Proof.
  intros r. split.
  - apply (proj1 (proj2 (proj2 (proj2 (thumbnail_key_follows_url r () (Some "u")))))
             "u" "k" eq_refl).
    + intros E; discriminate E.
    + reflexivity.
  - apply (proj2 (proj2 (proj2 (proj2
             (thumbnail_key_follows_url (setGlobalThumbnailUrl r () (Some "u")).1 ()
                (Some "v"))))) "v" eq_refl).
    + intros E; discriminate E.
    + reflexivity.
Defined.

Lemma views_follow_thumbnail_witness :
  let s := fold_left step
             [Mount 1%nat; MapUrl "u" "k"; SetThumbnail (Some "u"); Mount 2%nat;
              SetThumbnail (Some "v")]
             (emptyRegistry, ∅) in
  s.2 !! 1%nat = Some (Some "v")
  /\ isThumbnail s.2 2%nat (Some "u") = false.
Proof.
  intros s. split.
  - apply (views_follow_thumbnail
             [Mount 1%nat; MapUrl "u" "k"; SetThumbnail (Some "u"); Mount 2%nat;
              SetThumbnail (Some "v")] 1%nat None).
    vm_compute. eexists. reflexivity.
  - refine (eq_trans (proj2 (views_follow_thumbnail
             [Mount 1%nat; MapUrl "u" "k"; SetThumbnail (Some "u"); Mount 2%nat;
              SetThumbnail (Some "v")] 2%nat (Some "u") _)) _).
    + vm_compute. eexists. reflexivity.
    + reflexivity.
Defined.

End ThumbnailFacts.

(** ** Properties of the counter *)

Module CounterFacts.
Import JStr Counter JStrFacts.

Lemma pieces_cons w l :
  pieces (w :: l) = ((if truthy w then 1 else 0) + pieces l)%nat.
Proof.
  unfold pieces. rewrite filter_cons.
  destruct w as [|c w]; cbn [truthy length].
  - destruct (decide (0 < 0)%nat); [lia|reflexivity].
  - destruct (decide (0 < S (length w))%nat); [reflexivity|lia].
Qed.

(** The pieces that are not empty are the words, whatever white space
    surrounds them. *)
Lemma pieces_splitSpaces b cur s :
  (cur <> [] -> b = false) ->
  pieces (splitSpaces b cur s)
  = ((if truthy cur then 1 else 0) + wordStarts (negb (truthy cur)) s)%nat.
Proof.
  revert b cur. induction s as [|c s IH]; intros b cur Hb; cbn [splitSpaces wordStarts].
  - rewrite pieces_cons. unfold pieces. cbn. lia.
  - destruct (isWhiteSpace c) eqn:W.
    + destruct b.
      * destruct cur; [|now specialize (Hb ltac:(discriminate))].
        rewrite IH by (intros Hx; now destruct Hx). reflexivity.
      * rewrite pieces_cons, IH by (intros Hx; now destruct Hx). cbn [truthy negb]. lia.
    + rewrite IH by (intros; reflexivity).
      assert (T : truthy (cur ++ [c]) = true) by now destruct cur.
      rewrite T. cbn [negb]. destruct (truthy cur); cbn [negb]; lia.
Qed.

Lemma wordStarts_trimStart s : wordStarts true (trimStart s) = wordStarts true s.
Proof.
  induction s as [|c s IH]; [reflexivity|].
  cbn [trimStart wordStarts]. destruct (isWhiteSpace c) eqn:W; [exact IH|].
  cbn [wordStarts]. now rewrite W.
Qed.

Lemma wordStarts_blank b s : trimEnd s = [] -> wordStarts b s = 0%nat.
Proof.
  revert b. induction s as [|c s IH]; intros b; [reflexivity|].
  cbn [trimEnd wordStarts].
  destruct (trimEnd s) eqn:E; [|discriminate].
  destruct (isWhiteSpace c); [|discriminate]. intros _. now apply IH.
Qed.

Lemma wordStarts_cons b c s :
  wordStarts b (c :: s)
  = if isWhiteSpace c then wordStarts true s
    else ((if b then 1 else 0) + wordStarts false s)%nat.
Proof. reflexivity. Qed.

Lemma wordStarts_trimEnd b s : wordStarts b (trimEnd s) = wordStarts b s.
Proof.
  revert b. induction s as [|c s IH]; intros b; [reflexivity|].
  cbn [trimEnd]. destruct (trimEnd s) as [|a r] eqn:E.
  - destruct (isWhiteSpace c) eqn:W; cbn [wordStarts]; rewrite W.
    + symmetry. now apply wordStarts_blank.
    + rewrite (wordStarts_blank false s E). reflexivity.
  - rewrite (wordStarts_cons b c (a :: r)), (wordStarts_cons b c s), !IH.
    reflexivity.
Qed.

Lemma wordStarts_le b s : (wordStarts b s <= charCount s)%nat.
Proof.
  unfold charCount, JString. revert b. induction s as [|c s IH]; intros b; [reflexivity|].
  cbn [wordStarts]. rewrite filter_cons.
  destruct (isWhiteSpace c) eqn:W.
  - destruct (decide (true = false)); [discriminate|]. apply IH.
  - destruct (decide (false = false)); [|congruence].
    cbn [length]. specialize (IH false). destruct b; lia.
Qed.

Lemma wordStarts_zero s : wordStarts true s = 0%nat -> charCount s = 0%nat.
Proof.
  unfold charCount, JString. induction s as [|c s IH]; [reflexivity|].
  cbn [wordStarts]. rewrite filter_cons.
  destruct (isWhiteSpace c) eqn:W; [|discriminate].
  destruct (decide (true = false)); [discriminate|]. exact IH.
Qed.

(** X25: the word count is the number of places of the text where a word
    starts, a code unit that is not white space standing first or after
    white space; white space around the text and the length of the gaps do
    not count. *)
Theorem word_count_counts_word_starts (text : JString) :
  wordCount text = wordStarts true text.
Proof.
  unfold wordCount. fold (pieces (splitSpaces false [] (trim text))).
  rewrite pieces_splitSpaces by (intros; reflexivity). cbn [truthy negb Nat.add].
  unfold trim. now rewrite wordStarts_trimEnd, wordStarts_trimStart.
Qed.

(** X26: there are never more words than characters counted, and the one
    count is zero exactly when the other is. *)
Theorem word_count_below_char_count (text : JString) :
  (shownCount CountWord text <= shownCount CountChar text)%nat
  /\ (shownCount CountWord text = 0%nat <-> shownCount CountChar text = 0%nat).
Proof.
  cbn [shownCount].
  assert (E : wordCount text = wordStarts true text).
  { unfold wordCount. fold (pieces (splitSpaces false [] (trim text))).
    rewrite pieces_splitSpaces by (intros; reflexivity). cbn [truthy negb Nat.add].
    unfold trim. now rewrite wordStarts_trimEnd, wordStarts_trimStart. }
  rewrite E. pose proof (wordStarts_le true text) as L.
  split; [exact L|]. split; [apply wordStarts_zero|lia].
Qed.

End CounterFacts.
